(** * Lab CSS Basics autograder (grade.cjs): a shallow embedding

    The grader reads a stylesheet, extracts [selector { declarations }]
    blocks with regular expressions, checks a list of requirements per
    TODO, turns the satisfied fractions into a weighted mark out of 80 and
    adds a submission component (20 on time, 10 late, 0 missing).

    Conventions of the embedding.
    - A JavaScript string is a list of code units, [text]. Code units are
      8 bits wide here ([ascii]), read as the Latin-1 range of UTF-16:
      [\s], [trim], [toLowerCase] and the [i] flag are written out for
      that range.
    - JavaScript numbers are exact rationals ([Q]); [Math.round x] is
      [Qfloor (x + 1/2)]. [bucket_rounding_margin] shows that the rounding
      of the bucket is out of reach of double-precision error.
    - A regular expression literal is a list of [item]s run by a small
      backtracking matcher with the ECMAScript priorities (greedy
      quantifiers try the longest run first, lazy ones the shortest).
    - [execSync] is an oracle of the environment: [None] when the command
      throws. The globals of the script that depend on the environment
      live in [Section Grader].

    The file has three parts: the program, the definitions that restate
    the specification in its own words, and the proofs that relate the
    two. *)

From Stdlib Require Import Ascii String.
From Stdlib Require Import List Bool Arith ZArith QArith Qround Lia Lqa DecimalString.
Import ListNotations.
Close Scope Q_scope.


(* ===================================================================== *)
(** * Text *)
(* ===================================================================== *)

Definition text := list ascii.

Definition lit (s : string) : text := list_ascii_of_string s.

Definition code (c : ascii) : nat := nat_of_ascii c.

(** [\s] and the characters removed by [trim]: TAB, LF, VT, FF, CR, SP and
    NBSP. *)
Definition isSpace (c : ascii) : bool :=
  let n := code c in
  ((9 <=? n) && (n <=? 13)) || (n =? 32) || (n =? 160).

(** [\w]: letters, digits and the underscore. *)
Definition isWord (c : ascii) : bool :=
  let n := code c in
  ((48 <=? n) && (n <=? 57)) || ((65 <=? n) && (n <=? 90))
  || ((97 <=? n) && (n <=? 122)) || (n =? 95).

(** [toLowerCase] on one code unit: A-Z, and the accented capitals
    U+00C0..U+00DE except the multiplication sign U+00D7. *)
Definition lowerChar (c : ascii) : ascii :=
  let n := code c in
  if ((65 <=? n) && (n <=? 90))
     || ((192 <=? n) && (n <=? 222) && negb (n =? 215))
  then ascii_of_nat (n + 32) else c.

Definition toLowerCase (s : text) : text := map lowerChar s.

(** Canonicalisation of the [i] flag: the upper-case code unit, kept when
    the upper-case form leaves the 8-bit range or is not a single unit
    (U+00B5, U+00DF, U+00FF). *)
Definition canon (c : ascii) : ascii :=
  let n := code c in
  if ((97 <=? n) && (n <=? 122))
     || ((224 <=? n) && (n <=? 254) && negb (n =? 247))
  then ascii_of_nat (n - 32) else c.

Definition eqChar (a b : ascii) : bool := Ascii.eqb a b.

Definition eqCharI (a b : ascii) : bool := Ascii.eqb (canon a) (canon b).

Fixpoint eqText (a b : text) : bool :=
  match a, b with
  | [], [] => true
  | x :: a', y :: b' => eqChar x y && eqText a' b'
  | _, _ => false
  end.

Fixpoint dropWhile (f : ascii -> bool) (s : text) : text :=
  match s with
  | [] => []
  | c :: t => if f c then dropWhile f t else s
  end.

Definition trimStart (s : text) : text := dropWhile isSpace s.

Definition trimEnd (s : text) : text := rev (dropWhile isSpace (rev s)).

Definition trim (s : text) : text := trimEnd (trimStart s).

Fixpoint startsWith (needle s : text) : bool :=
  match needle, s with
  | [], _ => true
  | x :: n', y :: s' => eqChar x y && startsWith n' s'
  | _ :: _, [] => false
  end.

(** [s.includes(needle)] *)
Fixpoint includes (s needle : text) : bool :=
  startsWith needle s
  || match s with
     | [] => false
     | _ :: t => includes t needle
     end.

(** [s.split(sep)] for a one-character separator. *)
Fixpoint split (sep : ascii) (s : text) : list text :=
  match s with
  | [] => [[]]
  | c :: t =>
      if eqChar c sep then [] :: split sep t
      else match split sep t with
           | [] => [[c]]
           | p :: ps => (c :: p) :: ps
           end
  end.

(** [parts.join(sep)] *)
Fixpoint join (sep : text) (parts : list text) : text :=
  match parts with
  | [] => []
  | [p] => p
  | p :: ps => p ++ sep ++ join sep ps
  end.

(** Truthiness of a string, as used by [filter(Boolean)]. *)
Definition nonEmpty (s : text) : bool :=
  match s with [] => false | _ :: _ => true end.

(* ===================================================================== *)
(** * Regular expressions *)
(* ===================================================================== *)

Module RegExp.

(** Quantifiers of a one-character class: [x], [x?], [x*], [x+], [x*?]. *)
Inductive quant := Once | Maybe | Many0 | Many1 | Many0Lazy.

Inductive item :=
| Cls (q : quant) (f : ascii -> bool)
| WordB                                  (* \b *)
| Bol                                    (* ^  *)
| Eol.                                   (* $  *)

Definition regexp := list item.

(** What an item sees to its left: the previous code unit, if any. *)
Definition isWordO (o : option ascii) : bool :=
  match o with Some c => isWord c | None => false end.

Definition lastOf (prev : option ascii) (p : text) : option ascii :=
  match rev p with [] => prev | c :: _ => Some c end.

Definition result := (list text * text)%type.

Definition consPiece (p : text) (r : option result) : option result :=
  match r with
  | Some (ps, rest) => Some (p :: ps, rest)
  | None => None
  end.

Definition growPiece (c : ascii) (r : option result) : option result :=
  match r with
  | Some (p :: ps, rest) => Some ((c :: p) :: ps, rest)
  | _ => None
  end.

Section Quantifiers.
Variable k : option ascii -> text -> option result.
Variable f : ascii -> bool.

(** [x*]: the longest run first, then shorter ones. *)
Fixpoint greedy (prev : option ascii) (s : text) : option result :=
  match s with
  | c :: t =>
      if f c then
        match growPiece c (greedy (Some c) t) with
        | Some r => Some r
        | None => consPiece [] (k prev s)
        end
      else consPiece [] (k prev s)
  | [] => consPiece [] (k prev s)
  end.

(** [x*?]: the shortest run first, then longer ones. *)
Fixpoint lazy (prev : option ascii) (s : text) : option result :=
  match consPiece [] (k prev s) with
  | Some r => Some r
  | None =>
      match s with
      | c :: t => if f c then growPiece c (lazy (Some c) t) else None
      | [] => None
      end
  end.
End Quantifiers.

(** One attempt at the current position: the text consumed by each item
    (one piece per item) and what follows the match. *)
Fixpoint run (re : regexp) (prev : option ascii) (s : text) : option result :=
  match re with
  | [] => Some ([], s)
  | WordB :: re' =>
      if xorb (isWordO prev) (isWordO (hd_error s))
      then consPiece [] (run re' prev s) else None
  | Bol :: re' =>
      match prev with
      | None => consPiece [] (run re' prev s)
      | Some _ => None
      end
  | Eol :: re' =>
      match s with
      | [] => consPiece [] (run re' prev s)
      | _ :: _ => None
      end
  | Cls q f :: re' =>
      match q with
      | Once =>
          match s with
          | c :: t => if f c then consPiece [c] (run re' (Some c) t) else None
          | [] => None
          end
      | Maybe =>
          match s with
          | c :: t =>
              if f c then
                match consPiece [c] (run re' (Some c) t) with
                | Some r => Some r
                | None => consPiece [] (run re' prev s)
                end
              else consPiece [] (run re' prev s)
          | [] => consPiece [] (run re' prev s)
          end
      | Many0 => greedy (run re') f prev s
      | Many1 =>
          match s with
          | c :: t => if f c then growPiece c (greedy (run re') f (Some c) t) else None
          | [] => None
          end
      | Many0Lazy => lazy (run re') f prev s
      end
  end.

(** A successful search: the text skipped before the match, the pieces
    of the match and the text after it. *)
Record found := { skipped : text; pieces : list text; after : text }.

Definition skipOne (c : ascii) (m : option found) : option found :=
  match m with
  | Some m' => Some {| skipped := c :: skipped m'; pieces := pieces m'; after := after m' |}
  | None => None
  end.

(** [re.exec(s)] from a position: the leftmost position where [run]
    succeeds. *)
Fixpoint exec (re : regexp) (prev : option ascii) (s : text) : option found :=
  match run re prev s with
  | Some (ps, rest) => Some {| skipped := []; pieces := ps; after := rest |}
  | None =>
      match s with
      | [] => None
      | c :: t => skipOne c (exec re (Some c) t)
      end
  end.

(** [re.test(s)] for a regular expression without the [g] flag. *)
Definition test (re : regexp) (s : text) : bool :=
  match exec re None s with Some _ => true | None => false end.

Definition matched (m : found) : text := concat (pieces m).

(** The loop [while ((m = re.exec(s)) !== null)] of a [g] regular
    expression: the successive matches, each search starting where the
    previous match ended. *)
Fixpoint execLoop (fuel : nat) (re : regexp) (prev : option ascii) (s : text)
  : list (list text) :=
  match fuel with
  | O => []
  | S fuel' =>
      match exec re prev s with
      | None => []
      | Some m =>
          pieces m
          :: execLoop fuel' re (lastOf prev (skipped m ++ matched m)) (after m)
      end
  end.

Definition matchAll (re : regexp) (s : text) : list (list text) :=
  execLoop (S (length s)) re None s.

(** [s.replace(re, by)] for a [g] regular expression; after an empty match
    the search resumes one code unit further. *)
Fixpoint replaceLoop (fuel : nat) (re : regexp) (by_ : text)
    (prev : option ascii) (s : text) : text :=
  match fuel with
  | O => s
  | S fuel' =>
      match exec re prev s with
      | None => s
      | Some m =>
          match matched m, after m with
          | [], c :: t =>
              skipped m ++ by_ ++ c :: replaceLoop fuel' re by_ (Some c) t
          | [], [] => skipped m ++ by_
          | _ :: _, rest =>
              skipped m ++ by_
              ++ replaceLoop fuel' re by_ (lastOf prev (skipped m ++ matched m)) rest
          end
      end
  end.

Definition replaceAll (re : regexp) (by_ : text) (s : text) : text :=
  replaceLoop (S (length s)) re by_ None s.

(** Character classes of the grader's literals. *)
Definition chr (c : ascii) : ascii -> bool := fun x => eqChar x c.
Definition chrI (c : ascii) : ascii -> bool := fun x => eqCharI x c.
Definition anyChar : ascii -> bool := fun _ => true.            (* [\s\S] *)
Definition notBrace : ascii -> bool :=                          (* [^{}]  *)
  fun x => negb (eqChar x "{" || eqChar x "}").
Definition notClose : ascii -> bool := fun x => negb (eqChar x "}").  (* [^}] *)
Definition notSemi : ascii -> bool := fun x => negb (eqChar x ";").   (* [^;] *)

(** A literal word, one [Once] item per code unit. *)
Definition word (s : text) : regexp := map (fun c => Cls Once (chr c)) s.
Definition wordI (s : text) : regexp := map (fun c => Cls Once (chrI c)) s.

End RegExp.
Import RegExp.

(* ===================================================================== *)
(** * CSS parsing helpers *)
(* ===================================================================== *)

(** [/\/\*[\s\S]*?\*\//g] *)
Definition commentRe : regexp :=
  [Cls Once (chr "/"); Cls Once (chr "*"); Cls Many0Lazy anyChar;
   Cls Once (chr "*"); Cls Once (chr "/")].

Definition stripCssComments (css : text) : text := replaceAll commentRe [] css.

(** [/\s+/g] *)
Definition spacesRe : regexp := [Cls Many1 isSpace].

Definition compactWs (s : text) : text :=
  trim (replaceAll spacesRe (lit " ") s).

Definition isEmptyCss (css : text) : bool :=
  let stripped := compactWs (stripCssComments css) in
  length stripped <? 10.

Definition normalizeSelector (s : text) : text :=
  trim (replaceAll spacesRe (lit " ") (toLowerCase s)).

Definition normalizeDecls (s : text) : text :=
  trim (replaceAll spacesRe (lit " ") (toLowerCase s)).

Record Rule := { selector : text; decls : text }.

(** The rule literal of [parseCssRules], with the [g] flag: group 1 is
    [[^{}]+] (piece 0), then an opening brace, group 2 is [[^}]*]
    (piece 2), then a closing brace. *)
Definition ruleRe : regexp :=
  [Cls Many1 notBrace; Cls Once (chr "{"); Cls Many0 notClose; Cls Once (chr "}")].

Definition rulesOfMatch (m : list text) : list Rule :=
  let selectorRaw := nth 0 m [] in
  let declRaw := nth 2 m [] in
  let selectorList := filter nonEmpty (map normalizeSelector (split "," selectorRaw)) in
  let decls := normalizeDecls declRaw in
  map (fun sel => {| selector := sel; decls := decls |}) selectorList.

Definition parseCssRules (cssText : text) : list Rule :=
  let css := stripCssComments cssText in
  flat_map rulesOfMatch (matchAll ruleRe css).


(* ===================================================================== *)
(** * Property predicates *)
(* ===================================================================== *)

(** The characters of the class in [escapeRegExp]. *)
Definition isSyntaxChar (c : ascii) : bool :=
  includes (lit ".*+?^${}()|[]\") [c].

(** [String(s).replace(/[.*+?^${}()|[\]\\]/g, "\\$&")]: a backslash before
    every syntax character. *)
Definition escapeRegExp (s : text) : text :=
  flat_map (fun c => if isSyntaxChar c then ["\"%char; c] else [c]) s.

(** [new RegExp(source, "i")] for the sources the grader builds: [\b],
    [\s] with or without a star, an escaped syntax character, or a
    character that needs no escape. Any other source is refused. *)
Fixpoint compileI (src : text) : option regexp :=
  match src with
  | [] => Some []
  | "\"%char :: "b"%char :: t => option_map (cons WordB) (compileI t)
  | "\"%char :: "s"%char :: "*"%char :: t =>
      option_map (cons (Cls Many0 isSpace)) (compileI t)
  | "\"%char :: "s"%char :: t =>
      option_map (cons (Cls Once isSpace)) (compileI t)
  | "\"%char :: c :: t =>
      if isSyntaxChar c
      then option_map (cons (Cls Once (chrI c))) (compileI t)
      else None
  | c :: t =>
      if isSyntaxChar c then None
      else option_map (cons (Cls Once (chrI c))) (compileI t)
  end.

Definition newRegExpI (src : text) : option regexp := compileI src.

(** The callback of [declsHasAnyProperty] and [declsHasAllProperties]:
    [new RegExp(`\\b${escapeRegExp(p)}\\s*:`, "i").test(decls)]. A source
    that does not compile would throw; [escapeRegExp] rules it out. *)
Definition hasProperty (decls p : text) : bool :=
  match newRegExpI (lit "\b" ++ escapeRegExp p ++ lit "\s*:") with
  | Some re => test re decls
  | None => false
  end.

Definition declsHasAnyProperty (decls : text) (propNames : list text) : bool :=
  existsb (hasProperty decls) propNames.

Definition declsHasAllProperties (decls : text) (propNames : list text) : bool :=
  forallb (hasProperty decls) propNames.

(** The three kinds of selector matcher, and anything else. *)
Inductive Matcher :=
| MString (s : text)
| MRegExp (re : regexp)
| MFunction (f : text -> bool)
| MOther.

Definition findMatchingRules (rules : list Rule) (selectorMatcher : Matcher)
  : list Rule :=
  match selectorMatcher with
  | MString s =>
      let target := normalizeSelector s in
      filter (fun r => eqText (selector r) target) rules
  | MRegExp re => filter (fun r => test re (selector r)) rules
  | MFunction f => filter (fun r => f (selector r)) rules
  | MOther => []
  end.

(** The options object of [ruleSatisfies], every field defaulting to the
    empty array. *)
Record Options := {
  anyProps : list text;
  allProps : list text;
  mustInclude : list text
}.

Definition noOptions : Options :=
  {| anyProps := []; allProps := []; mustInclude := [] |}.

Definition anyOf (ps : list text) : Options :=
  {| anyProps := ps; allProps := []; mustInclude := [] |}.

Definition ruleSatisfies (rules : list Rule) (selectorMatcher : Matcher)
    (o : Options) : bool :=
  let matches := findMatchingRules rules selectorMatcher in
  if length matches =? 0 then false
  else
    existsb
      (fun r =>
         let d := decls r in
         let okAll :=
           if negb (length (allProps o) =? 0)
           then declsHasAllProperties d (allProps o) else true in
         let okAny :=
           if negb (length (anyProps o) =? 0)
           then declsHasAnyProperty d (anyProps o) else true in
         let okInclude :=
           if negb (length (mustInclude o) =? 0)
           then forallb (fun needle => includes d (toLowerCase needle)) (mustInclude o)
           else true in
         okAll && okAny && okInclude)
      matches.

(** Related CSS properties accepted as alternatives. *)
Module RELATED.
Definition color : list text := [lit "color"].
Definition fontSize : list text := [lit "font-size"; lit "font"].
Definition fontFamily : list text := [lit "font-family"; lit "font"].
Definition fontWeight : list text := [lit "font-weight"; lit "font"].
Definition background : list text := [lit "background-color"; lit "background"].
Definition padding : list text :=
  [lit "padding"; lit "padding-top"; lit "padding-right";
   lit "padding-bottom"; lit "padding-left"].
Definition textDecoration : list text :=
  [lit "text-decoration"; lit "text-decoration-line";
   lit "text-decoration-style"; lit "text-decoration-thickness"].
Definition boxSizing : list text := [lit "box-sizing"].
End RELATED.

(* ===================================================================== *)
(** * Requirement scoring *)
(* ===================================================================== *)

Record Req := { label : string; ok : bool; detailIfFail : string }.

Definition req (label : string) (ok : bool) (detailIfFail : string) : Req :=
  {| label := label; ok := ok; detailIfFail := detailIfFail |}.

(** The default of [detailIfFail]: the empty string. *)
Definition noDetail : string := EmptyString.

Record Score := { okCount : nat; total : nat; fraction : Q }.

Definition ofNat (n : nat) : Q := inject_Z (Z.of_nat n).

Definition scoreFromRequirements (reqs : list Req) : Score :=
  let total := length reqs in
  let ok := length (filter (fun r => ok r) reqs) in
  if total =? 0 then {| okCount := 0; total := 0; fraction := 0%Q |}
  else {| okCount := ok; total := total; fraction := (ofNat ok / ofNat total)%Q |}.

Definition Math_round (x : Q) : Z := Qfloor (x + (1 # 2))%Q.

Definition TODO_BUCKET_MAX : Z := 80%Z.
Definition SUBMISSION_MAX : Z := 20%Z.
Definition TOTAL_MAX : Z := 100%Z.

(** 2025-09-15T23:59:00+03:00 in milliseconds since the epoch. *)
Definition DUE_EPOCH_MS : Q := inject_Z 1757969940000%Z.

Definition todoWeights : list (string * Z) :=
  [("TODO 1", 12); ("TODO 2", 14); ("TODO 3", 12); ("TODO 4", 12);
   ("TODO 5", 12); ("TODO 6", 14); ("TODO 7", 12); ("TODO 8", 12);
   ("TODO 9", 12)]%string%Z.

(** [todoWeights[id] || 0] *)
Fixpoint weightOf (table : list (string * Z)) (id : string) : Z :=
  match table with
  | [] => 0%Z
  | (k, w) :: table' => if String.eqb k id then w else weightOf table' id
  end.

(** [Object.values(todoWeights).reduce((a, b) => a + b, 0)] *)
Definition totalWeight : Z :=
  fold_left (fun a b => a + b)%Z (map snd todoWeights) 0%Z.

(** A task: the [requirements] closure reads the global [rules]. *)
Record Task := {
  id : string;
  name : string;
  requirements : list Rule -> list Req
}.

Record TaskResult := {
  tr_id : string;
  tr_name : string;
  tr_ok : nat;
  tr_total : nat;
  tr_fraction : Q;
  tr_weight : Z;
  tr_earnedWeight : Q;
  tr_reqs : list Req
}.

(* ===================================================================== *)
(** * The nine TODO checks *)
(* ===================================================================== *)

Definition dq : string := String (ascii_of_nat 34) EmptyString.

(** A label between double quotes. *)
Definition quoted (s : string) : string := (dq ++ s ++ dq)%string.

(** [findMatchingRules(rules, m).length > 0] *)
Definition hasRule (rules : list Rule) (m : Matcher) : bool :=
  0 <? length (findMatchingRules rules m).

(** [/^\.chat-container\s+\.message$/i] *)
Definition msgSelRe : regexp :=
  Bol :: wordI (lit ".chat-container") ++ Cls Many1 isSpace
      :: wordI (lit ".message") ++ [Eol].

(** [/^\.chat-container\s+\.message-time$/i] *)
Definition timeSelRe : regexp :=
  Bol :: wordI (lit ".chat-container") ++ Cls Many1 isSpace
      :: wordI (lit ".message-time") ++ [Eol].

(** [/:\s*[^;]+;?/] *)
Definition declaredRe : regexp :=
  [Cls Once (chr ":"); Cls Many0 isSpace; Cls Many1 notSemi; Cls Maybe (chr ";")].

(** [(sel) => sel.replace(/\s+/g, empty) === "p.winner"], [empty] being
    the empty string. *)
Definition isPWinner (sel : text) : bool :=
  eqText (replaceAll spacesRe [] sel) (lit "p.winner").

Section Todos.
Variable rules : list Rule.
Local Open Scope string_scope.

Definition todo1 : list Req :=
  let hasP := hasRule rules (MString (lit "p")) in
  let hasSpan := hasRule rules (MString (lit "span")) in
  [ req ("Has a " ++ quoted "p { ... }" ++ " rule") hasP "Add a p selector rule.";
    req "p rule includes a color-related property"
        (ruleSatisfies rules (MString (lit "p")) (anyOf RELATED.color))
        "Use a color property (e.g., color: ...).";
    req "p rule includes a font-size-related property"
        (ruleSatisfies rules (MString (lit "p")) (anyOf RELATED.fontSize))
        "Use font-size (or font shorthand).";
    req ("Has a " ++ quoted "span { ... }" ++ " rule") hasSpan "Add a span selector rule.";
    req "span rule includes a color-related property"
        (ruleSatisfies rules (MString (lit "span")) (anyOf RELATED.color))
        "Use a color property (e.g., color: ...).";
    req "span rule includes a font-size-related property"
        (ruleSatisfies rules (MString (lit "span")) (anyOf RELATED.fontSize))
        "Use font-size (or font shorthand)." ].

Definition todo2 : list Req :=
  [ req ("Has a " ++ quoted ".username { ... }" ++ " rule")
        (hasRule rules (MString (lit ".username"))) noDetail;
    req ".username includes a color-related property"
        (ruleSatisfies rules (MString (lit ".username")) (anyOf RELATED.color))
        "Use a color property.";
    req ".username includes a font-weight-related property"
        (ruleSatisfies rules (MString (lit ".username")) (anyOf RELATED.fontWeight))
        "Use font-weight (or font shorthand).";
    req ("Has a " ++ quoted ".blue-text { ... }" ++ " rule")
        (hasRule rules (MString (lit ".blue-text"))) noDetail;
    req ".blue-text includes a color-related property"
        (ruleSatisfies rules (MString (lit ".blue-text")) (anyOf RELATED.color))
        "Use a color property.";
    req ("Has a " ++ quoted ".red-text { ... }" ++ " rule")
        (hasRule rules (MString (lit ".red-text"))) noDetail;
    req ".red-text includes a color-related property"
        (ruleSatisfies rules (MString (lit ".red-text")) (anyOf RELATED.color))
        "Use a color property.";
    req ("Has a " ++ quoted ".highlight { ... }" ++ " rule")
        (hasRule rules (MString (lit ".highlight"))) noDetail;
    req ".highlight includes a background-related property (background or background-color)"
        (ruleSatisfies rules (MString (lit ".highlight")) (anyOf RELATED.background))
        "Use background or background-color.";
    req ".highlight includes a padding-related property (padding or padding-*)"
        (ruleSatisfies rules (MString (lit ".highlight")) (anyOf RELATED.padding))
        "Use padding or padding-*." ].

Definition todo3 : list Req :=
  [ req ("Has a " ++ quoted "#featured-user { ... }" ++ " rule")
        (hasRule rules (MString (lit "#featured-user")))
        "Add an ID selector rule.";
    req "#featured-user includes a color-related property"
        (ruleSatisfies rules (MString (lit "#featured-user")) (anyOf RELATED.color))
        "Use a color property.";
    req "#featured-user includes a font-size-related property"
        (ruleSatisfies rules (MString (lit "#featured-user")) (anyOf RELATED.fontSize))
        "Use font-size (or font shorthand)." ].

Definition todo4 : list Req :=
  let hasPWinner := ruleSatisfies rules (MFunction isPWinner) (anyOf RELATED.color) in
  [ req ("Has a " ++ quoted "p { ... }" ++ " rule with a color-related property")
        (ruleSatisfies rules (MString (lit "p")) (anyOf RELATED.color))
        "Add p { color: ... }.";
    req ("Has a " ++ quoted ".winner { ... }" ++ " rule with a color-related property")
        (ruleSatisfies rules (MString (lit ".winner")) (anyOf RELATED.color))
        "Add .winner { color: ... }.";
    req ("Has a " ++ quoted "#specificity-test { ... }" ++ " rule with a color-related property")
        (ruleSatisfies rules (MString (lit "#specificity-test")) (anyOf RELATED.color))
        "Add #specificity-test { color: ... }.";
    req ("Has a " ++ quoted "p.winner { ... }" ++ " rule with a color-related property")
        hasPWinner
        "Add p.winner { color: ... }." ].

Definition todo5 : list Req :=
  let hasImportant :=
    ruleSatisfies rules (MString (lit ".important-test"))
      {| anyProps := []; allProps := []; mustInclude := [lit "!important"] |} in
  [ req ("Has a " ++ quoted ".important-test { ... }" ++ " rule")
        (hasRule rules (MString (lit ".important-test")))
        "Add a class selector rule.";
    req (".important-test uses " ++ quoted "!important" ++ " (on any property)")
        hasImportant
        "Add !important (e.g., color: ... !important).";
    req ".important-test includes at least one declared property"
        (let matches := findMatchingRules rules (MString (lit ".important-test")) in
         existsb (fun r => test declaredRe (decls r)) matches)
        "Add at least one property declaration." ].

Definition todo6 : list Req :=
  [ req ("Has a " ++ quoted ".chat-container .message { ... }" ++ " rule")
        (hasRule rules (MRegExp msgSelRe))
        "Use a descendant selector.";
    req ".chat-container .message includes a color-related property"
        (ruleSatisfies rules (MRegExp msgSelRe) (anyOf RELATED.color))
        "Use a color property.";
    req ("Has a " ++ quoted ".chat-container .message-time { ... }" ++ " rule")
        (hasRule rules (MRegExp timeSelRe))
        "Use a descendant selector.";
    req ".chat-container .message-time includes a color-related property"
        (ruleSatisfies rules (MRegExp timeSelRe) (anyOf RELATED.color))
        "Use a color property.";
    req ".chat-container .message-time includes a font-size-related property"
        (ruleSatisfies rules (MRegExp timeSelRe) (anyOf RELATED.fontSize))
        "Use font-size (or font shorthand)." ].

Definition todo7 : list Req :=
  let sendHover := ".send-button:hover" in
  let linkHover := ".chat-link:hover" in
  [ req ("Has a " ++ quoted (sendHover ++ " { ... }") ++ " rule")
        (hasRule rules (MString (lit sendHover))) "Add :hover rule.";
    req (sendHover ++ " includes a background-related property")
        (ruleSatisfies rules (MString (lit sendHover)) (anyOf RELATED.background))
        "Use background or background-color.";
    req (sendHover ++ " includes a color-related property")
        (ruleSatisfies rules (MString (lit sendHover)) (anyOf RELATED.color))
        "Use a color property.";
    req ("Has a " ++ quoted (linkHover ++ " { ... }") ++ " rule")
        (hasRule rules (MString (lit linkHover))) "Add :hover rule.";
    req (linkHover ++ " includes a color-related property")
        (ruleSatisfies rules (MString (lit linkHover)) (anyOf RELATED.color))
        "Use a color property.";
    req (linkHover ++ " includes a text-decoration-related property")
        (ruleSatisfies rules (MString (lit linkHover)) (anyOf RELATED.textDecoration))
        "Use text-decoration (or related property)." ].

Definition todo8 : list Req :=
  let s4 := MString (lit "h4.trending-tag") in
  let s5 := MString (lit "h5.trending-tag") in
  let s6 := MString (lit "h6.trending-tag") in
  let has4 := hasRule rules s4 in
  let has5 := hasRule rules s5 in
  let has6 := hasRule rules s6 in
  let colorOk :=
    ruleSatisfies rules s4 (anyOf RELATED.color)
    || ruleSatisfies rules s5 (anyOf RELATED.color)
    || ruleSatisfies rules s6 (anyOf RELATED.color) in
  let familyOk :=
    ruleSatisfies rules s4 (anyOf RELATED.fontFamily)
    || ruleSatisfies rules s5 (anyOf RELATED.fontFamily)
    || ruleSatisfies rules s6 (anyOf RELATED.fontFamily) in
  [ req "Defines styling for h4.trending-tag, h5.trending-tag, and h6.trending-tag (grouped or separate)"
        (has4 && has5 && has6)
        "Ensure all three selectors exist (can be grouped with commas).";
    req "Trending tag styles include a color-related property (on any of the three)"
        colorOk "Use color.";
    req "Trending tag styles include a font-family-related property (or font shorthand) (on any of the three)"
        familyOk "Use font-family or font." ].

Definition todo9 : list Req :=
  [ req ("Has a " ++ quoted "* { ... }" ++ " rule")
        (hasRule rules (MString (lit "*"))) "Add the universal selector.";
    req "* rule includes box-sizing"
        (ruleSatisfies rules (MString (lit "*")) (anyOf RELATED.boxSizing))
        "Use box-sizing: ..." ].
End Todos.

Definition task1 : Task :=
  {| id := "TODO 1"; name := "Basic Element Selectors (p, span)";
     requirements := todo1 |}.

Definition task2 : Task :=
  {| id := "TODO 2";
     name := "Class Selectors (.username, .blue-text, .red-text, .highlight)";
     requirements := todo2 |}.

Definition task3 : Task :=
  {| id := "TODO 3"; name := "ID Selector (#featured-user)";
     requirements := todo3 |}.

Definition task4 : Task :=
  {| id := "TODO 4";
     name := "Specificity Battle (p, .winner, #specificity-test, p.winner)";
     requirements := todo4 |}.

Definition task5 : Task :=
  {| id := "TODO 5"; name := "!important Override (.important-test)";
     requirements := todo5 |}.

Definition task6 : Task :=
  {| id := "TODO 6";
     name := "Descendant Selectors (.chat-container .message, .chat-container .message-time)";
     requirements := todo6 |}.

Definition task7 : Task :=
  {| id := "TODO 7";
     name := "Pseudo-classes (:hover for .send-button and .chat-link)";
     requirements := todo7 |}.

Definition task8 : Task :=
  {| id := "TODO 8"; name := "Group Selectors (h4/h5/h6.trending-tag)";
     requirements := todo8 |}.

Definition task9 : Task :=
  {| id := "TODO 9"; name := "Universal Selector (*) with box-sizing";
     requirements := todo9 |}.

Definition tasks : list Task :=
  [task1; task2; task3; task4; task5; task6; task7; task8; task9].

(* ===================================================================== *)
(** * The grading run *)
(* ===================================================================== *)

(** The two [git log] commands of the script. *)
Inductive Command :=
| GitLogRecent (n : nat)   (* git log --format=%ct|%an|%ae|%cn|%ce|%s -n <n> *)
| GitLogLastTime.          (* git log -1 --format=%ct *)

(** The automation markers of [isBot]. *)
Definition botMarkers : list text :=
  [lit "[bot]"; lit "github-actions"; lit "actions@github.com";
   lit "github classroom"; lit "classroom[bot]"; lit "dependabot";
   lit "autograding"; lit "workflow"].

(** [parts[i]], or the empty string when there is no such part. *)
Definition part (i : nat) (parts : list text) : text := nth i parts [].

(** The haystack of one line of the log. *)
Definition hayOf (line : text) : text :=
  let parts := split "|" line in
  let an := part 1 parts in
  let ae := part 2 parts in
  let cn := part 3 parts in
  let ce := part 4 parts in
  let subject := join (lit "|") (skipn 5 parts) in
  toLowerCase (an ++ lit " " ++ ae ++ lit " " ++ cn ++ lit " " ++ ce
               ++ lit " " ++ subject).

Definition isBot (line : text) : bool :=
  existsb (fun marker => includes (hayOf line) marker) botMarkers.

Definition ctOf (line : text) : text := part 0 (split "|" line).

Section Grader.

(** [Number(s)] when [Number.isFinite] accepts it, [None] otherwise. *)
Variable Number : text -> option Q.

(** [execSync(cmd).toString()], [None] when the command throws. *)
Variable execSync : Command -> option text.

(** The stylesheet that was located, read by [readTextSafe]; [None]
    when [hasCss] is false. *)
Variable linkedCss : option text.

(** The task table the run grades: [tasks] in the script, kept open
    here so that the results hold for any table. *)
Variable taskTable : list Task.

(** The [for] loop over the lines of the log: the first line that is
    neither automated nor without a finite time. *)
Fixpoint firstStudentLine (lines : list text) : option Q :=
  match lines with
  | [] => None
  | line :: lines' =>
      if isBot line then firstStudentLine lines'
      else match Number (ctOf line) with
           | None => firstStudentLine lines'
           | Some seconds => Some (seconds * inject_Z 1000)%Q
           end
  end.

Definition getLatestStudentCommitEpochMs : option Q :=
  match execSync (GitLogRecent 300) with
  | None => None
  | Some raw =>
      let out := trim raw in
      if negb (nonEmpty out) then None
      else
        let lines := split (ascii_of_nat 10) out in
        match firstStudentLine lines with
        | Some ms => Some ms
        | None =>
            match execSync GitLogLastTime with
            | None => None
            | Some raw1 =>
                match Number (trim raw1) with
                | Some seconds => Some (seconds * inject_Z 1000)%Q
                | None => None
                end
            end
        end
  end.

(** [!commitMs]: [null] and zero are falsy. *)
Definition falsy (commitMs : option Q) : bool :=
  match commitMs with
  | None => true
  | Some ms => Qeq_bool ms 0%Q
  end.

Definition wasSubmittedLate : bool :=
  let commitMs := getLatestStudentCommitEpochMs in
  if falsy commitMs then false
  else match commitMs with
       | Some ms => negb (Qle_bool ms DUE_EPOCH_MS)
       | None => false
       end.

Definition hasCss : bool :=
  match linkedCss with Some _ => true | None => false end.

Definition cssCode : text :=
  match linkedCss with Some code => code | None => [] end.

Definition cssEmpty : bool := if hasCss then isEmptyCss cssCode else true.

Definition late : bool := wasSubmittedLate.

Definition status : Z :=
  if negb hasCss || cssEmpty then 2%Z
  else if late then 1%Z else 0%Z.

Definition submissionMarks : Z :=
  if (status =? 2)%Z then 0%Z else if (status =? 1)%Z then 10%Z else 20%Z.

Definition rules : list Rule :=
  if hasCss && negb cssEmpty then parseCssRules cssCode else [].

Definition placeholder : Req :=
  req "No submission / empty CSS → cannot grade TODOs" false noDetail.

Definition taskResult (t : Task) : TaskResult :=
  let reqs := if (status =? 2)%Z then [placeholder] else requirements t rules in
  let s := scoreFromRequirements reqs in
  let weight := weightOf todoWeights (id t) in
  let earnedWeight :=
    if (status =? 2)%Z then 0%Q else (inject_Z weight * fraction s)%Q in
  {| tr_id := id t; tr_name := name t; tr_ok := okCount s;
     tr_total := total s; tr_fraction := fraction s; tr_weight := weight;
     tr_earnedWeight := earnedWeight; tr_reqs := reqs |}.

Definition taskResults : list TaskResult := map taskResult taskTable.

Definition earnedWeightTotal : Q :=
  fold_left (fun sum r => (sum + tr_earnedWeight r)%Q) taskResults 0%Q.

Definition earnedTodoMarks : Z :=
  if (status =? 2)%Z then 0%Z
  else Math_round
         (inject_Z TODO_BUCKET_MAX * earnedWeightTotal / inject_Z totalWeight)%Q.

Definition totalEarned : Z :=
  Z.min (earnedTodoMarks + submissionMarks)%Z TOTAL_MAX.

End Grader.

(* ===================================================================== *)
(** * Specification-side definitions *)
(* ===================================================================== *)

(** ** What a regular expression matches

    The declarative reading of the items: [fits it prev p next] says that
    the piece [p], with [prev] before it and [next] after it, is a text
    the item accepts. *)
Definition fits (it : item) (prev : option ascii) (p next : text) : Prop :=
  match it with
  | Cls Once f => exists c, p = [c] /\ f c = true
  | Cls Maybe f => p = [] \/ exists c, p = [c] /\ f c = true
  | Cls Many0 f => forallb f p = true
  | Cls Many0Lazy f => forallb f p = true
  | Cls Many1 f => p <> [] /\ forallb f p = true
  | WordB => p = [] /\ xorb (isWordO prev) (isWordO (hd_error next)) = true
  | Bol => p = [] /\ prev = None
  | Eol => p = [] /\ next = []
  end.

(** [Matches re prev s ps rest]: [s] is the pieces [ps], one per item of
    [re] and each fitting its item, followed by [rest]. *)
Fixpoint Matches (re : regexp) (prev : option ascii) (s : text)
    (ps : list text) (rest : text) : Prop :=
  match re, ps with
  | [], [] => s = rest
  | it :: re', p :: ps' =>
      exists s', s = p ++ s' /\ fits it prev p s'
                 /\ Matches re' (lastOf prev p) s' ps' rest
  | _, _ => False
  end.

(** An item that consumes at least one code unit. *)
Definition mandatory (it : item) : bool :=
  match it with
  | Cls Once _ => true
  | Cls Many1 _ => true
  | _ => false
  end.

(** The successive matches from a position, with the fuel of [matchAll]. *)
Definition matchFrom (re : regexp) (prev : option ascii) (s : text)
  : list (list text) :=
  execLoop (S (length s)) re prev s.

Definition replaceFrom (re : regexp) (by_ : text) (prev : option ascii)
    (s : text) : text :=
  replaceLoop (S (length s)) re by_ prev s.

(** [Includes s needle]: [needle] occurs in [s]. *)
Definition Includes (s needle : text) : Prop :=
  exists pre post, s = pre ++ needle ++ post.

(** ** Normalisation in the words of the specification *)

(** Every maximal run of whitespace replaced by [by_]. *)
Fixpoint replaceRuns (by_ : text) (s : text) : text :=
  match s with
  | [] => []
  | c :: t =>
      if isSpace c then
        match t with
        | c' :: _ => if isSpace c' then replaceRuns by_ t else by_ ++ replaceRuns by_ t
        | [] => by_
        end
      else c :: replaceRuns by_ t
  end.

(** Internal whitespace collapsed to single spaces. *)
Definition collapseWs (s : text) : text := replaceRuns (lit " ") s.

(** "trim, lowercase, collapse internal whitespace to single spaces" *)
Definition specNormalize (s : text) : text :=
  collapseWs (toLowerCase (trim s)).

(** ** Blocks in the words of the specification *)

(** Text outside any block: stray braces, and text closed by a stray
    closing brace. *)
Inductive Junk : text -> Prop :=
| Junk_nil : Junk []
| Junk_brace (c : ascii) (t : text) :
    notBrace c = false -> Junk t -> Junk (c :: t)
| Junk_stray (run : text) (t : text) :
    forallb notBrace run = true -> Junk t -> Junk (run ++ "}"%char :: t).

(** What may follow the last block: text without braces, or a block that
    is opened and never closed. *)
Inductive Tail : text -> Prop :=
| Tail_text (run : text) : forallb notBrace run = true -> Tail run
| Tail_unclosed (run body : text) :
    forallb notBrace run = true -> forallb notClose body = true ->
    Tail (run ++ "{"%char :: body).

(** [Spans s l]: [l] lists, in order, the spans
    selector-text [{] declaration-text [}] of [s]; the selector text is
    not empty and has no brace, the declaration text stops at the first
    closing brace, and everything else is ignored. *)
Inductive Spans : text -> list (text * text) -> Prop :=
| Spans_end (junk tail : text) :
    Junk junk -> Tail tail -> Spans (junk ++ tail) []
| Spans_block (junk sel decl rest : text) (l : list (text * text)) :
    Junk junk -> sel <> [] ->
    forallb notBrace sel = true -> forallb notClose decl = true ->
    Spans rest l ->
    Spans (junk ++ sel ++ "{"%char :: decl ++ "}"%char :: rest) ((sel, decl) :: l).

(** The rules of one span: one per non-empty normalised selector piece,
    all with the same normalised declaration text. *)
Definition emit (b : text * text) : list Rule :=
  let sels := filter nonEmpty (map specNormalize (split "," (fst b))) in
  map (fun sel => {| selector := sel; decls := specNormalize (snd b) |}) sels.

(** The pieces of the match of a span. *)
Definition piecesOf (b : text * text) : list text :=
  [fst b; ["{"%char]; snd b; ["}"%char]].

(** The spans of a text, read off the matches. *)
Definition blocksOf (s : text) : list (text * text) :=
  map (fun m => (nth 0 m [], nth 2 m [])) (matchAll ruleRe s).

(** A stylesheet made of whitespace and comments only. *)
Inductive Blank : text -> Prop :=
| Blank_nil : Blank []
| Blank_space (c : ascii) (t : text) :
    isSpace c = true -> Blank t -> Blank (c :: t)
| Blank_comment (body t : text) :
    includes body (lit "*/") = false -> Blank t ->
    Blank (lit "/*" ++ body ++ lit "*/" ++ t).

(** ** Properties in the words of the specification *)

(** Equal up to case. *)
Definition sameI (m p : text) : Prop := toLowerCase m = toLowerCase p.

(** A word boundary between [pre] and [post]: exactly one of the last
    character of [pre] and the first of [post] is a word character. *)
Definition wordBoundary (pre post : text) : Prop :=
  isWordO (lastOf None pre) <> isWordO (hd_error post).

(** The declaration text contains the property name, at a word boundary
    and up to case, followed by optional whitespace and a colon. *)
Definition HasProperty (d p : text) : Prop :=
  exists pre m ws post,
    d = pre ++ m ++ ws ++ ":"%char :: post
    /\ sameI m p
    /\ forallb isSpace ws = true
    /\ wordBoundary pre (m ++ ws ++ ":"%char :: post).

(** The literal that [hasProperty] builds for the name [p]. *)
Definition propRe (p : text) : regexp :=
  WordB :: wordI p ++ [Cls Many0 isSpace; Cls Once (chrI ":")].

(** The pieces of a literal word: one code unit each. *)
Definition singles (m : text) : list text := map (fun c => [c]) m.

(** ** Requirements in the words of the specification *)

(** A rule matches a selector query. *)
Definition selectorMatches (q : Matcher) (r : Rule) : Prop :=
  match q with
  | MString s => selector r = normalizeSelector s
  | MRegExp re => test re (selector r) = true
  | MFunction f => f (selector r) = true
  | MOther => False
  end.

(** Every property of the all-of set is present. *)
Definition meetsAll (o : Options) (d : text) : Prop :=
  forall p, In p (allProps o) -> HasProperty d p.

(** When an any-of set is given, one of its properties is present. *)
Definition meetsAny (o : Options) (d : text) : Prop :=
  anyProps o = [] \/ exists p, In p (anyProps o) /\ HasProperty d p.

(** Every must-include text occurs, lowercased, in the declarations. *)
Definition meetsInclude (o : Options) (d : text) : Prop :=
  forall needle, In needle (mustInclude o) -> Includes d (toLowerCase needle).

(** The three checks that [ruleSatisfies] makes on one rule. *)
Definition checks (o : Options) (d : text) : bool :=
  (if negb (length (allProps o) =? 0)
   then declsHasAllProperties d (allProps o) else true)
  && (if negb (length (anyProps o) =? 0)
      then declsHasAnyProperty d (anyProps o) else true)
  && (if negb (length (mustInclude o) =? 0)
      then forallb (fun needle => includes d (toLowerCase needle)) (mustInclude o)
      else true).

(** ** Scoring in the words of the specification *)

Definition satisfiedCount (reqs : list Req) : nat :=
  fold_right (fun r n => if ok r then S n else n) 0 reqs.

Definition totalCount (reqs : list Req) : nat := length reqs.

(** [satisfiedCount / totalCount], and 0 for a task without requirement. *)
Definition specFraction (reqs : list Req) : Q :=
  match totalCount reqs with
  | O => 0%Q
  | S _ => (ofNat (satisfiedCount reqs) / ofNat (totalCount reqs))%Q
  end.

Fixpoint sumQ (l : list Q) : Q :=
  match l with
  | [] => 0%Q
  | x :: l' => (x + sumQ l')%Q
  end.

Fixpoint sumZ (l : list Z) : Z :=
  match l with
  | [] => 0%Z
  | x :: l' => (x + sumZ l')%Z
  end.

(** The sum of all configured weights. *)
Definition configuredWeights : Z := sumZ (map snd todoWeights).

(** The weight a task earns: its weight times its fraction. *)
Definition specEarned (r : TaskResult) : Q :=
  (inject_Z (tr_weight r) * specFraction (tr_reqs r))%Q.

(** The bucket: ceiling times the earned weights over the configured
    weights, rounded to the nearest integer. *)
Definition specBucket (ceiling : Z) (results : list TaskResult) : Z :=
  Math_round
    (inject_Z ceiling * sumQ (map specEarned results) / inject_Z configuredWeights)%Q.

(** The part of the weight of a task that any number of satisfied
    requirements earns is a multiple of 1/5. *)
Definition fifths (r : TaskResult) : Prop :=
  exists q, (5 * tr_weight r = Z.of_nat (totalCount (tr_reqs r)) * q)%Z.

(** The result of a task when the run is MISSING: no requirement of the
    task is evaluated. *)
Definition missingResult (t : Task) : TaskResult :=
  {| tr_id := id t; tr_name := name t; tr_ok := 0; tr_total := 1;
     tr_fraction := 0%Q; tr_weight := weightOf todoWeights (id t);
     tr_earnedWeight := 0%Q; tr_reqs := [placeholder] |}.

(** ** The commit history in the words of the specification *)



(** ** Example environments *)

(** A machine where every [git] command fails. *)
Definition noGit : Command -> option text := fun _ => None.

Fixpoint digitsValue (acc : Z) (s : text) : option Z :=
  match s with
  | [] => Some acc
  | c :: t =>
      let n := code c in
      if (48 <=? n) && (n <=? 57)
      then digitsValue (acc * 10 + Z.of_nat (n - 48)) t
      else None
  end.

(** [Number] on the strings of decimal digits that [%ct] prints. *)
Definition decimalNumber (s : text) : option Q :=
  match s with
  | [] => Some 0%Q
  | _ :: _ => option_map inject_Z (digitsValue 0 s)
  end.

(** ** The repository and the machine

    The history of the repository is the list of its commits, newest
    first. *)
Record Commit := {
  c_time : text;       (* %ct *)
  c_an : text;         (* %an *)
  c_ae : text;         (* %ae *)
  c_cn : text;         (* %cn *)
  c_ce : text;         (* %ce *)
  c_subject : text     (* %s  *)
}.

Definition newline : ascii := ascii_of_nat 10.

(** The line that [git log] prints for a commit when it is given the
    format [%ct|%an|%ae|%cn|%ce|%s]. *)
Definition logLine (c : Commit) : text :=
  c_time c ++ lit "|" ++ c_an c ++ lit "|" ++ c_ae c ++ lit "|" ++ c_cn c
  ++ lit "|" ++ c_ce c ++ lit "|" ++ c_subject c.

(** A number printed by a template literal, for integers. *)
Definition showZ (z : Z) : text :=
  list_ascii_of_string (DecimalString.NilZero.string_of_int (Z.to_int z)).

(** The command lines that the script hands to [execSync], as they are
    written in [getLatestStudentCommitEpochMs]. *)
Definition commandLine (cmd : Command) : text :=
  match cmd with
  | GitLogRecent n =>
      lit "git log --format=%ct|%an|%ae|%cn|%ce|%s -n " ++ showZ (Z.of_nat n)
  | GitLogLastTime => lit "git log -1 --format=%ct"
  end.

(** [execSync(line)] runs [sh -c line]. The command lines of the script
    hold no quote and no backslash, so every bar of a line separates two
    stages of a pipeline. *)
Definition stagesOf (line : text) : list text := split "|" line.

(** The words of a stage; the first one names the program to run. *)
Definition wordsOf (stage : text) : list text :=
  filter nonEmpty (split " " stage).

(** What [git] prints for the arguments [log -1 --format=%ct]: the time
    of the newest commit and a newline; it fails in a repository without
    commit. Of the command lines of the script, this is the only one
    whose last stage runs [git], and the only invocation described
    here. *)
Definition gitSays (history : list Commit) (args : list text) : option text :=
  match history with
  | newest :: _ =>
      if eqText (join (lit " ") args) (lit "log -1 --format=%ct")
      then Some (c_time newest ++ [newline]) else None
  | [] => None
  end.

(** [execSync] on the machine that runs the script, in a repository with
    the given history. The output and the exit status of a pipeline are
    those of its last stage; a stage whose first word is not a program
    ends with status 127; and [execSync] throws, [None] here, when the
    status is not 0. The only program is [git].

    The format of the first command line is not quoted: its last stage
    is [%s -n 300], which is no program, so that this call throws in
    every repository. *)
Definition gitLog (history : list Commit) (cmd : Command) : option text :=
  match wordsOf (last (stagesOf (commandLine cmd)) []) with
  | program :: args =>
      if eqText program (lit "git") then gitSays history args else None
  | [] => None
  end.

(** ** The lateness time in the words of the specification *)

(** The combined author, committer and subject text of a commit. *)
Definition combinedText (c : Commit) : text :=
  c_an c ++ lit " " ++ c_ae c ++ lit " " ++ c_cn c ++ lit " " ++ c_ce c
  ++ lit " " ++ c_subject c.

(** The combined text holds an automation marker, whatever the case of
    its letters. *)
Definition automatedCommit (c : Commit) : bool :=
  existsb (fun marker => includes (toLowerCase (combinedText c)) marker)
          botMarkers.

(** The time of the latest commit without automation marker among the
    300 most recent ones; the time of the most recent commit when all of
    these are automated; no time without a commit. *)
Definition claimedTime (Number : text -> option Q) (history : list Commit)
  : option Q :=
  let ms c :=
    option_map (fun seconds => (seconds * inject_Z 1000)%Q) (Number (c_time c)) in
  match find (fun c => negb (automatedCommit c)) (firstn 300 history) with
  | Some c => ms c
  | None =>
      match history with
      | newest :: _ => ms newest
      | [] => None
      end
  end.

(** ** Example submissions and histories *)

Definition scenarioA : text :=
  lit "p { color: red; font-size: 14px; } span { color: blue; font-size: 12px; }".

Definition scenarioB : text := lit ".important-test { color: blue; }".

Definition halfOfTodo4 : text :=
  lit ".winner{color:1} #specificity-test{color:1}".

Definition botCommit : Commit :=
  {| c_time := lit "1757973600"; c_an := lit "github-actions[bot]";
     c_ae := lit "41898282+github-actions[bot]@users.noreply.github.com";
     c_cn := lit "GitHub"; c_ce := lit "noreply@github.com";
     c_subject := lit "Update grade" |}.

(** One second after the deadline. *)
Definition studentCommit : Commit :=
  {| c_time := lit "1757969941"; c_an := lit "student";
     c_ae := lit "student@example.org"; c_cn := lit "student";
     c_ce := lit "student@example.org"; c_subject := lit "Finish TODO 9 | done" |}.

Definition lateHistory : list Commit := [botCommit; studentCommit].


(* ===================================================================== *)
(** * The rest of the script: identity, discovery of the stylesheet, CSV *)
(* ===================================================================== *)

(** ** Student ID *)

(** The three variables of [process.env] that [getStudentId] reads;
    [None] when a variable is not set. *)
Record Env := {
  GITHUB_REPOSITORY : option text;
  STUDENT_USERNAME : option text;
  GITHUB_ACTOR : option text
}.

(** A variable of the environment as a string: [undefined] and the empty
    string are both falsy, so an unset variable reads as the empty
    string. *)
Definition envVar (v : option text) : text :=
  match v with Some s => s | None => [] end.

(** [a || b] on strings. *)
Definition orText (a b : text) : text := if nonEmpty a then a else b.

Definition getStudentId (env : Env) : text :=
  let repoFull := orText (envVar (GITHUB_REPOSITORY env)) [] in
  let repoName :=
    if includes repoFull (lit "/") then nth 1 (split "/" repoFull) []
    else repoFull in
  let fromRepoSuffix :=
    if nonEmpty repoName && includes repoName (lit "-")
    then last (split "-" repoName) [] else [] in
  orText (envVar (STUDENT_USERNAME env))
    (orText fromRepoSuffix
       (orText (envVar (GITHUB_ACTOR env))
          (orText repoName (lit "student")))).

(** ** HTML helpers *)

(** The literal of [stripHtmlComments], with the [g] flag: the opening
    mark, a lazy run of any character, the closing mark. *)
Definition htmlCommentRe : regexp :=
  word (lit "<!--") ++ [Cls Many0Lazy anyChar] ++ word (lit "-->").

Definition stripHtmlComments (html : text) : text :=
  replaceAll htmlCommentRe [] html.

Definition dquote : ascii := ascii_of_nat 34.

Definition notGt : ascii -> bool := fun x => negb (eqChar x ">").        (* [^>] *)
Definition isQuote : ascii -> bool :=                                     (* double or single quote *)
  fun x => eqChar x dquote || eqChar x "'".
Definition notQuote : ascii -> bool := fun x => negb (isQuote x).

(** The literal of [findCssHrefs], with the [g] and [i] flags: a [link]
    tag whose [rel] is [stylesheet], followed in the same tag by an
    [href]; the only group, the value of the [href], is piece 36. *)
Definition linkRe : regexp :=
  wordI (lit "<link") ++ [WordB; Cls Many0 notGt; WordB] ++ wordI (lit "rel")
  ++ [Cls Many0 isSpace; Cls Once (chrI "="); Cls Many0 isSpace; Cls Once isQuote]
  ++ wordI (lit "stylesheet")
  ++ [Cls Once isQuote; Cls Many0 notGt; WordB] ++ wordI (lit "href")
  ++ [Cls Many0 isSpace; Cls Once (chrI "="); Cls Many0 isSpace; Cls Once isQuote;
      Cls Many1 notQuote; Cls Once isQuote; Cls Many0 notGt; Cls Once (chrI ">")].

Definition findCssHrefs (html : text) : list text :=
  let h := stripHtmlComments html in
  map (fun m => nth 36 m []) (matchAll linkRe h).

(** [s.replace(re, by)] for a regular expression without the [g] flag:
    the first match only. *)
Definition replaceFirst (re : regexp) (by_ : text) (s : text) : text :=
  match exec re None s with
  | None => s
  | Some m => skipped m ++ by_ ++ after m
  end.

(** [/^https?:\/\//i] *)
Definition remoteRe : regexp :=
  Bol :: wordI (lit "http") ++ [Cls Maybe (chrI "s")] ++ wordI (lit "://").

(** [/^\//] *)
Definition leadingSlashRe : regexp := [Bol; Cls Once (chr "/")].

Section Paths.
(** [path.dirname] *)
Variable dirname : text -> text.
(** [path.normalize(path.join(a, b))] *)
Variable joinNormalize : text -> text -> text.

Definition resolveFromIndex (ref indexPath : text) : option text :=
  let base := dirname indexPath in
  if test remoteRe ref then None
  else
    let cleaned := replaceFirst leadingSlashRe [] ref in
    Some (joinNormalize base cleaned).
End Paths.

(** ** The file system *)

(** What a path names: a file, with its text unless reading it fails, or
    a directory. *)
Inductive Node :=
| File (content : option text)
| Dir.

(** An entry of [readdirSync(".", { withFileTypes: true })]. *)
Record Dirent := { d_name : text; d_isFile : bool }.

Record FS := {
  node : text -> option Node;
  readdir : list Dirent
}.

Definition existsSync (fs : FS) (p : text) : bool :=
  match node fs p with Some _ => true | None => false end.

(** [fs.statSync(p).isFile()], called on paths that exist. *)
Definition isFileSync (fs : FS) (p : text) : bool :=
  match node fs p with Some (File _) => true | _ => false end.

(** [readTextSafe]: the empty string when reading throws. *)
Definition readTextSafe (fs : FS) (p : text) : text :=
  match node fs p with Some (File (Some code)) => code | _ => [] end.

(** [s.endsWith(suffix)] *)
Definition endsWith (s suffix : text) : bool :=
  startsWith (rev suffix) (rev s).

Definition CSS_FILE_DEFAULT : text := lit "styles.css".

Definition cssCandidates : list text :=
  [CSS_FILE_DEFAULT; lit "style.css"; lit "main.css"; lit "app.css"; lit "index.css"].

(** The test of the second loop of [guessCssFileFromRepo]. *)
Definition looksLikeCss (e : Dirent) : bool :=
  d_isFile e
  && endsWith (toLowerCase (d_name e)) (lit ".css")
  && negb (includes (toLowerCase (d_name e)) (lit "node_modules"))
  && negb (includes (toLowerCase (d_name e)) (lit "artifacts")).

Definition guessCssFileFromRepo (fs : FS) : option text :=
  match find (fun c => existsSync fs c && isFileSync fs c) cssCandidates with
  | Some c => Some c
  | None => option_map d_name (find looksLikeCss (readdir fs))
  end.

(** ** Locating the stylesheet *)

Definition indexPath : text := lit "index.html".

Section Locate.
Variable dirname : text -> text.
Variable joinNormalize : text -> text -> text.
Variable fs : FS.

Definition hasIndex : bool := existsSync fs indexPath.

Definition indexHtml : text := if hasIndex then readTextSafe fs indexPath else [].

(** The loop over the hrefs, left at the first one that resolves to an
    existing file. *)
Fixpoint firstLinked (hrefs : list text) : option text :=
  match hrefs with
  | [] => None
  | href :: hrefs' =>
      match resolveFromIndex dirname joinNormalize href indexPath with
      | Some resolved =>
          if nonEmpty resolved && existsSync fs resolved && isFileSync fs resolved
          then Some resolved else firstLinked hrefs'
      | None => firstLinked hrefs'
      end
  end.

(** [linkedCss] after the block [if (hasIndex)]. *)
Definition linkedFromIndex : option text :=
  if hasIndex then firstLinked (findCssHrefs indexHtml) else None.

(** The global [linkedCss], a path or [null]. *)
Definition linkedCssPath : option text :=
  match linkedFromIndex with
  | Some p => Some p
  | None =>
      if existsSync fs CSS_FILE_DEFAULT then Some CSS_FILE_DEFAULT
      else guessCssFileFromRepo fs
  end.

(** [hasCss] and [cssCode] together: the text the run grades, [None] when
    [hasCss] is false. This is the [linkedCss] of [Section Grader]. *)
Definition locatedCss : option text :=
  match linkedCssPath with
  | Some p =>
      if nonEmpty p && existsSync fs p then Some (readTextSafe fs p) else None
  | None => None
  end.
End Locate.

(** ** The CSV record *)

Definition csvText (studentId : text) (totalEarned status : Z) : text :=
  lit "student_username,obtained_marks,total_marks,status" ++ [newline]
  ++ studentId ++ lit "," ++ showZ totalEarned ++ lit ",100," ++ showZ status
  ++ [newline].

(** The record written to [artifacts/grade.csv] by a run. *)
Definition gradeCsv (env : Env) (Number : text -> option Q)
    (execSync : Command -> option text) (css : option text) : text :=
  csvText (getStudentId env) (totalEarned Number execSync css tasks)
    (status Number execSync css).

(** ** Definitions used to state further properties *)

(** A regular expression without assertion: what is before the position
    does not matter. *)
Definition classOnly (re : regexp) : bool :=
  forallb (fun it => match it with Cls _ _ => true | _ => false end) re.

(** A text between two marks, as the two comment literals read it. *)
Definition delimRe (opener closer : text) : regexp :=
  word opener ++ [Cls Many0Lazy anyChar] ++ word closer.

(** One list of requirements is at least as good as another: the same
    requirements, each satisfied on the right when it is on the left. *)
Definition improves (reqs reqs' : list Req) : Prop :=
  Forall2 (fun r r' => label r = label r' /\ (ok r = true -> ok r' = true))
          reqs reqs'.

(** The weight that the nine tasks earn on a list of rules. *)
Definition earnedOf (rules : list Rule) : Q :=
  sumQ (map (fun t => inject_Z (weightOf todoWeights (id t))
                      * specFraction (requirements t rules))%Q tasks).

(** A map on code units applied to the result of a match. *)
Definition mapResult (f : ascii -> ascii) (r : result) : result :=
  (map (map f) (fst r), map f (snd r)).

Definition mapFound (f : ascii -> ascii) (m : found) : found :=
  {| skipped := map f (skipped m); pieces := map (map f) (pieces m);
     after := map f (after m) |}.

(** A regular expression made of classes that do not tell a code unit
    from its image by [f]. *)
Definition respects (f : ascii -> ascii) (re : regexp) : Prop :=
  Forall (fun it => match it with
                    | Cls _ cls => forall x, cls (f x) = cls x
                    | _ => False
                    end) re.

(* ===================================================================== *)
(** * Facts about texts *)
(* ===================================================================== *)

Lemma eqChar_true (a b : ascii) : eqChar a b = true <-> a = b.
Proof. unfold eqChar. apply Ascii.eqb_eq. Qed.

Lemma eqChar_refl (a : ascii) : eqChar a a = true.
Proof. apply eqChar_true. reflexivity. Qed.

Lemma eqChar_false (a b : ascii) : eqChar a b = false <-> a <> b.
Proof. unfold eqChar. apply Ascii.eqb_neq. Qed.

Lemma eqText_true (a b : text) : eqText a b = true <-> a = b.
Proof.
  revert b. induction a as [|x a IH]; intros [|y b]; simpl; try (split; congruence).
  rewrite andb_true_iff, eqChar_true, IH. split.
  - intros [-> ->]. reflexivity.
  - intros H. injection H as -> ->. split; reflexivity.
Qed.

Lemma startsWith_spec (needle s : text) :
  startsWith needle s = true <-> exists post, s = needle ++ post.
Proof.
  revert s. induction needle as [|x n IH]; intros s; simpl.
  - split; [intros _; exists s; reflexivity | reflexivity].
  - destruct s as [|y s].
    + split; [discriminate | intros [post H]; discriminate].
    + rewrite andb_true_iff, eqChar_true, IH. split.
      * intros [-> [post ->]]. exists post. reflexivity.
      * intros [post H]. injection H as -> ->. split; [reflexivity | exists post; reflexivity].
Qed.

Lemma includes_spec (s needle : text) :
  includes s needle = true <-> Includes s needle.
Proof.
  unfold Includes. induction s as [|c s IH].
  - simpl. rewrite orb_false_r, startsWith_spec. split.
    + intros [post H]. exists [], post. exact H.
    + intros [pre [post H]]. destruct pre as [|x pre]; [|discriminate].
      exists post. exact H.
  - cbn [includes]. rewrite orb_true_iff, startsWith_spec, IH. split.
    + intros [[post H] | [pre [post H]]].
      * exists [], post. exact H.
      * exists (c :: pre), post. rewrite H. reflexivity.
    + intros [pre [post H]]. destruct pre as [|x pre].
      * left. exists post. exact H.
      * right. injection H as -> ->. exists pre, post. reflexivity.
Qed.

Lemma lastOf_nil (prev : option ascii) : lastOf prev [] = prev.
Proof. reflexivity. Qed.

Lemma lastOf_cons (prev : option ascii) (c : ascii) (p : text) :
  lastOf prev (c :: p) = lastOf (Some c) p.
Proof.
  unfold lastOf. simpl. destruct (rev p) as [|x r]; reflexivity.
Qed.

Lemma lastOf_app (prev : option ascii) (a b : text) :
  lastOf prev (a ++ b) = lastOf (lastOf prev a) b.
Proof.
  revert prev. induction a as [|c a IH]; intros prev; simpl.
  - reflexivity.
  - rewrite !lastOf_cons. apply IH.
Qed.

(** The longest prefix of a text inside a class. *)
Lemma longest_run (f : ascii -> bool) (s : text) :
  exists r s1, s = r ++ s1 /\ forallb f r = true
               /\ (s1 = [] \/ exists c t, s1 = c :: t /\ f c = false).
Proof.
  induction s as [|c s IH].
  - exists [], []. auto.
  - destruct (f c) eqn:E.
    + destruct IH as (r & s1 & -> & Hr & Hs). exists (c :: r), s1.
      simpl. rewrite E, Hr. auto.
    + exists [], (c :: s). simpl. split; [reflexivity | split; [reflexivity |]].
      right. exists c, s. auto.
Qed.

(** Two texts cut at their first character outside a class are cut at the
    same place. *)
Lemma first_outside (f : ascii -> bool) (a a' : text) (c c' : ascii)
    (b b' : text) :
  forallb f a = true -> forallb f a' = true -> f c = false -> f c' = false ->
  a ++ c :: b = a' ++ c' :: b' -> a = a' /\ c = c' /\ b = b'.
Proof.
  revert a'. induction a as [|x a IH]; intros [|y a'] Ha Ha' Hc Hc' E; simpl in *.
  - injection E as -> ->. auto.
  - injection E as -> _. apply andb_true_iff in Ha'. destruct Ha'. congruence.
  - injection E as -> _. apply andb_true_iff in Ha. destruct Ha. congruence.
  - injection E as -> E. apply andb_true_iff in Ha, Ha'.
    destruct (IH a' (proj2 Ha) (proj2 Ha') Hc Hc' E) as (-> & -> & ->). auto.
Qed.

(* ===================================================================== *)
(** * Facts about the matcher *)
(* ===================================================================== *)

Lemma consPiece_some (p : text) (r : option result) (ps : list text) (rest : text) :
  consPiece p r = Some (ps, rest) <->
  exists ps', ps = p :: ps' /\ r = Some (ps', rest).
Proof.
  destruct r as [[ps0 rest0]|]; simpl; split.
  - intros H. injection H as <- <-. eauto.
  - intros (ps' & -> & H). injection H as -> ->. reflexivity.
  - discriminate.
  - intros (ps' & _ & H). discriminate.
Qed.

Lemma consPiece_none (p : text) (r : option result) :
  consPiece p r = None <-> r = None.
Proof. destruct r as [[ps0 rest0]|]; simpl; split; congruence. Qed.

Lemma growPiece_some (c : ascii) (r : option result) (ps : list text) (rest : text) :
  growPiece c r = Some (ps, rest) <->
  exists p ps', ps = (c :: p) :: ps' /\ r = Some (p :: ps', rest).
Proof.
  destruct r as [[[|p0 ps0] rest0]|]; simpl; split; try discriminate.
  - intros (p & ps' & _ & H). discriminate.
  - intros H. injection H as <- <-. eauto.
  - intros (p & ps' & -> & H). injection H as -> -> ->. reflexivity.
  - intros (p & ps' & _ & H). discriminate.
Qed.

Section QuantifierFacts.
Variable k : option ascii -> text -> option result.
Variable f : ascii -> bool.

Lemma greedy_inv (prev : option ascii) (s : text) (ps : list text) (rest : text) :
  greedy k f prev s = Some (ps, rest) ->
  exists p s' ps', ps = p :: ps' /\ s = p ++ s' /\ forallb f p = true
                   /\ k (lastOf prev p) s' = Some (ps', rest).
Proof.
  revert prev ps rest. induction s as [|c t IH]; intros prev ps rest H.
  - simpl in H. apply consPiece_some in H as (ps' & -> & H).
    exists [], [], ps'. auto.
  - simpl in H. destruct (f c) eqn:Ec.
    + destruct (growPiece c (greedy k f (Some c) t)) as [[ps1 rest1]|] eqn:G.
      * injection H as -> ->. apply growPiece_some in G as (p & ps' & -> & G).
        apply IH in G as (p0 & s' & ps0 & E & -> & Hp & Hk).
        injection E as -> ->. exists (c :: p0), s', ps0.
        rewrite lastOf_cons. simpl. rewrite Ec, Hp. auto.
      * apply consPiece_some in H as (ps' & -> & H). exists [], (c :: t), ps'. auto.
    + apply consPiece_some in H as (ps' & -> & H). exists [], (c :: t), ps'. auto.
Qed.

Lemma lazy_inv (prev : option ascii) (s : text) (ps : list text) (rest : text) :
  lazy k f prev s = Some (ps, rest) ->
  exists p s' ps', ps = p :: ps' /\ s = p ++ s' /\ forallb f p = true
                   /\ k (lastOf prev p) s' = Some (ps', rest).
Proof.
  revert prev ps rest. induction s as [|c t IH]; intros prev ps rest H.
  - simpl in H. destruct (consPiece [] (k prev [])) as [[ps1 rest1]|] eqn:G;
      [|discriminate].
    injection H as -> ->. apply consPiece_some in G as (ps' & -> & G).
    exists [], [], ps'. auto.
  - simpl in H. destruct (consPiece [] (k prev (c :: t))) as [[ps1 rest1]|] eqn:G.
    + injection H as -> ->. apply consPiece_some in G as (ps' & -> & G).
      exists [], (c :: t), ps'. auto.
    + destruct (f c) eqn:Ec; [|discriminate].
      apply growPiece_some in H as (p & ps' & -> & H).
      apply IH in H as (p0 & s' & ps0 & E & -> & Hp & Hk).
      injection E as -> ->. exists (c :: p0), s', ps0.
      rewrite lastOf_cons. simpl. rewrite Ec, Hp. auto.
Qed.

(** A greedy star never fails where some run works. *)
Lemma greedy_complete (prev : option ascii) (p s' : text) :
  forallb f p = true -> k (lastOf prev p) s' <> None ->
  greedy k f prev (p ++ s') <> None.
Proof.
  revert prev. induction p as [|c p IH]; intros prev Hp Hk.
  - simpl. destruct s' as [|c t]; simpl.
    + rewrite consPiece_none. exact Hk.
    + destruct (f c).
      * destruct (growPiece c (greedy k f (Some c) t)); [discriminate|].
        rewrite consPiece_none. exact Hk.
      * rewrite consPiece_none. exact Hk.
  - simpl in Hp. apply andb_true_iff in Hp as [Hc Hp]. simpl. rewrite Hc.
    rewrite lastOf_cons in Hk. specialize (IH (Some c) Hp Hk).
    destruct (greedy k f (Some c) (p ++ s')) as [[ps rest]|] eqn:G; [|congruence].
    apply greedy_inv in G as (p0 & s0 & ps0 & -> & _). simpl. discriminate.
Qed.

Lemma lazy_complete (prev : option ascii) (p s' : text) :
  forallb f p = true -> k (lastOf prev p) s' <> None ->
  lazy k f prev (p ++ s') <> None.
Proof.
  revert prev. induction p as [|c p IH]; intros prev Hp Hk.
  - simpl. destruct s' as [|c t]; simpl.
    + destruct (consPiece [] (k prev [])) eqn:G; [discriminate|].
      apply consPiece_none in G. contradiction.
    + destruct (consPiece [] (k prev (c :: t))) eqn:G; [discriminate|].
      apply consPiece_none in G. contradiction.
  - simpl in Hp. apply andb_true_iff in Hp as [Hc Hp]. simpl.
    destruct (consPiece [] (k prev (c :: p ++ s'))); [discriminate|].
    rewrite Hc. rewrite lastOf_cons in Hk. specialize (IH (Some c) Hp Hk).
    destruct (lazy k f (Some c) (p ++ s')) as [[ps rest]|] eqn:G; [|congruence].
    apply lazy_inv in G as (p0 & s0 & ps0 & -> & _). simpl. discriminate.
Qed.

(** The greedy star takes the longest run when what follows accepts it. *)
Lemma greedy_longest (prev : option ascii) (p s' : text)
    (ps : list text) (rest : text) :
  forallb f p = true ->
  (s' = [] \/ exists c t, s' = c :: t /\ f c = false) ->
  k (lastOf prev p) s' = Some (ps, rest) ->
  greedy k f prev (p ++ s') = Some (p :: ps, rest).
Proof.
  revert prev. induction p as [|c p IH]; intros prev Hp Hs Hk.
  - rewrite lastOf_nil in Hk. destruct Hs as [-> | (c & t & -> & Hc)]; simpl.
    + rewrite Hk. reflexivity.
    + rewrite Hc, Hk. reflexivity.
  - simpl in Hp. apply andb_true_iff in Hp as [Hc Hp]. simpl. rewrite Hc.
    rewrite lastOf_cons in Hk. rewrite (IH (Some c) Hp Hs Hk). reflexivity.
Qed.

(** The lazy star takes the shortest run after which the rest matches. *)
Lemma lazy_shortest (prev : option ascii) (p s' : text)
    (ps : list text) (rest : text) :
  forallb f p = true ->
  (forall a b, p = a ++ b -> b <> [] -> k (lastOf prev a) (b ++ s') = None) ->
  k (lastOf prev p) s' = Some (ps, rest) ->
  lazy k f prev (p ++ s') = Some (p :: ps, rest).
Proof.
  revert prev. induction p as [|c p IH]; intros prev Hp Hno Hk.
  - rewrite lastOf_nil in Hk. destruct s' as [|c t]; simpl; rewrite Hk; reflexivity.
  - simpl in Hp. apply andb_true_iff in Hp as [Hc Hp]. simpl.
    assert (H0 : k prev (c :: p ++ s') = None)
      by (apply (Hno [] (c :: p) eq_refl); discriminate).
    rewrite H0. simpl. rewrite Hc.
    rewrite lastOf_cons in Hk. rewrite (IH (Some c) Hp); [reflexivity | | exact Hk].
    intros a b -> Hb. specialize (Hno (c :: a) b eq_refl Hb).
    rewrite lastOf_cons in Hno. exact Hno.
Qed.
End QuantifierFacts.

(** Every result of [run] is a match in the declarative sense. *)
Lemma run_sound (re : regexp) :
  forall prev s ps rest,
    run re prev s = Some (ps, rest) -> Matches re prev s ps rest.
Proof.
  induction re as [|it re IH]; intros prev s ps rest H.
  - simpl in H. injection H as <- <-. reflexivity.
  - destruct it as [q f| | |]; simpl in H.
    + destruct q.
      * (* Once *)
        destruct s as [|c t]; [discriminate|]. destruct (f c) eqn:Ec; [|discriminate].
        apply consPiece_some in H as (ps' & -> & H). apply IH in H.
        exists t. split; [reflexivity | split; [exists c; auto | exact H]].
      * (* Maybe *)
        assert (Hskip : forall ps rest, consPiece [] (run re prev s) = Some (ps, rest) ->
                          Matches (Cls Maybe f :: re) prev s ps rest).
        { intros ps0 rest0 H0. apply consPiece_some in H0 as (ps' & -> & H0).
          apply IH in H0. exists s. split; [reflexivity | split; [left; reflexivity | exact H0]]. }
        destruct s as [|c t]; [auto|]. destruct (f c) eqn:Ec; [|auto].
        destruct (consPiece [c] (run re (Some c) t)) as [[ps1 rest1]|] eqn:G; [|auto].
        injection H as -> ->. apply consPiece_some in G as (ps' & -> & G). apply IH in G.
        exists t. split; [reflexivity | split; [right; exists c; auto | exact G]].
      * (* Many0 *)
        apply greedy_inv in H as (p & s' & ps' & -> & -> & Hp & Hk). apply IH in Hk.
        exists s'. auto.
      * (* Many1 *)
        destruct s as [|c t]; [discriminate|]. destruct (f c) eqn:Ec; [|discriminate].
        apply growPiece_some in H as (p & ps' & -> & H).
        apply greedy_inv in H as (p0 & s' & ps0 & E & -> & Hp & Hk).
        injection E as -> ->. apply IH in Hk. exists s'.
        split; [reflexivity | split; [split; [discriminate | simpl; rewrite Ec, Hp; reflexivity] |]].
        rewrite lastOf_cons. exact Hk.
      * (* Many0Lazy *)
        apply lazy_inv in H as (p & s' & ps' & -> & -> & Hp & Hk). apply IH in Hk.
        exists s'. auto.
    + destruct (xorb (isWordO prev) (isWordO (hd_error s))) eqn:Ex; [|discriminate].
      apply consPiece_some in H as (ps' & -> & H). apply IH in H.
      exists s. split; [reflexivity | split; [split; [reflexivity | exact Ex] | exact H]].
    + destruct prev as [x|]; [discriminate|].
      apply consPiece_some in H as (ps' & -> & H). apply IH in H.
      exists s. split; [reflexivity | split; [split; reflexivity | exact H]].
    + destruct s as [|c t]; [|discriminate].
      apply consPiece_some in H as (ps' & -> & H). apply IH in H.
      exists []. split; [reflexivity | split; [split; reflexivity | exact H]].
Qed.

(** [run] finds a match whenever there is one. *)
Lemma run_complete (re : regexp) :
  forall prev s ps rest,
    Matches re prev s ps rest -> run re prev s <> None.
Proof.
  induction re as [|it re IH]; intros prev s ps rest H.
  - simpl. discriminate.
  - destruct ps as [|p ps]; [destruct H|].
    destruct H as (s' & -> & Hfit & Hm). apply IH in Hm.
    destruct it as [q f| | |]; simpl in Hfit.
    + destruct q.
      * destruct Hfit as (c & -> & Hc). simpl. rewrite Hc.
        rewrite lastOf_cons, lastOf_nil in Hm. rewrite consPiece_none. exact Hm.
      * assert (Hskip : forall s, run re prev s <> None ->
                          run (Cls Maybe f :: re) prev s <> None).
        { intros s Hs. simpl. destruct s as [|c t].
          - rewrite consPiece_none. exact Hs.
          - destruct (f c).
            + destruct (consPiece [c] (run re (Some c) t)); [discriminate|].
              rewrite consPiece_none. exact Hs.
            + rewrite consPiece_none. exact Hs. }
        destruct Hfit as [-> | (c & -> & Hc)].
        -- apply Hskip. exact Hm.
        -- rewrite lastOf_cons, lastOf_nil in Hm. simpl. rewrite Hc.
           destruct (consPiece [c] (run re (Some c) s')) eqn:G; [discriminate|].
           apply consPiece_none in G. contradiction.
      * simpl. apply greedy_complete; assumption.
      * destruct Hfit as [Hne Hp]. destruct p as [|c p]; [congruence|].
        simpl in Hp. apply andb_true_iff in Hp as [Hc Hp]. simpl. rewrite Hc.
        rewrite lastOf_cons in Hm.
        pose proof (greedy_complete (run re) f (Some c) p s' Hp Hm) as G.
        destruct (greedy (run re) f (Some c) (p ++ s')) as [[ps0 rest0]|] eqn:E;
          [|congruence].
        apply greedy_inv in E as (p0 & s0 & ps1 & -> & _). simpl. discriminate.
      * simpl. apply lazy_complete; assumption.
    + destruct Hfit as [-> Hx]. simpl. rewrite Hx, consPiece_none. exact Hm.
    + destruct Hfit as [-> ->]. simpl. rewrite consPiece_none. exact Hm.
    + destruct Hfit as [-> ->]. simpl. rewrite consPiece_none. exact Hm.
Qed.

Lemma Matches_concat (re : regexp) :
  forall prev s ps rest, Matches re prev s ps rest -> s = concat ps ++ rest.
Proof.
  induction re as [|it re IH]; intros prev s [|p ps] rest H; simpl in H;
    try contradiction.
  - exact H.
  - destruct H as (s' & -> & _ & H). apply IH in H. subst s'. simpl.
    rewrite app_assoc. reflexivity.
Qed.

Lemma Matches_length (re : regexp) :
  forall prev s ps rest, Matches re prev s ps rest -> length ps = length re.
Proof.
  induction re as [|it re IH]; intros prev s [|p ps] rest H; simpl in H;
    try contradiction.
  - reflexivity.
  - destruct H as (s' & _ & _ & H). simpl. f_equal. eapply IH. exact H.
Qed.

(** A regular expression with a mandatory item consumes something. *)
Lemma Matches_progress (re : regexp) :
  existsb mandatory re = true ->
  forall prev s ps rest, Matches re prev s ps rest -> concat ps <> [].
Proof.
  induction re as [|it re IH]; intros Hm prev s [|p ps] rest H; simpl in H;
    try contradiction.
  - discriminate.
  - destruct H as (s' & -> & Hfit & H). simpl in Hm. simpl.
    destruct (mandatory it) eqn:Em.
    + destruct it as [[] f| | |]; try discriminate; simpl in Hfit.
      * destruct Hfit as (c & -> & _). discriminate.
      * destruct Hfit as [Hne _]. destruct p; [congruence | discriminate].
    + simpl in Hm. specialize (IH Hm _ _ _ _ H). intros E.
      apply app_eq_nil in E. destruct E. contradiction.
Qed.

Lemma run_concat (re : regexp) (prev : option ascii) (s : text)
    (ps : list text) (rest : text) :
  run re prev s = Some (ps, rest) -> s = concat ps ++ rest.
Proof. intros H. eapply Matches_concat, run_sound, H. Qed.

Lemma run_progress (re : regexp) (prev : option ascii) (s : text)
    (ps : list text) (rest : text) :
  existsb mandatory re = true ->
  run re prev s = Some (ps, rest) -> concat ps <> [].
Proof. intros Hm H. eapply Matches_progress; [exact Hm | eapply run_sound, H]. Qed.

(** ** The search *)

Lemma exec_here (re : regexp) (prev : option ascii) (s : text)
    (ps : list text) (rest : text) :
  run re prev s = Some (ps, rest) ->
  exec re prev s = Some {| skipped := []; pieces := ps; after := rest |}.
Proof. intros H. destruct s; simpl; rewrite H; reflexivity. Qed.

Lemma exec_skip (re : regexp) (prev : option ascii) (c : ascii) (t : text) :
  run re prev (c :: t) = None ->
  exec re prev (c :: t) = skipOne c (exec re (Some c) t).
Proof. intros H. simpl. rewrite H. reflexivity. Qed.

Lemma exec_nil (re : regexp) (prev : option ascii) :
  run re prev [] = None -> exec re prev [] = None.
Proof. intros H. simpl. rewrite H. reflexivity. Qed.

(** What [exec] returns is a position where [run] succeeds. *)
Lemma exec_inv (re : regexp) :
  forall s prev m,
    exec re prev s = Some m ->
    exists mid, s = skipped m ++ mid
                /\ run re (lastOf prev (skipped m)) mid = Some (pieces m, after m).
Proof.
  induction s as [|c t IH]; intros prev m H; simpl in H.
  - destruct (run re prev []) as [[ps rest]|] eqn:R; [|discriminate].
    injection H as <-. exists []. auto.
  - destruct (run re prev (c :: t)) as [[ps rest]|] eqn:R.
    + injection H as <-. exists (c :: t). auto.
    + destruct (exec re (Some c) t) as [m'|] eqn:E; [|discriminate].
      simpl in H. injection H as <-. apply IH in E as (mid & -> & Hr).
      exists mid. simpl. rewrite lastOf_cons. auto.
Qed.

Lemma exec_none (re : regexp) :
  forall s prev,
    exec re prev s = None <->
    forall a b, s = a ++ b -> run re (lastOf prev a) b = None.
Proof.
  induction s as [|c t IH]; intros prev; simpl.
  - destruct (run re prev []) as [[ps rest]|] eqn:R; split; try discriminate.
    + intros H. specialize (H [] [] eq_refl). rewrite lastOf_nil in H. congruence.
    + intros _ a b E. symmetry in E. apply app_eq_nil in E as [-> ->]. exact R.
    + reflexivity.
  - destruct (run re prev (c :: t)) as [[ps rest]|] eqn:R; split; try discriminate.
    + intros H. specialize (H [] (c :: t) eq_refl). rewrite lastOf_nil in H. congruence.
    + intros H a b E. destruct a as [|x a].
      * simpl in E. subst b. exact R.
      * injection E as <- ->. rewrite lastOf_cons. apply (proj1 (IH (Some c))); [|reflexivity].
        destruct (exec re (Some c) (a ++ b)); [discriminate | reflexivity].
    + intros H. assert (E : exec re (Some c) t = None).
      { apply IH. intros a b ->. specialize (H (c :: a) b eq_refl).
        rewrite lastOf_cons in H. exact H. }
      rewrite E. reflexivity.
Qed.

(** [test] succeeds exactly when the text has a match somewhere. *)
Lemma test_spec (re : regexp) (s : text) :
  test re s = true <->
  exists pre mid ps rest,
    s = pre ++ mid /\ Matches re (lastOf None pre) mid ps rest.
Proof.
  unfold test. split.
  - destruct (exec re None s) as [m|] eqn:E; [|discriminate]. intros _.
    apply exec_inv in E as (mid & -> & Hr). apply run_sound in Hr.
    exists (skipped m), mid, (pieces m), (after m). auto.
  - intros (pre & mid & ps & rest & -> & Hm).
    destruct (exec re None (pre ++ mid)) as [m|] eqn:E; [reflexivity|].
    exfalso. apply run_complete in Hm. apply Hm.
    apply (proj1 (exec_none re (pre ++ mid) None) E pre mid eq_refl).
Qed.

Lemma exec_length (re : regexp) (s : text) (prev : option ascii) (m : found) :
  exec re prev s = Some m ->
  length s = length (skipped m) + length (matched m) + length (after m).
Proof.
  intros H. apply exec_inv in H as (mid & -> & Hr). apply run_concat in Hr.
  subst mid. unfold matched. rewrite !length_app. lia.
Qed.

(** ** The loops: enough fuel, and their equations *)

Lemma exec_after_shorter (re : regexp) (s : text) (prev : option ascii) (m : found) :
  existsb mandatory re = true ->
  exec re prev s = Some m -> length (after m) < length s.
Proof.
  intros Hm H. pose proof (exec_length _ _ _ _ H) as L.
  apply exec_inv in H as (mid & _ & Hr). apply (run_progress _ _ _ _ _ Hm) in Hr.
  unfold matched in L. destruct (concat (pieces m)); [congruence | simpl in L; lia].
Qed.

Lemma execLoop_fuel (re : regexp) :
  existsb mandatory re = true ->
  forall n m prev s,
    length s < n -> length s < m -> execLoop n re prev s = execLoop m re prev s.
Proof.
  intros Hm. induction n as [|n IH]; intros [|m] prev s Hn Hk; try lia.
  simpl. destruct (exec re prev s) as [m0|] eqn:E; [|reflexivity].
  f_equal. pose proof (exec_after_shorter _ _ _ _ Hm E). apply IH; lia.
Qed.

Lemma matchFrom_hit (re : regexp) (prev : option ascii) (s : text)
    (ps : list text) (rest : text) :
  existsb mandatory re = true ->
  run re prev s = Some (ps, rest) ->
  matchFrom re prev s = ps :: matchFrom re (lastOf prev (concat ps)) rest.
Proof.
  intros Hm H. unfold matchFrom.
  pose proof (exec_after_shorter _ _ _ _ Hm (exec_here _ _ _ _ _ H)) as L. simpl in L.
  rewrite (execLoop_fuel re Hm (S (length rest)) (length s)) by lia.
  cbn [execLoop]. rewrite (exec_here _ _ _ _ _ H). reflexivity.
Qed.

Lemma execLoop_S (n : nat) (re : regexp) (prev : option ascii) (s : text) :
  execLoop (S n) re prev s
  = match exec re prev s with
    | None => []
    | Some m =>
        pieces m :: execLoop n re (lastOf prev (skipped m ++ matched m)) (after m)
    end.
Proof. reflexivity. Qed.

Lemma matchFrom_skip (re : regexp) (prev : option ascii) (c : ascii) (t : text) :
  existsb mandatory re = true ->
  run re prev (c :: t) = None ->
  matchFrom re prev (c :: t) = matchFrom re (Some c) t.
Proof.
  intros Hm H. unfold matchFrom. change (length (c :: t)) with (S (length t)).
  rewrite (execLoop_S (S (length t))), (execLoop_S (length t)).
  rewrite (exec_skip _ _ _ _ H).
  destruct (exec re (Some c) t) as [m|] eqn:E; [|reflexivity].
  cbn [skipOne skipped pieces after matched]. f_equal.
  rewrite <- app_comm_cons, lastOf_cons.
  pose proof (exec_after_shorter _ _ _ _ Hm E) as L.
  apply execLoop_fuel; [exact Hm | lia | lia].
Qed.

Lemma matchFrom_nil (re : regexp) (prev : option ascii) :
  existsb mandatory re = true -> matchFrom re prev [] = [].
Proof.
  intros Hm. unfold matchFrom. simpl.
  destruct (run re prev []) as [[ps rest]|] eqn:R; [|reflexivity].
  exfalso. pose proof (run_progress _ _ _ _ _ Hm R) as P. apply run_concat in R.
  symmetry in R. apply app_eq_nil in R. destruct R. contradiction.
Qed.

Lemma replaceLoop_fuel (re : regexp) (by_ : text) :
  forall n m prev s,
    length s < n -> length s < m ->
    replaceLoop n re by_ prev s = replaceLoop m re by_ prev s.
Proof.
  induction n as [|n IH]; intros [|m] prev s Hn Hk; try lia.
  simpl. destruct (exec re prev s) as [m0|] eqn:E; [|reflexivity].
  pose proof (exec_length _ _ _ _ E) as L.
  destruct (matched m0) as [|x mt] eqn:Em; destruct (after m0) as [|c t] eqn:Ea;
    simpl in L; try reflexivity.
  - do 3 f_equal. apply IH; lia.
  - do 2 f_equal. apply IH; simpl; lia.
  - do 2 f_equal. apply IH; simpl; lia.
Qed.

Lemma replaceFrom_hit (re : regexp) (by_ : text) (prev : option ascii) (s : text)
    (ps : list text) (rest : text) :
  run re prev s = Some (ps, rest) -> concat ps <> [] ->
  replaceFrom re by_ prev s
  = by_ ++ replaceFrom re by_ (lastOf prev (concat ps)) rest.
Proof.
  intros H Hne. unfold replaceFrom.
  pose proof (exec_length _ _ _ _ (exec_here _ _ _ _ _ H)) as L.
  unfold matched in L. simpl in L.
  destruct (concat ps) as [|x mt] eqn:Ec; [congruence|]. simpl in L.
  rewrite (replaceLoop_fuel re by_ (S (length rest)) (length s)) by lia.
  cbn [replaceLoop]. rewrite (exec_here _ _ _ _ _ H).
  unfold matched. cbn [pieces skipped after]. rewrite Ec. reflexivity.
Qed.

Lemma replaceLoop_S (n : nat) (re : regexp) (by_ : text) (prev : option ascii)
    (s : text) :
  replaceLoop (S n) re by_ prev s
  = match exec re prev s with
    | None => s
    | Some m =>
        match matched m, after m with
        | [], c :: t => skipped m ++ by_ ++ c :: replaceLoop n re by_ (Some c) t
        | [], [] => skipped m ++ by_
        | _ :: _, rest =>
            skipped m ++ by_
            ++ replaceLoop n re by_ (lastOf prev (skipped m ++ matched m)) rest
        end
    end.
Proof. reflexivity. Qed.

Lemma replaceFrom_skip (re : regexp) (by_ : text) (prev : option ascii)
    (c : ascii) (t : text) :
  run re prev (c :: t) = None ->
  replaceFrom re by_ prev (c :: t) = c :: replaceFrom re by_ (Some c) t.
Proof.
  intros H. unfold replaceFrom. change (length (c :: t)) with (S (length t)).
  rewrite (replaceLoop_S (S (length t))), (replaceLoop_S (length t)).
  rewrite (exec_skip _ _ _ _ H).
  destruct (exec re (Some c) t) as [m|] eqn:E; [|reflexivity].
  pose proof (exec_length _ _ _ _ E) as L.
  unfold matched in *. cbn [skipOne skipped pieces after].
  destruct (concat (pieces m)) as [|x mt] eqn:Em; destruct (after m) as [|c' t'] eqn:Ea;
    simpl in L; try reflexivity.
  - rewrite <- !app_comm_cons. do 4 f_equal. apply replaceLoop_fuel; lia.
  - rewrite <- !app_comm_cons, lastOf_cons. do 3 f_equal.
    apply replaceLoop_fuel; simpl; lia.
  - rewrite <- !app_comm_cons, lastOf_cons. do 3 f_equal.
    apply replaceLoop_fuel; simpl; lia.
Qed.

Lemma replaceFrom_nil (re : regexp) (by_ : text) (prev : option ascii) :
  run re prev [] = None -> replaceFrom re by_ prev [] = [].
Proof. intros H. unfold replaceFrom. simpl. rewrite H. reflexivity. Qed.

Lemma matchAll_from (re : regexp) (s : text) : matchAll re s = matchFrom re None s.
Proof. reflexivity. Qed.

Lemma replaceAll_from (re : regexp) (by_ s : text) :
  replaceAll re by_ s = replaceFrom re by_ None s.
Proof. reflexivity. Qed.

(** More fuel than [matchAll] and [replaceAll] give changes nothing. *)
Lemma matchAll_fuel (re : regexp) (s : text) (n : nat) :
  existsb mandatory re = true -> length s < n ->
  execLoop n re None s = matchAll re s.
Proof. intros Hm Hn. apply execLoop_fuel; [exact Hm | exact Hn | lia]. Qed.

Lemma replaceAll_fuel (re : regexp) (by_ s : text) (n : nat) :
  length s < n -> replaceLoop n re by_ None s = replaceAll re by_ s.
Proof. intros Hn. apply replaceLoop_fuel; [exact Hn | lia]. Qed.

(* ===================================================================== *)
(** * Whitespace: [\s+], [trim] and the normalisers *)
(* ===================================================================== *)

Lemma isSpace_lowerChar (c : ascii) : isSpace (lowerChar c) = isSpace c.
Proof. destruct c as [[] [] [] [] [] [] [] []]; reflexivity. Qed.

Lemma run_spaces_none (prev : option ascii) (c : ascii) (t : text) :
  isSpace c = false -> run spacesRe prev (c :: t) = None.
Proof. intros H. simpl. rewrite H. reflexivity. Qed.

Lemma run_spaces_some (prev : option ascii) (c : ascii) (r s1 : text) :
  isSpace c = true -> forallb isSpace r = true ->
  (s1 = [] \/ exists c' t, s1 = c' :: t /\ isSpace c' = false) ->
  run spacesRe prev (c :: r ++ s1) = Some ([c :: r], s1).
Proof.
  intros Hc Hr Hs.
  change (run spacesRe prev (c :: r ++ s1))
    with (if isSpace c
          then growPiece c (greedy (run []) isSpace (Some c) (r ++ s1)) else None).
  rewrite Hc.
  rewrite (greedy_longest (run []) isSpace (Some c) r s1 [] s1 Hr Hs eq_refl).
  reflexivity.
Qed.

Lemma replaceRuns_run (by_ : text) (c : ascii) (r s1 : text) :
  isSpace c = true -> forallb isSpace r = true ->
  (s1 = [] \/ exists c' t, s1 = c' :: t /\ isSpace c' = false) ->
  replaceRuns by_ (c :: r ++ s1) = by_ ++ replaceRuns by_ s1.
Proof.
  revert c. induction r as [|x r IH]; intros c Hc Hr Hs.
  - simpl. rewrite Hc. destruct Hs as [-> | (c' & t & -> & Hc')].
    + rewrite app_nil_r. reflexivity.
    + rewrite Hc'. reflexivity.
  - simpl in Hr. apply andb_true_iff in Hr as [Hx Hr].
    change (replaceRuns by_ (c :: (x :: r) ++ s1))
      with (if isSpace c then if isSpace x then replaceRuns by_ (x :: r ++ s1)
                              else by_ ++ replaceRuns by_ (x :: r ++ s1)
            else c :: replaceRuns by_ (x :: r ++ s1)).
    rewrite Hc, Hx. apply IH; assumption.
Qed.

(** [s.replace(/\s+/g, by)] replaces each maximal run of whitespace. *)
Lemma replace_spaces (by_ : text) :
  forall s prev, replaceFrom spacesRe by_ prev s = replaceRuns by_ s.
Proof.
  intros s. remember (length s) as n eqn:Hn.
  assert (Hle : length s <= n) by lia. clear Hn. revert s Hle.
  induction n as [|n IH]; intros s Hle prev.
  - destruct s; [|simpl in Hle; lia]. apply replaceFrom_nil. reflexivity.
  - destruct s as [|c t]; [apply replaceFrom_nil; reflexivity|].
    simpl in Hle. destruct (isSpace c) eqn:Hc.
    + destruct (longest_run isSpace t) as (r & s1 & -> & Hr & Hs).
      rewrite (replaceFrom_hit spacesRe by_ prev _ [c :: r] s1
                 (run_spaces_some prev c r s1 Hc Hr Hs)) by discriminate.
      rewrite (replaceRuns_run by_ c r s1 Hc Hr Hs). f_equal.
      apply IH. rewrite length_app in Hle. lia.
    + rewrite (replaceFrom_skip spacesRe by_ prev c t (run_spaces_none prev c t Hc)).
      simpl. rewrite Hc. f_equal. apply IH. lia.
Qed.

Lemma replaceAll_spaces (by_ s : text) :
  replaceAll spacesRe by_ s = replaceRuns by_ s.
Proof. apply replace_spaces. Qed.

(** ** [trim] *)

Lemma dropWhile_app (f : ascii -> bool) (a b : text) :
  dropWhile f (a ++ b)
  = match dropWhile f a with
    | [] => dropWhile f b
    | x :: r => (x :: r) ++ b
    end.
Proof.
  induction a as [|c a IH]; simpl.
  - destruct (dropWhile f b); reflexivity.
  - destruct (f c); [exact IH | reflexivity].
Qed.

(** Trailing whitespace is removed from the right end inwards. *)
Lemma trimEnd_cons (c : ascii) (t : text) :
  trimEnd (c :: t)
  = match trimEnd t with
    | [] => if isSpace c then [] else [c]
    | x :: r => c :: x :: r
    end.
Proof.
  unfold trimEnd. simpl. rewrite dropWhile_app.
  destruct (dropWhile isSpace (rev t)) as [|x r] eqn:E.
  - simpl. destruct (isSpace c); reflexivity.
  - simpl. rewrite rev_app_distr. simpl.
    destruct (rev r ++ [x]) eqn:E2; [|reflexivity].
    apply app_eq_nil in E2. destruct E2. discriminate.
Qed.

Lemma trimEnd_nil : trimEnd [] = [].
Proof. reflexivity. Qed.

Lemma trimEnd_spaces (s : text) : forallb isSpace s = true -> trimEnd s = [].
Proof.
  induction s as [|c t IH]; intros H; [reflexivity|].
  simpl in H. apply andb_true_iff in H as [Hc Ht].
  rewrite trimEnd_cons, (IH Ht), Hc. reflexivity.
Qed.

Lemma trimStart_spaces (s : text) : forallb isSpace s = true -> trimStart s = [].
Proof.
  induction s as [|c t IH]; intros H; [reflexivity|].
  simpl in H. apply andb_true_iff in H as [Hc Ht].
  unfold trimStart in *. simpl. rewrite Hc. apply IH, Ht.
Qed.

Lemma trim_spaces (s : text) : forallb isSpace s = true -> trim s = [].
Proof. intros H. unfold trim. rewrite (trimStart_spaces s H). reflexivity. Qed.

Lemma replaceRuns_nonempty (by_ : text) (s : text) :
  by_ <> [] -> s <> [] -> replaceRuns by_ s <> [].
Proof.
  intros Hby. induction s as [|c t IH]; intros Hs; [congruence|].
  simpl. destruct (isSpace c); [|discriminate].
  destruct t as [|c' t']; [exact Hby|].
  destruct (isSpace c').
  - apply IH. discriminate.
  - intros E. apply app_eq_nil in E. destruct E. contradiction.
Qed.

Lemma trimStart_collapse (s : text) :
  trimStart (collapseWs s) = collapseWs (trimStart s).
Proof.
  unfold collapseWs, trimStart. induction s as [|c t IH]; [reflexivity|].
  simpl. destruct (isSpace c) eqn:Hc.
  - destruct t as [|c' t']; [reflexivity|].
    destruct (isSpace c') eqn:Hc'; [exact IH|].
    change (lit " " ++ replaceRuns (lit " ") (c' :: t'))
      with (" "%char :: replaceRuns (lit " ") (c' :: t')).
    simpl. rewrite ?Hc'. simpl. rewrite ?Hc'. reflexivity.
  - simpl. rewrite ?Hc. simpl. rewrite ?Hc. reflexivity.
Qed.

Lemma trimEnd_head (c : ascii) (t : text) (x : ascii) (r : text) :
  trimEnd (c :: t) = x :: r -> x = c.
Proof.
  rewrite trimEnd_cons. destruct (trimEnd t); [destruct (isSpace c)|]; congruence.
Qed.

Lemma trimEnd_collapse (s : text) :
  trimEnd (collapseWs s) = collapseWs (trimEnd s).
Proof.
  unfold collapseWs. induction s as [|c t IH]; [reflexivity|].
  rewrite (trimEnd_cons c t). destruct (isSpace c) eqn:Hc.
  - destruct t as [|c' t'].
    + simpl. rewrite Hc. reflexivity.
    + change (replaceRuns (lit " ") (c :: c' :: t'))
        with (if isSpace c then if isSpace c' then replaceRuns (lit " ") (c' :: t')
                                else lit " " ++ replaceRuns (lit " ") (c' :: t')
              else c :: replaceRuns (lit " ") (c' :: t')).
      rewrite Hc. destruct (isSpace c') eqn:Hc'.
      * rewrite IH. destruct (trimEnd (c' :: t')) as [|x r] eqn:E; [reflexivity|].
        pose proof (trimEnd_head _ _ _ _ E) as ->.
        simpl. rewrite Hc, Hc'. reflexivity.
      * change (lit " " ++ replaceRuns (lit " ") (c' :: t'))
          with (" "%char :: replaceRuns (lit " ") (c' :: t')).
        rewrite trimEnd_cons, IH.
        destruct (trimEnd (c' :: t')) as [|x r] eqn:E.
        -- rewrite trimEnd_cons in E. destruct (trimEnd t'); [|discriminate].
           rewrite Hc' in E. discriminate.
        -- pose proof (trimEnd_head _ _ _ _ E) as ->.
           destruct (replaceRuns (lit " ") (c' :: r)) as [|y q] eqn:E2.
           ++ exfalso. revert E2. apply replaceRuns_nonempty; discriminate.
           ++ rewrite <- E2. simpl. rewrite Hc, Hc'. reflexivity.
  - change (replaceRuns (lit " ") (c :: t)) with
      (if isSpace c then match t with
                         | c' :: _ => if isSpace c' then replaceRuns (lit " ") t
                                      else lit " " ++ replaceRuns (lit " ") t
                         | [] => lit " "
                         end
       else c :: replaceRuns (lit " ") t).
    rewrite Hc, trimEnd_cons, IH. destruct (trimEnd t) as [|x r] eqn:E.
    + simpl. rewrite Hc. reflexivity.
    + destruct (replaceRuns (lit " ") (x :: r)) as [|y q] eqn:E2.
      * exfalso. revert E2. apply replaceRuns_nonempty; discriminate.
      * rewrite <- E2. simpl. rewrite Hc. reflexivity.
Qed.

Lemma trim_collapse (s : text) : trim (collapseWs s) = collapseWs (trim s).
Proof. unfold trim. rewrite trimStart_collapse, trimEnd_collapse. reflexivity. Qed.

Lemma toLowerCase_dropWhile (s : text) :
  toLowerCase (dropWhile isSpace s) = dropWhile isSpace (toLowerCase s).
Proof.
  induction s as [|c t IH]; [reflexivity|]. simpl.
  rewrite isSpace_lowerChar. destruct (isSpace c); [exact IH | reflexivity].
Qed.

Lemma toLowerCase_trim (s : text) : toLowerCase (trim s) = trim (toLowerCase s).
Proof.
  unfold trim, trimEnd, trimStart, toLowerCase.
  rewrite map_rev. fold (toLowerCase (dropWhile isSpace (rev (dropWhile isSpace s)))).
  rewrite toLowerCase_dropWhile. unfold toLowerCase. rewrite map_rev.
  fold (toLowerCase (dropWhile isSpace s)). rewrite toLowerCase_dropWhile.
  reflexivity.
Qed.

(** The normalisers of the code do what the specification words say. *)
Lemma normalizeSelector_spec (s : text) : normalizeSelector s = specNormalize s.
Proof.
  unfold normalizeSelector, specNormalize. rewrite replaceAll_spaces.
  fold (collapseWs (toLowerCase s)). rewrite trim_collapse, toLowerCase_trim.
  reflexivity.
Qed.

Lemma normalizeDecls_spec (s : text) : normalizeDecls s = specNormalize s.
Proof. apply normalizeSelector_spec. Qed.

Lemma compactWs_spec (s : text) : compactWs s = collapseWs (trim s).
Proof.
  unfold compactWs. rewrite replaceAll_spaces. apply trim_collapse.
Qed.

(* ===================================================================== *)
(** * The rule literal and the comment literal *)
(* ===================================================================== *)

Lemma ruleRe_mandatory : existsb mandatory ruleRe = true.
Proof. reflexivity. Qed.

Lemma notBrace_open : notBrace "{" = false.
Proof. reflexivity. Qed.

Lemma notBrace_close : notBrace "}" = false.
Proof. reflexivity. Qed.

Lemma notBrace_notClose (c : ascii) : notBrace c = true -> notClose c = true.
Proof.
  unfold notBrace, notClose. destruct (eqChar c "}"); [|reflexivity].
  rewrite orb_true_r. discriminate.
Qed.

Lemma isSpace_notClose (c : ascii) : isSpace c = true -> notClose c = true.
Proof.
  intros H. unfold notClose. destruct (eqChar c "}") eqn:E; [|reflexivity].
  apply eqChar_true in E. subst c. discriminate.
Qed.

Lemma chr_true (c x : ascii) : chr c x = true <-> x = c.
Proof. unfold chr. apply eqChar_true. Qed.

(** A match of the rule literal is a selector text, a brace, a
    declaration text and the first closing brace. *)
Lemma run_rule_inv (prev : option ascii) (s : text) (ps : list text) (rest : text) :
  run ruleRe prev s = Some (ps, rest) ->
  exists sel decl,
    ps = [sel; ["{"%char]; decl; ["}"%char]]
    /\ s = sel ++ "{"%char :: decl ++ "}"%char :: rest
    /\ sel <> [] /\ forallb notBrace sel = true /\ forallb notClose decl = true.
Proof.
  intros H. apply run_sound in H.
  pose proof (Matches_length _ _ _ _ _ H) as L.
  destruct ps as [|sel [|o [|decl [|c [|x ps]]]]]; simpl in L; try discriminate.
  simpl in H.
  destruct H as (s1 & -> & [Hne Hsel] & s2 & -> & (o1 & -> & Ho) & s3 & ->
                 & Hdecl & s4 & -> & (c1 & -> & Hc) & ->).
  apply chr_true in Ho, Hc. subst. exists sel, decl. auto.
Qed.

Lemma run_rule_some (prev : option ascii) (sel decl rest : text) :
  sel <> [] -> forallb notBrace sel = true -> forallb notClose decl = true ->
  run ruleRe prev (sel ++ "{"%char :: decl ++ "}"%char :: rest)
  = Some ([sel; ["{"%char]; decl; ["}"%char]], rest).
Proof.
  intros Hne Hsel Hdecl. destruct sel as [|c sel]; [congruence|].
  simpl in Hsel. apply andb_true_iff in Hsel as [Hc Hsel].
  set (k2 := run [Cls Once (chr "}")]).
  set (k1 := run [Cls Once (chr "{"); Cls Many0 notClose; Cls Once (chr "}")]).
  change (run ruleRe prev ((c :: sel) ++ "{"%char :: decl ++ "}"%char :: rest))
    with (if notBrace c
          then growPiece c (greedy k1 notBrace (Some c)
                              (sel ++ "{"%char :: decl ++ "}"%char :: rest))
          else None).
  rewrite Hc.
  assert (H2 : greedy k2 notClose (Some "{"%char) (decl ++ "}"%char :: rest)
               = Some ([decl; ["}"%char]], rest)).
  { apply greedy_longest; [exact Hdecl | right; exists "}"%char, rest; auto |].
    reflexivity. }
  assert (H1 : k1 (lastOf (Some c) sel) ("{"%char :: decl ++ "}"%char :: rest)
               = Some ([["{"%char]; decl; ["}"%char]], rest)).
  { change (k1 (lastOf (Some c) sel) ("{"%char :: decl ++ "}"%char :: rest))
      with (consPiece ["{"%char]
              (greedy k2 notClose (Some "{"%char) (decl ++ "}"%char :: rest))).
    rewrite H2. reflexivity. }
  rewrite (greedy_longest k1 notBrace (Some c) sel _ _ _ Hsel
             (or_intror (ex_intro _ "{"%char (ex_intro _ _ (conj eq_refl notBrace_open))))
             H1).
  reflexivity.
Qed.

Lemma forallb_notClose_app (a : text) (b : text) :
  forallb notClose (a ++ "}"%char :: b) = false.
Proof.
  rewrite forallb_app. simpl. rewrite andb_false_r. reflexivity.
Qed.

(** No block without a closing brace. *)
Lemma run_rule_no_close (prev : option ascii) (s : text) :
  forallb notClose s = true -> run ruleRe prev s = None.
Proof.
  intros H. destruct (run ruleRe prev s) as [[ps rest]|] eqn:R; [|reflexivity].
  apply run_rule_inv in R as (sel & decl & _ & -> & _).
  rewrite forallb_forall in H. specialize (H "}"%char). cbv in H.
  exfalso. enough (true = false) by discriminate. symmetry. apply H.
  apply in_or_app. right. right. apply in_or_app. right. left. reflexivity.
Qed.

(** No block starts on a brace. *)
Lemma run_rule_brace (prev : option ascii) (c : ascii) (t : text) :
  notBrace c = false -> run ruleRe prev (c :: t) = None.
Proof. intros H. simpl. rewrite H. reflexivity. Qed.

(** No block starts in text that runs into a stray closing brace. *)
Lemma run_rule_stray (prev : option ascii) (r t : text) :
  forallb notBrace r = true -> run ruleRe prev (r ++ "}"%char :: t) = None.
Proof.
  intros Hr. destruct (run ruleRe prev (r ++ "}"%char :: t)) as [[ps rest]|] eqn:R;
    [|reflexivity].
  apply run_rule_inv in R as (sel & decl & _ & E & _ & Hsel & _).
  destruct (first_outside notBrace _ _ _ _ _ _ Hr Hsel notBrace_close notBrace_open E)
    as (_ & E2 & _).
  discriminate.
Qed.

Lemma matchFrom_no_close (s : text) :
  forallb notClose s = true -> forall prev, matchFrom ruleRe prev s = [].
Proof.
  induction s as [|c t IH]; intros H prev.
  - apply matchFrom_nil. reflexivity.
  - rewrite (matchFrom_skip ruleRe prev c t ruleRe_mandatory (run_rule_no_close prev _ H)).
    simpl in H. apply andb_true_iff in H as [_ H]. apply IH, H.
Qed.

(** The search walks over junk. *)
Lemma matchFrom_junk (j : text) :
  Junk j ->
  forall x prev, matchFrom ruleRe prev (j ++ x) = matchFrom ruleRe (lastOf prev j) x.
Proof.
  induction 1 as [|c t Hc Ht IH|r t Hr Ht IH]; intros x prev.
  - reflexivity.
  - simpl. rewrite (matchFrom_skip ruleRe prev c _ ruleRe_mandatory
                      (run_rule_brace prev c _ Hc)).
    rewrite IH, lastOf_cons. reflexivity.
  - revert prev. induction r as [|c r IHr]; intros prev.
    + simpl. rewrite (matchFrom_skip ruleRe prev _ _ ruleRe_mandatory
                        (run_rule_brace prev "}"%char _ notBrace_close)).
      rewrite IH, lastOf_cons. reflexivity.
    + simpl in Hr. apply andb_true_iff in Hr as [Hc Hr].
      rewrite <- app_assoc. simpl.
      assert (R : run ruleRe prev (c :: r ++ "}"%char :: t ++ x) = None).
      { apply (run_rule_stray prev (c :: r) (t ++ x)). simpl. rewrite Hc, Hr. reflexivity. }
      rewrite (matchFrom_skip ruleRe prev c _ ruleRe_mandatory R).
      specialize (IHr Hr (Some c)). rewrite <- app_assoc in IHr. simpl in IHr.
      rewrite IHr, lastOf_cons. reflexivity.
Qed.

Lemma matchFrom_tail (t : text) :
  Tail t -> forall prev, matchFrom ruleRe prev t = [].
Proof.
  intros [r Hr | r body Hr Hb].
  - apply matchFrom_no_close. apply forallb_forall. intros c Hc.
    apply notBrace_notClose. revert c Hc. apply forallb_forall. exact Hr.
  - induction r as [|c r IH]; intros prev.
    + simpl. rewrite (matchFrom_skip ruleRe prev _ _ ruleRe_mandatory
                        (run_rule_brace prev "{"%char _ notBrace_open)).
      apply matchFrom_no_close, Hb.
    + simpl in Hr. apply andb_true_iff in Hr as [Hc Hr]. simpl.
      assert (R : run ruleRe prev (c :: r ++ "{"%char :: body) = None).
      { destruct (run ruleRe prev (c :: r ++ "{"%char :: body)) as [[ps rest]|] eqn:R;
          [|reflexivity].
        apply run_rule_inv in R as (sel & decl & _ & E & _ & Hsel & _).
        assert (Hcr : forallb notBrace (c :: r) = true) by (simpl; rewrite Hc, Hr; reflexivity).
        destruct (first_outside notBrace (c :: r) sel _ _ _ _ Hcr Hsel
                    notBrace_open notBrace_open E) as (_ & _ & E2).
        rewrite E2, forallb_notClose_app in Hb. discriminate. }
      rewrite (matchFrom_skip ruleRe prev c _ ruleRe_mandatory R). apply IH, Hr.
Qed.

(** The matches of the rule literal are the spans of the text. *)
Lemma matchFrom_spans (s : text) (l : list (text * text)) :
  Spans s l -> forall prev, matchFrom ruleRe prev s = map piecesOf l.
Proof.
  induction 1 as [junk tail Hj Ht | junk sel decl rest l Hj Hne Hsel Hdecl Hs IH];
    intros prev.
  - rewrite (matchFrom_junk junk Hj). apply (matchFrom_tail tail Ht).
  - rewrite (matchFrom_junk junk Hj).
    rewrite (matchFrom_hit ruleRe _ _ _ _ ruleRe_mandatory
               (run_rule_some (lastOf prev junk) sel decl rest Hne Hsel Hdecl)).
    rewrite IH. reflexivity.
Qed.

Lemma Junk_app (a b : text) : Junk a -> Junk b -> Junk (a ++ b).
Proof.
  induction 1 as [|c t Hc Ht IH|r t Hr Ht IH]; intros Hb.
  - exact Hb.
  - simpl. apply Junk_brace; auto.
  - rewrite <- app_assoc. simpl. apply Junk_stray; auto.
Qed.

Lemma Spans_junk (j s : text) (l : list (text * text)) :
  Junk j -> Spans s l -> Spans (j ++ s) l.
Proof.
  intros Hj [junk tail Hjunk Ht | junk sel decl rest l' Hjunk Hne Hsel Hdecl Hs].
  - rewrite app_assoc. apply Spans_end; [apply Junk_app; assumption | exact Ht].
  - rewrite app_assoc. apply Spans_block; try assumption. apply Junk_app; assumption.
Qed.

(** Every text has its list of spans. *)
Lemma Spans_total (s : text) : exists l, Spans s l.
Proof.
  remember (length s) as n eqn:Hn.
  assert (Hle : length s <= n) by lia. clear Hn. revert s Hle.
  induction n as [|n IH]; intros s Hle.
  - destruct s; [|simpl in Hle; lia]. exists [].
    apply (Spans_end [] []); [constructor | apply Tail_text; reflexivity].
  - destruct (longest_run notBrace s) as (r & s1 & -> & Hr & Hs1).
    rewrite length_app in Hle.
    destruct Hs1 as [-> | (c & t & -> & Hc)].
    + exists []. rewrite app_nil_r. apply (Spans_end [] r); [constructor | apply Tail_text, Hr].
    + simpl in Hle. unfold notBrace in Hc. apply negb_false_iff in Hc.
      apply orb_true_iff in Hc as [Hc | Hc]; apply eqChar_true in Hc; subst c.
      * (* an opening brace *)
        destruct r as [|x r].
        -- destruct (IH t ltac:(simpl in Hle; lia)) as (l & Hl). exists l.
           apply (Spans_junk ["{"%char] t l); [|exact Hl].
           apply Junk_brace; [reflexivity | constructor].
        -- destruct (longest_run notClose t) as (d & s3 & -> & Hd & Hs3).
           rewrite length_app in Hle.
           destruct Hs3 as [-> | (c & t' & -> & Hc)].
           ++ exists []. rewrite app_nil_r.
              apply (Spans_end [] ((x :: r) ++ "{"%char :: d)); [constructor|].
              apply Tail_unclosed; assumption.
           ++ unfold notClose in Hc. apply negb_false_iff, eqChar_true in Hc. subst c.
              destruct (IH t' ltac:(simpl in Hle; lia)) as (l & Hl).
              exists ((x :: r, d) :: l).
              apply (Spans_block [] (x :: r) d t' l); try assumption;
                [constructor | discriminate].
      * (* a closing brace *)
        destruct (IH t ltac:(lia)) as (l & Hl). exists l.
        change (r ++ "}"%char :: t) with (r ++ "}"%char :: [] ++ t).
        replace (r ++ "}"%char :: [] ++ t) with ((r ++ ["}"%char]) ++ t)
          by (rewrite <- app_assoc; reflexivity).
        apply Spans_junk; [|exact Hl]. apply Junk_stray; [exact Hr | constructor].
Qed.

Lemma Spans_unique (s : text) (l : list (text * text)) :
  Spans s l -> l = blocksOf s.
Proof.
  intros H. unfold blocksOf. rewrite matchAll_from, (matchFrom_spans s l H None).
  rewrite map_map. simpl. symmetry. rewrite <- (map_id l) at 2.
  apply map_ext. intros [a b]. reflexivity.
Qed.

Lemma Spans_blocksOf (s : text) : Spans s (blocksOf s).
Proof.
  destruct (Spans_total s) as (l & Hl). rewrite <- (Spans_unique s l Hl). exact Hl.
Qed.

Lemma rulesOfMatch_emit (b : text * text) : rulesOfMatch (piecesOf b) = emit b.
Proof.
  destruct b as [sel decl]. unfold rulesOfMatch, emit, piecesOf. simpl.
  rewrite normalizeDecls_spec.
  rewrite (map_ext normalizeSelector specNormalize normalizeSelector_spec).
  reflexivity.
Qed.

Lemma parseCssRules_blocks (cssText : text) :
  parseCssRules cssText = flat_map emit (blocksOf (stripCssComments cssText)).
Proof.
  unfold parseCssRules.
  rewrite matchAll_from,
    (matchFrom_spans _ _ (Spans_blocksOf (stripCssComments cssText)) None).
  induction (blocksOf (stripCssComments cssText)) as [|b l IH]; [reflexivity|].
  simpl map. cbn [flat_map]. rewrite rulesOfMatch_emit, IH. reflexivity.
Qed.

(** ** Comments *)

(** A comment whose body has no closing marker is matched whole. *)
Lemma run_comment_some (prev : option ascii) (body t : text) :
  includes body (lit "*/") = false ->
  run commentRe prev (lit "/*" ++ body ++ lit "*/" ++ t)
  = Some ([["/"%char]; ["*"%char]; body; ["*"%char]; ["/"%char]], t).
Proof.
  intros Hb.
  set (k := run [Cls Once (chr "*"); Cls Once (chr "/")]).
  change (run commentRe prev (lit "/*" ++ body ++ lit "*/" ++ t))
    with (consPiece ["/"%char]
            (consPiece ["*"%char]
               (lazy k anyChar (Some "*"%char) (body ++ lit "*/" ++ t)))).
  rewrite (lazy_shortest k anyChar (Some "*"%char) body (lit "*/" ++ t)
             [["*"%char]; ["/"%char]] t).
  - reflexivity.
  - apply forallb_forall. reflexivity.
  - intros a b -> Hne. destruct b as [|c b]; [congruence|].
    destruct (eqChar c "*") eqn:Ec.
    + apply eqChar_true in Ec. subst c. destruct b as [|d b]; [reflexivity|].
      destruct (eqChar d "/") eqn:Ed.
      * apply eqChar_true in Ed. subst d. exfalso.
        assert (Hin : includes (a ++ "*"%char :: "/"%char :: b) (lit "*/") = true).
        { apply includes_spec. exists a, b. reflexivity. }
        congruence.
      * unfold k, chr. simpl. rewrite Ed. reflexivity.
    + unfold k, chr. simpl. rewrite Ec. reflexivity.
  - reflexivity.
Qed.

Lemma run_comment_space (prev : option ascii) (c : ascii) (t : text) :
  isSpace c = true -> run commentRe prev (c :: t) = None.
Proof.
  intros H. unfold commentRe, chr. simpl. destruct (eqChar c "/") eqn:E; [|reflexivity].
  apply eqChar_true in E. subst c. discriminate.
Qed.

(** Stripping the comments of a blank stylesheet leaves whitespace. *)
Lemma strip_blank (s : text) :
  Blank s -> forall prev, forallb isSpace (replaceFrom commentRe [] prev s) = true.
Proof.
  induction 1 as [|c t Hc Ht IH|body t Hb Ht IH]; intros prev.
  - rewrite replaceFrom_nil; reflexivity.
  - rewrite (replaceFrom_skip commentRe [] prev c t (run_comment_space prev c t Hc)).
    simpl. rewrite Hc. apply IH.
  - rewrite (replaceFrom_hit commentRe [] prev _ _ _ (run_comment_some prev body t Hb))
      by discriminate.
    apply IH.
Qed.

Lemma stripCssComments_blank (s : text) :
  Blank s -> forallb isSpace (stripCssComments s) = true.
Proof. intros H. apply (strip_blank s H None). Qed.

Lemma parseCssRules_blank (s : text) : Blank s -> parseCssRules s = [].
Proof.
  intros H. unfold parseCssRules. rewrite matchAll_from, matchFrom_no_close.
  - reflexivity.
  - apply forallb_forall. intros c Hc. apply isSpace_notClose.
    revert c Hc. apply forallb_forall. apply stripCssComments_blank, H.
Qed.

Lemma isEmptyCss_blank (s : text) : Blank s -> isEmptyCss s = true.
Proof.
  intros H. unfold isEmptyCss. rewrite compactWs_spec.
  rewrite (trim_spaces _ (stripCssComments_blank s H)). reflexivity.
Qed.

(* ===================================================================== *)
(** * The property literal *)
(* ===================================================================== *)

Lemma compileI_plain (c : ascii) (t : text) :
  isSyntaxChar c = false ->
  compileI (c :: t) = option_map (cons (Cls Once (chrI c))) (compileI t).
Proof.
  intros H.
  destruct c as [[] [] [] [] [] [] [] []];
    first [reflexivity | vm_compute in H; discriminate H].
Qed.

Lemma compileI_escaped (c : ascii) (t : text) :
  isSyntaxChar c = true ->
  compileI ("\"%char :: c :: t) = option_map (cons (Cls Once (chrI c))) (compileI t).
Proof.
  intros H.
  destruct c as [[] [] [] [] [] [] [] []];
    first [reflexivity | vm_compute in H; discriminate H].
Qed.

Lemma compileI_escapeRegExp (p : text) :
  compileI (escapeRegExp p ++ lit "\s*:")
  = Some (wordI p ++ [Cls Many0 isSpace; Cls Once (chrI ":")]).
Proof.
  induction p as [|c p IH]; [reflexivity|].
  unfold escapeRegExp. cbn [flat_map]. fold (escapeRegExp p).
  destruct (isSyntaxChar c) eqn:E.
  - cbn [app]. rewrite (compileI_escaped c _ E), IH. reflexivity.
  - cbn [app]. rewrite (compileI_plain c _ E), IH. reflexivity.
Qed.

(** [escapeRegExp] makes every property name a literal word: the source
    always compiles, to [propRe]. *)
Lemma newRegExpI_prop (p : text) :
  newRegExpI (lit "\b" ++ escapeRegExp p ++ lit "\s*:") = Some (propRe p).
Proof.
  unfold newRegExpI.
  change (compileI (lit "\b" ++ escapeRegExp p ++ lit "\s*:"))
    with (option_map (cons WordB) (compileI (escapeRegExp p ++ lit "\s*:"))).
  rewrite compileI_escapeRegExp. reflexivity.
Qed.

Lemma hasProperty_test (d p : text) : hasProperty d p = test (propRe p) d.
Proof. unfold hasProperty. rewrite newRegExpI_prop. reflexivity. Qed.

Lemma lower_canon (c : ascii) : lowerChar (canon c) = lowerChar c.
Proof. destruct c as [[] [] [] [] [] [] [] []]; reflexivity. Qed.

Lemma canon_lower (c : ascii) : canon (lowerChar c) = canon c.
Proof. destruct c as [[] [] [] [] [] [] [] []]; reflexivity. Qed.

(** The [i] flag compares up to case. *)
Lemma eqCharI_true (x y : ascii) : eqCharI x y = true <-> lowerChar x = lowerChar y.
Proof.
  unfold eqCharI. rewrite Ascii.eqb_eq. split; intros H.
  - rewrite <- (lower_canon x), <- (lower_canon y), H. reflexivity.
  - rewrite <- (canon_lower x), <- (canon_lower y), H. reflexivity.
Qed.

Lemma chrI_colon (x : ascii) : chrI ":" x = true <-> x = ":"%char.
Proof.
  unfold chrI. rewrite eqCharI_true. split; [|intros ->; reflexivity].
  destruct x as [[] [] [] [] [] [] [] []]; intros H; first [reflexivity | discriminate H].
Qed.

Lemma concat_singles (m : text) : concat (singles m) = m.
Proof. induction m as [|c m IH]; simpl; [|rewrite IH]; reflexivity. Qed.

(** A literal word under the [i] flag matches the texts equal to it up
    to case. *)
Lemma Matches_wordI_inv (p : text) (re : regexp) :
  forall prev s ps rest,
    Matches (wordI p ++ re) prev s ps rest ->
    exists m ps' s',
      ps = singles m ++ ps' /\ s = m ++ s' /\ sameI m p
      /\ Matches re (lastOf prev m) s' ps' rest.
Proof.
  induction p as [|y p IH]; intros prev s ps rest H.
  - exists [], ps, s. repeat split; auto.
  - destruct ps as [|q ps]; [destruct H|].
    destruct H as (s' & -> & (c & -> & Hc) & H).
    apply IH in H as (m & ps' & s'' & -> & -> & Hm & H).
    exists (c :: m), ps', s''. rewrite lastOf_cons. repeat split; auto.
    unfold sameI in *. simpl. apply eqCharI_true in Hc. rewrite Hc, Hm. reflexivity.
Qed.

Lemma Matches_wordI (p : text) (re : regexp) :
  forall m prev s' ps' rest,
    sameI m p -> Matches re (lastOf prev m) s' ps' rest ->
    Matches (wordI p ++ re) prev (m ++ s') (singles m ++ ps') rest.
Proof.
  induction p as [|y p IH]; intros m prev s' ps' rest Hm H.
  - destruct m; [exact H | discriminate Hm].
  - destruct m as [|c m]; [discriminate Hm|].
    unfold sameI in Hm. simpl in Hm. injection Hm as Hc Hm.
    exists (m ++ s'). split; [reflexivity | split].
    + exists c. split; [reflexivity | apply eqCharI_true, Hc].
    + apply IH; [exact Hm|]. rewrite lastOf_cons in H. exact H.
Qed.

Lemma xorb_true_neq (a b : bool) : xorb a b = true <-> a <> b.
Proof. destruct a, b; simpl; split; congruence. Qed.

(** The test on a declaration text is the property of the specification. *)
Lemma hasProperty_spec (d p : text) : hasProperty d p = true <-> HasProperty d p.
Proof.
  rewrite hasProperty_test, test_spec. unfold propRe, HasProperty. split.
  - intros (pre & mid & ps & rest & -> & H).
    destruct ps as [|q ps]; [destruct H|].
    destruct H as (s' & -> & [-> Hx] & H). simpl in Hx.
    apply Matches_wordI_inv in H as (m & ps' & s'' & -> & -> & Hm & H).
    destruct ps' as [|ws [|c [|? ?]]]; simpl in H; try contradiction;
      try (destruct H as (? & _ & _ & H); contradiction).
    + destruct H as (s1 & -> & Hws & s2 & -> & (c1 & -> & Hc) & ->).
      apply chrI_colon in Hc. subst c1.
      exists pre, m, ws, rest. repeat split; auto.
      apply xorb_true_neq. exact Hx.
    + destruct H as (? & _ & _ & ? & _ & _ & H). contradiction.
  - intros (pre & m & ws & post & -> & Hm & Hws & Hb).
    exists pre, (m ++ ws ++ ":"%char :: post),
      ([] :: singles m ++ [ws; [":"%char]]), post.
    split; [reflexivity|].
    exists (m ++ ws ++ ":"%char :: post). split; [reflexivity | split].
    + split; [reflexivity | apply xorb_true_neq, Hb].
    + apply Matches_wordI; [exact Hm|].
      exists (":"%char :: post). split; [reflexivity | split; [exact Hws|]].
      exists post. split; [reflexivity | split; [|reflexivity]].
      exists ":"%char. split; reflexivity.
Qed.

(* ===================================================================== *)
(** * Selector queries and requirements *)
(* ===================================================================== *)

Lemma findMatchingRules_In (rules : list Rule) (q : Matcher) (r : Rule) :
  In r (findMatchingRules rules q) <-> In r rules /\ selectorMatches q r.
Proof.
  destruct q as [s|re|f|]; simpl.
  - rewrite filter_In, eqText_true. reflexivity.
  - rewrite filter_In. reflexivity.
  - rewrite filter_In. reflexivity.
  - tauto.
Qed.

Lemma declsHasAllProperties_spec (d : text) (ps : list text) :
  declsHasAllProperties d ps = true <-> forall p, In p ps -> HasProperty d p.
Proof.
  unfold declsHasAllProperties. rewrite forallb_forall. split; intros H p Hp.
  - apply hasProperty_spec, H, Hp.
  - apply hasProperty_spec, H, Hp.
Qed.

Lemma declsHasAnyProperty_spec (d : text) (ps : list text) :
  declsHasAnyProperty d ps = true <-> exists p, In p ps /\ HasProperty d p.
Proof.
  unfold declsHasAnyProperty. rewrite existsb_exists. split.
  - intros (p & Hp & H). exists p. split; [exact Hp | apply hasProperty_spec, H].
  - intros (p & Hp & H). exists p. split; [exact Hp | apply hasProperty_spec, H].
Qed.

Lemma length_zero_nil {A : Type} (l : list A) : (length l =? 0) = true <-> l = [].
Proof. destruct l; simpl; split; congruence. Qed.

Lemma guarded_check {A : Type} (l : list A) (b : bool) :
  (if negb (length l =? 0) then b else true) = true <-> l = [] \/ b = true.
Proof.
  destruct l as [|a l]; simpl.
  - split; auto.
  - split; [auto | intros [H | H]; [discriminate | exact H]].
Qed.

Lemma checks_spec (o : Options) (d : text) :
  checks o d = true <-> meetsAll o d /\ meetsAny o d /\ meetsInclude o d.
Proof.
  unfold checks, meetsAll, meetsAny, meetsInclude.
  rewrite !andb_true_iff, <- and_assoc, !guarded_check.
  rewrite declsHasAllProperties_spec, declsHasAnyProperty_spec, forallb_forall.
  split.
  - intros [[HA HB] HC]. repeat split.
    + destruct HA as [-> | HA]; [intros p [] | exact HA].
    + exact HB.
    + destruct HC as [-> | HC]; [intros p [] |].
      intros n Hn. apply includes_spec, HC, Hn.
  - intros [[HA HB] HC]. repeat split.
    + right. exact HA.
    + exact HB.
    + right. intros n Hn. apply includes_spec, HC, Hn.
Qed.

Lemma ruleSatisfies_existsb (rules : list Rule) (q : Matcher) (o : Options) :
  ruleSatisfies rules q o
  = existsb (fun r => checks o (decls r)) (findMatchingRules rules q).
Proof.
  unfold ruleSatisfies.
  destruct (length (findMatchingRules rules q) =? 0) eqn:E; [|reflexivity].
  apply length_zero_nil in E. rewrite E. reflexivity.
Qed.

(* ===================================================================== *)
(** * Claims on properties and requirements *)
(* ===================================================================== *)

(** C2. A declaration text has a property exactly when it contains the
    property name, up to case and at a word boundary, followed by
    optional whitespace and a colon. So [border-color: red;] satisfies an
    any-of ["color"] requirement and [colorful-border: red] does not. *)
Theorem C2_property_word_match :
  (forall d p, hasProperty d p = true <-> HasProperty d p)
  /\ (forall d ps, declsHasAnyProperty d ps = true
                   <-> exists p, In p ps /\ HasProperty d p)
  /\ (forall d ps, declsHasAllProperties d ps = true
                   <-> forall p, In p ps -> HasProperty d p)
  /\ declsHasAnyProperty (lit "border-color: red;") [lit "color"] = true
  /\ declsHasAnyProperty (lit "colorful-border: red") [lit "color"] = false
  /\ (forall sel,
        ruleSatisfies [{| selector := sel; decls := lit "border-color: red;" |}]
          (MFunction (fun _ => true)) (anyOf [lit "color"]) = true
        /\ ruleSatisfies [{| selector := sel; decls := lit "colorful-border: red" |}]
             (MFunction (fun _ => true)) (anyOf [lit "color"]) = false).
Proof.
  split; [exact hasProperty_spec|].
  split; [exact declsHasAnyProperty_spec|].
  split; [exact declsHasAllProperties_spec|].
  split; [vm_compute; reflexivity|].
  split; [vm_compute; reflexivity|].
  intros sel. split; vm_compute; reflexivity.
Qed.

(** C5. [ruleSatisfies] is true exactly when some rule that matches the
    selector query meets the all-of, the any-of and the must-include
    conditions together; with no matching rule it is false whatever the
    requirement. *)
Theorem C5_ruleSatisfies_iff (rules : list Rule) (q : Matcher) (o : Options) :
  (ruleSatisfies rules q o = true <->
   exists r, In r rules /\ selectorMatches q r
             /\ meetsAll o (decls r) /\ meetsAny o (decls r)
             /\ meetsInclude o (decls r))
  /\ ((forall r, In r rules -> ~ selectorMatches q r) ->
      ruleSatisfies rules q o = false).
Proof.
  assert (H : ruleSatisfies rules q o = true <->
              exists r, In r rules /\ selectorMatches q r
                        /\ meetsAll o (decls r) /\ meetsAny o (decls r)
                        /\ meetsInclude o (decls r)).
  { rewrite ruleSatisfies_existsb, existsb_exists. split.
    - intros (r & Hr & Hc). apply findMatchingRules_In in Hr as [Hin Hm].
      apply checks_spec in Hc. exists r. tauto.
    - intros (r & Hin & Hm & Hc). exists r. split.
      + apply findMatchingRules_In. tauto.
      + apply checks_spec. exact Hc. }
  split; [exact H|].
  intros Hno. destruct (ruleSatisfies rules q o); [|reflexivity].
  destruct (proj1 H eq_refl) as (r & Hin & Hm & _). exfalso. exact (Hno r Hin Hm).
Qed.

Lemma C5_witness :
  (forall r, In r [{| selector := lit "p"; decls := lit "color: red" |}] ->
             ~ selectorMatches (MString (lit "span")) r)
  /\ ruleSatisfies [{| selector := lit "p"; decls := lit "color: red" |}]
       (MString (lit "span")) (anyOf [lit "color"]) = false.
Proof.
  assert (Hno : forall r, In r [{| selector := lit "p"; decls := lit "color: red" |}] ->
                          ~ selectorMatches (MString (lit "span")) r).
  { intros r [<- | []]. vm_compute. discriminate. }
  split; [exact Hno|].
  exact (proj2 (C5_ruleSatisfies_iff
                  [{| selector := lit "p"; decls := lit "color: red" |}]
                  (MString (lit "span")) (anyOf [lit "color"])) Hno).
Defined.

(* ===================================================================== *)
(** * Claims on the extractor *)
(* ===================================================================== *)

Lemma split_cons (sep : ascii) (s : text) : exists p ps, split sep s = p :: ps.
Proof.
  destruct s as [|c t]; simpl; [eauto|].
  destruct (eqChar c sep); [eauto|]. destruct (split sep t); eauto.
Qed.

(** [split] cuts at every separator and nowhere else. *)
Lemma split_join (sep : ascii) (s : text) : join [sep] (split sep s) = s.
Proof.
  induction s as [|c t IH]; [reflexivity|].
  simpl. destruct (split_cons sep t) as (p & ps & Es). rewrite Es in *.
  destruct (eqChar c sep) eqn:E.
  - apply eqChar_true in E. subst c.
    change (join [sep] ([] :: p :: ps)) with (sep :: join [sep] (p :: ps)).
    rewrite IH. reflexivity.
  - destruct ps as [|q ps]; simpl in *; rewrite <- IH; reflexivity.
Qed.

Lemma split_no_sep (sep : ascii) (s : text) :
  Forall (fun p => forallb (fun c => negb (eqChar c sep)) p = true) (split sep s).
Proof.
  induction s as [|c t IH]; simpl.
  - constructor; [reflexivity | constructor].
  - destruct (eqChar c sep) eqn:E.
    + constructor; [reflexivity | exact IH].
    + destruct (split sep t) as [|p ps]; [repeat constructor; simpl; rewrite E; reflexivity|].
      inversion IH as [|? ? Hp Hps]; subst. constructor; [|exact Hps].
      simpl. rewrite E, Hp. reflexivity.
Qed.

(** C4. The extractor finds the spans selector-text [{] declaration-text
    [}] of the comment-free text, the first closing brace after an opening
    one closing the block; each span gives one rule per non-empty
    normalised piece of its selector text split on commas, all with the
    same normalised declaration text; text outside the spans, stray braces
    included, is ignored, and a stylesheet of whitespace and comments only
    gives no rule. *)
Theorem C4_parseCssRules_spans (cssText : text) :
  exists blocks,
    Spans (stripCssComments cssText) blocks
    /\ (forall blocks', Spans (stripCssComments cssText) blocks' -> blocks' = blocks)
    /\ parseCssRules cssText = flat_map emit blocks
    /\ (Blank cssText -> parseCssRules cssText = []).
Proof.
  exists (blocksOf (stripCssComments cssText)).
  split; [apply Spans_blocksOf|].
  split; [intros b Hb; apply Spans_unique, Hb|].
  split; [apply parseCssRules_blocks | apply parseCssRules_blank].
Qed.

Lemma C4_witness :
  Blank (lit " /* a { b } */ ")
  /\ exists blocks,
       Spans (stripCssComments (lit " /* a { b } */ ")) blocks
       /\ parseCssRules (lit " /* a { b } */ ") = [].
Proof.
  assert (HB : Blank (lit " /* a { b } */ ")).
  { apply Blank_space; [reflexivity|].
    apply (Blank_comment (lit " a { b } ") (lit " ")); [reflexivity|].
    apply Blank_space; [reflexivity | constructor]. }
  split; [exact HB|].
  destruct (C4_parseCssRules_spans (lit " /* a { b } */ ")) as (blocks & Hs & _ & _ & He).
  exists blocks. split; [exact Hs | exact (He HB)].
Defined.

(** C9. Every rule the extractor produces has a non-empty selector; its
    declarations may be empty. *)
Theorem C9_selector_never_empty :
  (forall cssText, Forall (fun r => selector r <> []) (parseCssRules cssText))
  /\ (exists cssText r, In r (parseCssRules cssText) /\ decls r = []).
Proof.
  split.
  - intros cssText. unfold parseCssRules. apply Forall_forall. intros r Hr.
    apply in_flat_map in Hr as (m & _ & Hr). unfold rulesOfMatch in Hr.
    apply in_map_iff in Hr as (sel & <- & Hsel). apply filter_In in Hsel as [_ Hne].
    simpl. destruct sel; [discriminate | discriminate].
  - exists (lit "a{}"), {| selector := lit "a"; decls := [] |}.
    split; [vm_compute; left; reflexivity | reflexivity].
Qed.

(* ===================================================================== *)
(** * Scoring *)
(* ===================================================================== *)

Lemma satisfiedCount_filter (reqs : list Req) :
  length (filter (fun r => ok r) reqs) = satisfiedCount reqs.
Proof.
  induction reqs as [|r reqs IH]; [reflexivity|].
  simpl. destruct (ok r); simpl; rewrite IH; reflexivity.
Qed.

Lemma satisfiedCount_le (reqs : list Req) : satisfiedCount reqs <= totalCount reqs.
Proof.
  unfold totalCount. induction reqs as [|r reqs IH]; simpl; [lia|].
  destruct (ok r); lia.
Qed.

Lemma fraction_spec (reqs : list Req) :
  fraction (scoreFromRequirements reqs) = specFraction reqs.
Proof.
  unfold scoreFromRequirements, specFraction, totalCount.
  rewrite satisfiedCount_filter. destruct reqs; reflexivity.
Qed.

Lemma specFraction_range (reqs : list Req) :
  (0 <= specFraction reqs)%Q /\ (specFraction reqs <= 1)%Q.
Proof.
  unfold specFraction. pose proof (satisfiedCount_le reqs) as L.
  destruct (totalCount reqs) as [|n] eqn:E.
  - split; [apply Qle_refl | discriminate].
  - unfold ofNat. split.
    + apply Qle_shift_div_l.
      * unfold Qlt. simpl. lia.
      * rewrite Qmult_0_l. unfold Qle. simpl. lia.
    + apply Qle_shift_div_r.
      * unfold Qlt. simpl. lia.
      * rewrite Qmult_1_l. unfold Qle. simpl. lia.
Qed.

Lemma fold_left_sumQ {A : Type} (f : A -> Q) (l : list A) (a : Q) :
  (fold_left (fun sum r => sum + f r) l a == a + sumQ (map f l))%Q.
Proof.
  revert a. induction l as [|x l IH]; intros a; simpl.
  - ring.
  - rewrite IH. ring.
Qed.

Lemma sumQ_zero (l : list Q) : Forall (fun x => x == 0)%Q l -> (sumQ l == 0)%Q.
Proof.
  induction 1 as [|x l Hx Hl IH]; simpl; [reflexivity|].
  rewrite Hx, IH. ring.
Qed.

Lemma sumQ_app (a b : list Q) : (sumQ (a ++ b) == sumQ a + sumQ b)%Q.
Proof.
  induction a as [|x a IH]; simpl; [ring|]. rewrite IH. ring.
Qed.

Lemma totalWeight_value : totalWeight = 112%Z.
Proof. reflexivity. Qed.

Lemma configuredWeights_total : configuredWeights = totalWeight.
Proof. reflexivity. Qed.

Lemma Math_round_comp (x y : Q) : (x == y)%Q -> Math_round x = Math_round y.
Proof. intros H. unfold Math_round. rewrite H. reflexivity. Qed.

Section RunFacts.
Variable Number : text -> option Q.
Variable execSync : Command -> option text.
Variable linkedCss : option text.
Variable taskTable : list Task.

Let st := status Number execSync linkedCss.
Let results := taskResults Number execSync linkedCss taskTable.

Lemma status_cases : st = 0%Z \/ st = 1%Z \/ st = 2%Z.
Proof.
  unfold st, status.
  destruct (negb (hasCss linkedCss) || cssEmpty linkedCss); [auto|].
  destruct (late Number execSync); auto.
Qed.

Lemma taskResult_missing (t : Task) :
  st = 2%Z -> taskResult Number execSync linkedCss t = missingResult t.
Proof.
  unfold st. intros H. unfold taskResult, missingResult. rewrite H. reflexivity.
Qed.

Lemma taskResult_reqs (t : Task) :
  st <> 2%Z ->
  tr_reqs (taskResult Number execSync linkedCss t)
  = requirements t (rules linkedCss).
Proof.
  unfold st. intros H. unfold taskResult. simpl.
  destruct (Z.eqb_spec (status Number execSync linkedCss) 2); [contradiction | reflexivity].
Qed.

Lemma taskResult_earned (t : Task) :
  (tr_earnedWeight (taskResult Number execSync linkedCss t)
   == specEarned (taskResult Number execSync linkedCss t))%Q.
Proof.
  unfold specEarned, taskResult. simpl.
  destruct (status Number execSync linkedCss =? 2)%Z.
  - unfold specFraction. simpl. unfold Qeq. simpl. lia.
  - rewrite fraction_spec. reflexivity.
Qed.

Lemma earnedWeightTotal_spec :
  (earnedWeightTotal Number execSync linkedCss taskTable
   == sumQ (map specEarned results))%Q.
Proof.
  unfold earnedWeightTotal, results, taskResults.
  rewrite (fold_left_sumQ tr_earnedWeight). rewrite Qplus_0_l.
  induction taskTable as [|t l IH]; [reflexivity|].
  cbn [map sumQ]. apply Qplus_comp; [apply taskResult_earned | exact IH].
Qed.

Lemma specBucket_missing : st = 2%Z -> specBucket TODO_BUCKET_MAX results = 0%Z.
Proof.
  intros H. unfold specBucket.
  assert (HS : (sumQ (map specEarned results) == 0)%Q).
  { apply sumQ_zero. apply Forall_forall. intros x Hx.
    apply in_map_iff in Hx as (r & <- & Hr). unfold results, taskResults in Hr.
    apply in_map_iff in Hr as (t & <- & _). rewrite (taskResult_missing t H).
    unfold specEarned, missingResult, specFraction. simpl. unfold Qeq. simpl. lia. }
  rewrite (Math_round_comp _ 0%Q); [reflexivity|].
  rewrite HS. vm_compute. reflexivity.
Qed.

(** The bucket of the code is the bucket of the specification. *)
Lemma earnedTodoMarks_spec :
  earnedTodoMarks Number execSync linkedCss taskTable
  = specBucket TODO_BUCKET_MAX results.
Proof.
  unfold earnedTodoMarks.
  destruct (Z.eqb_spec (status Number execSync linkedCss) 2) as [H | H].
  - symmetry. apply specBucket_missing. exact H.
  - unfold specBucket. apply Math_round_comp.
    rewrite earnedWeightTotal_spec, configuredWeights_total. reflexivity.
Qed.
End RunFacts.

Lemma weightOf_nonneg (i : string) : (0 <= weightOf todoWeights i)%Z.
Proof.
  unfold weightOf, todoWeights.
  repeat (destruct (String.eqb _ i); [lia|]). lia.
Qed.

Lemma specEarned_range (r : TaskResult) :
  (0 <= tr_weight r)%Z ->
  (0 <= specEarned r)%Q /\ (specEarned r <= inject_Z (tr_weight r))%Q.
Proof.
  intros Hw. unfold specEarned.
  destruct (specFraction_range (tr_reqs r)) as [H0 H1].
  assert (Hq : (0 <= inject_Z (tr_weight r))%Q) by (unfold Qle; simpl; lia).
  split.
  - apply Qmult_le_0_compat; assumption.
  - rewrite Qmult_comm. rewrite <- (Qmult_1_l (inject_Z (tr_weight r))) at 2.
    apply Qmult_le_compat_r; assumption.
Qed.

Lemma sumQ_range (results : list TaskResult) :
  Forall (fun r => (0 <= tr_weight r)%Z) results ->
  (0 <= sumQ (map specEarned results))%Q
  /\ (sumQ (map specEarned results) <= inject_Z (sumZ (map tr_weight results)))%Q.
Proof.
  induction 1 as [|r l Hr Hl [IH0 IH1]]; simpl.
  - split; apply Qle_refl.
  - destruct (specEarned_range r Hr) as [H0 H1]. split.
    + rewrite <- (Qplus_0_l 0). apply Qplus_le_compat; assumption.
    + rewrite inject_Z_plus. apply Qplus_le_compat; assumption.
Qed.

Lemma Math_round_Z (n : Z) : Math_round (inject_Z n) = n.
Proof.
  unfold Math_round, Qfloor, Qplus, inject_Z. simpl.
  symmetry. apply (Z.div_unique _ _ _ 1); lia.
Qed.

Lemma Math_round_le (x : Q) (n : Z) : (x <= inject_Z n)%Q -> (Math_round x <= n)%Z.
Proof.
  intros H. apply Z.le_trans with (Math_round (inject_Z n));
    [|rewrite Math_round_Z; apply Z.le_refl].
  unfold Math_round.
  apply Qfloor_resp_le. apply Qplus_le_compat; [exact H | apply Qle_refl].
Qed.

Lemma Math_round_ge (x : Q) (n : Z) : (inject_Z n <= x)%Q -> (n <= Math_round x)%Z.
Proof.
  intros H. apply Z.le_trans with (Math_round (inject_Z n));
    [rewrite Math_round_Z; apply Z.le_refl|].
  unfold Math_round.
  apply Qfloor_resp_le. apply Qplus_le_compat; [exact H | apply Qle_refl].
Qed.

(** The bucket stays within its ceiling when the weights of the table
    add up to no more than the configured weights. *)
Lemma specBucket_range (results : list TaskResult) :
  Forall (fun r => (0 <= tr_weight r)%Z) results ->
  (sumZ (map tr_weight results) <= configuredWeights)%Z ->
  (0 <= specBucket TODO_BUCKET_MAX results <= TODO_BUCKET_MAX)%Z.
Proof.
  intros Hw Hsum. destruct (sumQ_range results Hw) as [H0 H1].
  assert (H2 : (sumQ (map specEarned results) <= inject_Z configuredWeights)%Q).
  { eapply Qle_trans; [exact H1|]. rewrite <- Zle_Qle. exact Hsum. }
  unfold specBucket. change configuredWeights with 112%Z in *.
  change TODO_BUCKET_MAX with 80%Z. split.
  - apply Math_round_ge. apply Qle_shift_div_l; [reflexivity|].
    rewrite Qmult_0_l. apply Qmult_le_0_compat; [discriminate | exact H0].
  - apply Math_round_le. apply Qle_shift_div_r; [reflexivity|].
    apply Qmult_le_l; [reflexivity | exact H2].
Qed.

Section RunClaims.
Variable Number : text -> option Q.
Variable execSync : Command -> option text.
Variable linkedCss : option text.

Lemma specFraction_none (reqs : list Req) :
  satisfiedCount reqs = 0 -> (specFraction reqs == 0)%Q.
Proof.
  intros H. unfold specFraction. destruct (totalCount reqs); [reflexivity|].
  rewrite H. unfold Qeq. simpl. lia.
Qed.

Lemma specEarned_none (t : Task) :
  status Number execSync linkedCss <> 2%Z ->
  satisfiedCount (requirements t (rules linkedCss)) = 0 ->
  (specEarned (taskResult Number execSync linkedCss t) == 0)%Q.
Proof.
  intros Hst H. unfold specEarned. rewrite (taskResult_reqs _ _ _ t Hst).
  rewrite (specFraction_none _ H). ring.
Qed.

(** C1. The TODO bucket is round(80 * (sum of weight * fraction) / (sum
    of the configured weights)), the fraction of a task being
    satisfiedCount / totalCount, and 0 for a task without requirement;
    a task of weight 12 with 2 of its 4 requirements satisfied, the
    others earning nothing, brings round(80 * (12 * 0.5) / T). *)
Theorem C1_todo_bucket_formula (taskTable : list Task) :
  earnedTodoMarks Number execSync linkedCss taskTable
  = specBucket 80 (taskResults Number execSync linkedCss taskTable)
  /\ specFraction [] = 0%Q
  /\ (forall reqs, reqs <> [] ->
        specFraction reqs = (ofNat (satisfiedCount reqs) / ofNat (totalCount reqs))%Q)
  /\ (forall before t after,
        taskTable = before ++ t :: after ->
        status Number execSync linkedCss <> 2%Z ->
        totalCount (requirements t (rules linkedCss)) = 4 ->
        satisfiedCount (requirements t (rules linkedCss)) = 2 ->
        weightOf todoWeights (id t) = 12%Z ->
        (forall u, In u (before ++ after) ->
                   satisfiedCount (requirements u (rules linkedCss)) = 0) ->
        earnedTodoMarks Number execSync linkedCss taskTable
        = Math_round (80 * (12 * (1 # 2)) / inject_Z configuredWeights)%Q).
Proof.
  split; [apply earnedTodoMarks_spec|].
  split; [reflexivity|].
  split.
  { intros [|r reqs] H; [congruence | reflexivity]. }
  intros before t after -> Hst Htot Hsat Hw Hothers.
  rewrite earnedTodoMarks_spec. unfold specBucket. apply Math_round_comp.
  assert (HS : (sumQ (map specEarned
                        (taskResults Number execSync linkedCss (before ++ t :: after)))
                == 12 * (1 # 2))%Q).
  { unfold taskResults. rewrite !map_app, sumQ_app. cbn [map sumQ].
    assert (Hz : forall l, (forall u, In u l -> In u (before ++ after)) ->
                  (sumQ (map specEarned (map (taskResult Number execSync linkedCss) l))
                   == 0)%Q).
    { intros l Hl. apply sumQ_zero, Forall_forall. intros x Hx.
      apply in_map_iff in Hx as (r & <- & Hr). apply in_map_iff in Hr as (u & <- & Hu).
      apply specEarned_none; [exact Hst | apply Hothers, Hl, Hu]. }
    rewrite (Hz before) by (intros u Hu; apply in_or_app; left; exact Hu).
    rewrite (Hz after) by (intros u Hu; apply in_or_app; right; exact Hu).
    unfold specEarned. rewrite (taskResult_reqs _ _ _ t Hst).
    change (tr_weight (taskResult Number execSync linkedCss t))
      with (weightOf todoWeights (id t)).
    rewrite Hw. unfold specFraction. rewrite Htot, Hsat. vm_compute. reflexivity. }
  rewrite HS. reflexivity.
Qed.

(** C6. In a MISSING run every task gets the single unsatisfied
    placeholder requirement, whatever its own checks are, and earns no
    weight; the TODO bucket, the status component and the total are 0. *)
Theorem C6_missing_short_circuit (taskTable : list Task) :
  status Number execSync linkedCss = 2%Z ->
  taskResults Number execSync linkedCss taskTable = map missingResult taskTable
  /\ ok placeholder = false
  /\ Forall (fun r => tr_reqs r = [placeholder] /\ tr_ok r = 0
                      /\ tr_earnedWeight r = 0%Q)
            (taskResults Number execSync linkedCss taskTable)
  /\ earnedTodoMarks Number execSync linkedCss taskTable = 0%Z
  /\ submissionMarks Number execSync linkedCss = 0%Z
  /\ totalEarned Number execSync linkedCss taskTable = 0%Z.
Proof.
  intros H.
  assert (HR : taskResults Number execSync linkedCss taskTable
               = map missingResult taskTable).
  { unfold taskResults. apply map_ext. intros t. apply taskResult_missing, H. }
  assert (HT : earnedTodoMarks Number execSync linkedCss taskTable = 0%Z)
    by (unfold earnedTodoMarks; rewrite H; reflexivity).
  assert (HS : submissionMarks Number execSync linkedCss = 0%Z)
    by (unfold submissionMarks; rewrite H; reflexivity).
  repeat split; try assumption.
  - rewrite HR. apply Forall_forall. intros r Hr.
    apply in_map_iff in Hr as (t & <- & _). repeat split.
  - unfold totalEarned. rewrite HT, HS. reflexivity.
Qed.

Lemma submissionMarks_le : (submissionMarks Number execSync linkedCss <= 20)%Z.
Proof.
  unfold submissionMarks.
  destruct (status Number execSync linkedCss =? 2)%Z; [lia|].
  destruct (status Number execSync linkedCss =? 1)%Z; lia.
Qed.

Lemma tasks_bucket_range :
  (0 <= earnedTodoMarks Number execSync linkedCss tasks <= 80)%Z.
Proof.
  rewrite earnedTodoMarks_spec. apply specBucket_range.
  - apply Forall_forall. intros r Hr. unfold taskResults in Hr.
    apply in_map_iff in Hr as (t & <- & _). apply weightOf_nonneg.
  - unfold taskResults. rewrite map_map. vm_compute. discriminate.
Qed.

(** C7. The final score is the TODO bucket plus the status component,
    capped at 100; when the bucket is at most 80 and the component at
    most 20 the cap never applies, and with the nine tasks of the script
    both bounds hold. *)
Theorem C7_total_clamped (taskTable : list Task) :
  totalEarned Number execSync linkedCss taskTable
  = Z.min (earnedTodoMarks Number execSync linkedCss taskTable
           + submissionMarks Number execSync linkedCss) 100
  /\ ((earnedTodoMarks Number execSync linkedCss taskTable <= 80)%Z ->
      (submissionMarks Number execSync linkedCss <= 20)%Z ->
      (earnedTodoMarks Number execSync linkedCss taskTable
       + submissionMarks Number execSync linkedCss <= 100)%Z
      /\ totalEarned Number execSync linkedCss taskTable
         = (earnedTodoMarks Number execSync linkedCss taskTable
            + submissionMarks Number execSync linkedCss)%Z)
  /\ (earnedTodoMarks Number execSync linkedCss tasks <= 80)%Z
  /\ (submissionMarks Number execSync linkedCss <= 20)%Z
  /\ totalEarned Number execSync linkedCss tasks
     = (earnedTodoMarks Number execSync linkedCss tasks
        + submissionMarks Number execSync linkedCss)%Z.
Proof.
  split; [reflexivity|]. split.
  - intros H1 H2. split; [lia|]. unfold totalEarned, TOTAL_MAX. lia.
  - pose proof tasks_bucket_range as H1. pose proof submissionMarks_le as H2.
    split; [lia|]. split; [exact H2|]. unfold totalEarned, TOTAL_MAX. lia.
Qed.
End RunClaims.

(* ===================================================================== *)
(** * The rounding of the bucket has a margin *)
(* ===================================================================== *)

(** The grader computes the quotient with double-precision numbers; the
    model computes it exactly. With the nine tasks of the script the exact
    quotient is a multiple of 1/7, so that adding 1/2 never brings it
    within 1/14 of an integer: an error of up to 1/15 on the quotient, far
    above what double precision can accumulate here, leaves the rounded
    bucket unchanged. *)

Lemma Qfloor_unique (y : Q) (z : Z) :
  (inject_Z z <= y)%Q -> (y < inject_Z (z + 1))%Q -> Qfloor y = z.
Proof.
  intros H1 H2. apply Z.le_antisymm.
  - apply Z.lt_succ_r. rewrite Zlt_Qlt.
    eapply Qle_lt_trans; [apply Qfloor_le | exact H2].
  - rewrite <- (Qfloor_Z z). apply Qfloor_resp_le, H1.
Qed.

Lemma sevenths_margin (n : Z) (err : Q) :
  (- (1 # 15) <= err)%Q -> (err <= 1 # 15)%Q ->
  Math_round (inject_Z n / 7 + err) = Math_round (inject_Z n / 7).
Proof.
  intros Hlo Hhi. unfold Math_round.
  set (z := ((2 * n + 7) / 14)%Z).
  assert (Hz : (14 * z + 1 <= 2 * n + 7 <= 14 * z + 13)%Z).
  { unfold z. pose proof (Z.div_mod (2 * n + 7) 14 ltac:(lia)) as E.
    pose proof (Z.mod_pos_bound (2 * n + 7) 14 ltac:(lia)) as B. lia. }
  destruct Hz as [Hz1 Hz2]. rewrite Zle_Qle in Hz1, Hz2.
  rewrite !inject_Z_plus, !inject_Z_mult in Hz1, Hz2.
  change (inject_Z 14) with 14%Q in *. change (inject_Z 13) with 13%Q in *.
  change (inject_Z 7) with 7%Q in *. change (inject_Z 2) with 2%Q in *.
  change (inject_Z 1) with 1%Q in *.
  assert (E7 : (inject_Z n / 7 == inject_Z n * (1 # 7))%Q) by reflexivity.
  assert (B1 : (inject_Z z <= inject_Z n / 7 + err + (1 # 2))%Q)
    by (rewrite E7; lra).
  assert (B2 : (inject_Z n / 7 + err + (1 # 2) < inject_Z (z + 1))%Q)
    by (rewrite inject_Z_plus, E7; change (inject_Z 1) with 1%Q; lra).
  assert (B3 : (inject_Z z <= inject_Z n / 7 + (1 # 2))%Q)
    by (rewrite E7; lra).
  assert (B4 : (inject_Z n / 7 + (1 # 2) < inject_Z (z + 1))%Q)
    by (rewrite inject_Z_plus, E7; change (inject_Z 1) with 1%Q; lra).
  rewrite (Qfloor_unique _ z B1 B2), (Qfloor_unique _ z B3 B4). reflexivity.
Qed.

Lemma specEarned_fifths (r : TaskResult) :
  fifths r -> exists m, (5 * specEarned r == inject_Z m)%Q.
Proof.
  intros (q & Hq). unfold specEarned, specFraction.
  destruct (totalCount (tr_reqs r)) as [|k] eqn:E.
  - exists 0%Z. ring.
  - exists (q * Z.of_nat (satisfiedCount (tr_reqs r)))%Z.
    unfold ofNat. rewrite inject_Z_mult.
    assert (H5 : (5 * inject_Z (tr_weight r) == inject_Z (Z.of_nat (S k)) * inject_Z q)%Q).
    { rewrite <- inject_Z_mult, <- Hq, inject_Z_mult. reflexivity. }
    assert (Hk : ~ (inject_Z (Z.of_nat (S k)) == 0)%Q).
    { unfold Qeq. simpl. lia. }
    transitivity (5 * inject_Z (tr_weight r)
                  * (inject_Z (Z.of_nat (satisfiedCount (tr_reqs r)))
                     / inject_Z (Z.of_nat (S k))))%Q; [ring|].
    rewrite H5. field. exact Hk.
Qed.

Lemma sumQ_fifths (results : list TaskResult) :
  Forall fifths results ->
  exists m, (5 * sumQ (map specEarned results) == inject_Z m)%Q.
Proof.
  induction 1 as [|r l Hr Hl (m & IH)]; simpl.
  - exists 0%Z. ring.
  - destruct (specEarned_fifths r Hr) as (m1 & H1). exists (m1 + m)%Z.
    rewrite inject_Z_plus, <- H1, <- IH. ring.
Qed.

Lemma tasks_fifths (Number : text -> option Q) (execSync : Command -> option text)
    (linkedCss : option text) :
  Forall fifths (taskResults Number execSync linkedCss tasks).
Proof.
  unfold taskResults, tasks, fifths, taskResult,
    task1, task2, task3, task4, task5, task6, task7, task8, task9.
  destruct (status Number execSync linkedCss =? 2)%Z;
    repeat constructor; cbn [tr_weight tr_reqs totalCount length requirements id].
  all: try (exists 60%Z; reflexivity); try (exists 70%Z; reflexivity);
       try (exists 10%Z; reflexivity); try (exists 7%Z; reflexivity);
       try (exists 20%Z; reflexivity); try (exists 15%Z; reflexivity);
       try (exists 14%Z; reflexivity); try (exists 30%Z; reflexivity).
Qed.

Lemma bucket_rounding_margin (Number : text -> option Q)
    (execSync : Command -> option text) (linkedCss : option text) (err : Q) :
  (- (1 # 15) <= err)%Q -> (err <= 1 # 15)%Q ->
  Math_round
    (inject_Z TODO_BUCKET_MAX
     * sumQ (map specEarned (taskResults Number execSync linkedCss tasks))
     / inject_Z totalWeight + err)
  = earnedTodoMarks Number execSync linkedCss tasks.
Proof.
  intros Hlo Hhi. rewrite earnedTodoMarks_spec. unfold specBucket.
  destruct (sumQ_fifths _ (tasks_fifths Number execSync linkedCss)) as (m & Hm).
  set (S5 := sumQ (map specEarned (taskResults Number execSync linkedCss tasks))) in *.
  assert (E : (inject_Z TODO_BUCKET_MAX * S5 / inject_Z totalWeight
               == inject_Z m / 7)%Q).
  { rewrite <- Hm. change (inject_Z TODO_BUCKET_MAX) with 80%Q.
    change (inject_Z totalWeight) with 112%Q. field. }
  rewrite configuredWeights_total.
  rewrite (Math_round_comp _ (inject_Z m / 7 + err)) by (rewrite E; reflexivity).
  rewrite (Math_round_comp (_ / _) (inject_Z m / 7)) by exact E.
  apply sevenths_margin; assumption.
Qed.

(* ===================================================================== *)
(** * Submission status *)
(* ===================================================================== *)

Section StatusClaims.
Variable Number : text -> option Q.
Variable execSync : Command -> option text.

Let commit := getLatestStudentCommitEpochMs Number execSync.

Lemma wasSubmittedLate_spec :
  wasSubmittedLate Number execSync = true
  <-> exists ms, commit = Some ms /\ (DUE_EPOCH_MS < ms)%Q.
Proof.
  unfold wasSubmittedLate, commit.
  destruct (getLatestStudentCommitEpochMs Number execSync) as [ms|]; simpl.
  - destruct (Qeq_bool ms 0) eqn:E0.
    + split; [discriminate|]. intros (ms' & H & Hlt). injection H as <-.
      apply Qeq_bool_eq in E0. rewrite E0 in Hlt. vm_compute in Hlt. discriminate.
    + rewrite negb_true_iff. split.
      * intros H. exists ms. split; [reflexivity|]. apply Qnot_le_lt. intros Hle.
        apply Qle_bool_iff in Hle. congruence.
      * intros (ms' & H & Hlt). injection H as <-.
        destruct (Qle_bool ms DUE_EPOCH_MS) eqn:E; [|reflexivity].
        apply Qle_bool_iff in E. exfalso. exact (Qlt_not_le _ _ Hlt E).
  - split; [discriminate | intros (ms & H & _); discriminate].
Qed.

Lemma wasSubmittedLate_not :
  wasSubmittedLate Number execSync = false
  <-> commit = None \/ exists ms, commit = Some ms /\ (ms <= DUE_EPOCH_MS)%Q.
Proof.
  split.
  - intros H. destruct commit as [ms|] eqn:E; [|left; reflexivity].
    right. exists ms. split; [reflexivity|].
    destruct (Qlt_le_dec DUE_EPOCH_MS ms) as [Hlt | Hle]; [|exact Hle].
    assert (T : wasSubmittedLate Number execSync = true).
    { apply wasSubmittedLate_spec. exists ms. split; [exact E | exact Hlt]. }
    congruence.
  - intros H. destruct (wasSubmittedLate Number execSync) eqn:E; [|reflexivity].
    apply wasSubmittedLate_spec in E as (ms & Hc & Hlt).
    destruct H as [H | (ms' & H & Hle)]; [congruence|].
    rewrite Hc in H. injection H as <-. exfalso. exact (Qlt_not_le _ _ Hlt Hle).
Qed.

Lemma status_missing_iff (linkedCss : option text) :
  status Number execSync linkedCss = 2%Z
  <-> linkedCss = None
      \/ exists code, linkedCss = Some code /\ isEmptyCss code = true.
Proof.
  unfold status, cssEmpty, hasCss, cssCode. destruct linkedCss as [code|]; simpl.
  - destruct (isEmptyCss code) eqn:E.
    + split; [intros _; right; exists code; auto | reflexivity].
    + split.
      * destruct (late Number execSync); discriminate.
      * intros [H | (c & H & H')]; [discriminate|]. injection H as <-. congruence.
  - split; [intros _; left; reflexivity | reflexivity].
Qed.

Lemma status_present (code : text) :
  isEmptyCss code = false ->
  status Number execSync (Some code)
  = if wasSubmittedLate Number execSync then 1%Z else 0%Z.
Proof.
  intros H. unfold status, cssEmpty, hasCss, cssCode, late. simpl. rewrite H.
  reflexivity.
Qed.

Lemma isEmptyCss_length (css : text) :
  isEmptyCss css = true <-> length (compactWs (stripCssComments css)) < 10.
Proof. unfold isEmptyCss. apply Nat.ltb_lt. Qed.

(** C3, as the code has it. The status is MISSING exactly when no
    stylesheet is located or the located one, comments stripped and
    whitespace compacted, is shorter than 10 characters (so every
    stylesheet of whitespace and comments only is MISSING); otherwise it
    is LATE exactly when the latest qualifying commit time is after the
    deadline, and ON_TIME when that time is at or before the deadline or
    is not available. *)
Theorem C3_status_amended (linkedCss : option text) :
  (status Number execSync linkedCss = 2%Z
   <-> linkedCss = None
       \/ exists code, linkedCss = Some code
                       /\ length (compactWs (stripCssComments code)) < 10)
  /\ (forall code, linkedCss = Some code -> Blank code ->
                   status Number execSync linkedCss = 2%Z)
  /\ (status Number execSync linkedCss = 1%Z
      <-> status Number execSync linkedCss <> 2%Z
          /\ exists ms, commit = Some ms /\ (DUE_EPOCH_MS < ms)%Q)
  /\ (status Number execSync linkedCss = 0%Z
      <-> status Number execSync linkedCss <> 2%Z
          /\ (commit = None
              \/ exists ms, commit = Some ms /\ (ms <= DUE_EPOCH_MS)%Q)).
Proof.
  split.
  { rewrite status_missing_iff. split.
    - intros [H | (code & H & He)]; [left; exact H|].
      right. exists code. split; [exact H | apply isEmptyCss_length, He].
    - intros [H | (code & H & He)]; [left; exact H|].
      right. exists code. split; [exact H | apply isEmptyCss_length, He]. }
  split.
  { intros code -> HB. apply status_missing_iff. right. exists code.
    split; [reflexivity | apply isEmptyCss_blank, HB]. }
  destruct linkedCss as [code|].
  - destruct (isEmptyCss code) eqn:E.
    + assert (H2 : status Number execSync (Some code) = 2%Z)
        by (apply status_missing_iff; right; exists code; auto).
      rewrite H2. split; split; try discriminate; intros [H _]; congruence.
    + rewrite (status_present code E).
      destruct (wasSubmittedLate Number execSync) eqn:EL.
      * split; split; try discriminate.
        -- intros _. split; [discriminate | apply wasSubmittedLate_spec, EL].
        -- reflexivity.
        -- intros [_ H]. apply wasSubmittedLate_not in H. congruence.
      * split; split; try discriminate.
        -- intros [_ H]. apply wasSubmittedLate_spec in H. congruence.
        -- intros _. split; [discriminate | apply wasSubmittedLate_not, EL].
        -- reflexivity.
  - assert (H2 : status Number execSync None = 2%Z) by reflexivity.
    rewrite H2. split; split; try discriminate; intros [H _]; congruence.
Qed.
End StatusClaims.

Lemma not_blank_short : ~ Blank (lit "i{top:0}").
Proof.
  intros H. inversion H as [|c t Hc Ht E|body t Hb Ht E]. discriminate Hc.
Qed.

(** C3 as stated fails: a stylesheet that is neither empty nor made of
    comments only is classified MISSING. *)
Lemma C3_counterexample :
  ~ (forall (Number : text -> option Q) (execSync : Command -> option text)
            (linkedCss : option text),
        status Number execSync linkedCss = 2%Z
        <-> linkedCss = None
            \/ exists code, linkedCss = Some code /\ Blank code).
Proof.
  intros H.
  destruct (proj1 (H decimalNumber noGit (Some (lit "i{top:0}"))) eq_refl)
    as [E | (code & E & HB)].
  - discriminate E.
  - injection E as <-. exact (not_blank_short HB).
Qed.

Lemma C3_witness :
  Blank (lit "/* todo */")
  /\ status decimalNumber noGit (Some (lit "/* todo */")) = 2%Z.
Proof.
  assert (HB : Blank (lit "/* todo */")).
  { apply (Blank_comment (lit " todo ") []); [reflexivity | constructor]. }
  split; [exact HB|].
  exact (proj1 (proj2 (C3_status_amended decimalNumber noGit (Some (lit "/* todo */"))))
           (lit "/* todo */") eq_refl HB).
Defined.

(** C10. A located stylesheet counts as empty exactly when its text,
    comments stripped and whitespace collapsed, has fewer than 10
    characters, and the run is then MISSING; the well-formed stylesheet
    [i{top:0}] is graded MISSING with a total of 0. *)
Theorem C10_short_stylesheet_is_missing :
  (forall css,
      isEmptyCss css = true
      <-> length (collapseWs (trim (stripCssComments css))) < 10)
  /\ (forall Number execSync code,
        status Number execSync (Some code) = 2%Z <-> isEmptyCss code = true)
  /\ parseCssRules (lit "i{top:0}")
     = [{| selector := lit "i"; decls := lit "top:0" |}]
  /\ (forall Number execSync,
        status Number execSync (Some (lit "i{top:0}")) = 2%Z
        /\ totalEarned Number execSync (Some (lit "i{top:0}")) tasks = 0%Z).
Proof.
  split.
  { intros css. rewrite <- compactWs_spec. unfold isEmptyCss. apply Nat.ltb_lt. }
  split.
  { intros Number execSync code. rewrite status_missing_iff. split.
    - intros [H | (c & H & He)]; [discriminate|]. injection H as <-. exact He.
    - intros H. right. exists code. auto. }
  split; [vm_compute; reflexivity|].
  intros Number execSync.
  assert (H : status Number execSync (Some (lit "i{top:0}")) = 2%Z) by reflexivity.
  split; [exact H|].
  unfold totalEarned, earnedTodoMarks, submissionMarks. rewrite H. reflexivity.
Qed.

(* ===================================================================== *)
(** * The commit history *)
(* ===================================================================== *)



Section HistoryFacts.
Variable Number : text -> option Q.


End HistoryFacts.

(** ** Lines and fields *)

Lemma trimStart_id (s : text) : isSpace (hd " "%char s) = false -> trimStart s = s.
Proof.
  destruct s as [|c t]; [reflexivity|]. simpl. unfold trimStart. simpl.
  intros ->. reflexivity.
Qed.

Lemma trimEnd_id (s : text) : isSpace (last s " "%char) = false -> trimEnd s = s.
Proof.
  induction s as [|c t IH]; [reflexivity|]. intros H. rewrite trimEnd_cons.
  destruct t as [|d t'].
  - simpl in H. rewrite trimEnd_nil, H. reflexivity.
  - change (last (c :: d :: t') " "%char) with (last (d :: t') " "%char) in H.
    rewrite (IH H). reflexivity.
Qed.

Lemma split_one (sep : ascii) (s : text) :
  forallb (fun ch => negb (eqChar ch sep)) s = true -> split sep s = [s].
Proof.
  induction s as [|c t IH]; [reflexivity|]. simpl.
  intros H. apply andb_true_iff in H as [Hc Ht]. apply negb_true_iff in Hc.
  rewrite Hc, (IH Ht). reflexivity.
Qed.

Lemma split_app (sep : ascii) (s rest : text) :
  forallb (fun ch => negb (eqChar ch sep)) s = true ->
  split sep (s ++ sep :: rest) = s :: split sep rest.
Proof.
  induction s as [|c t IH]; simpl.
  - intros _. rewrite eqChar_refl. reflexivity.
  - intros H. apply andb_true_iff in H as [Hc Ht]. apply negb_true_iff in Hc.
    rewrite Hc, (IH Ht). reflexivity.
Qed.

(** The time field of a printed line. *)
Lemma ctOf_logLine (c : Commit) :
  forallb (fun ch => negb (eqChar ch "|")) (c_time c) = true ->
  ctOf (logLine c) = c_time c.
Proof.
  intros H. unfold ctOf, logLine, part.
  change (lit "|" ++ c_an c ++ lit "|" ++ c_ae c ++ lit "|" ++ c_cn c
          ++ lit "|" ++ c_ce c ++ lit "|" ++ c_subject c)
    with ("|"%char :: c_an c ++ lit "|" ++ c_ae c ++ lit "|" ++ c_cn c
          ++ lit "|" ++ c_ce c ++ lit "|" ++ c_subject c).
  rewrite (split_app "|" (c_time c) _ H). reflexivity.
Qed.

(** ** The log on the machine *)

(** The first command line is a pipeline of six stages, the last of
    which is no program. *)
Lemma recent_log_stages :
  map wordsOf (stagesOf (commandLine (GitLogRecent 300)))
  = [[lit "git"; lit "log"; lit "--format=%ct"]; [lit "%an"]; [lit "%ae"];
     [lit "%cn"]; [lit "%ce"]; [lit "%s"; lit "-n"; lit "300"]].
Proof. vm_compute. reflexivity. Qed.

Lemma gitLog_recent (history : list Commit) :
  gitLog history (GitLogRecent 300) = None.
Proof. reflexivity. Qed.

Lemma gitLog_last (newest : Commit) (older : list Commit) :
  gitLog (newest :: older) GitLogLastTime = Some (c_time newest ++ [newline]).
Proof. reflexivity. Qed.

(** C8. The format of the first [git log] command is not quoted: the
    shell reads its bars as pipes, the call throws in every repository,
    and the resolver never yields a time. For a student commit one
    second after the deadline, below an automated commit, the claim
    gives the time of the student commit, which is late; the run has no
    time and is on time. The loop of the resolver, given the lines that
    [git] prints for the format, does find the time of the claim. *)
Theorem C8_unquoted_bars_lose_the_log :
  gitLog lateHistory (GitLogRecent 300) = None
  /\ getLatestStudentCommitEpochMs decimalNumber (gitLog lateHistory) = None
  /\ wasSubmittedLate decimalNumber (gitLog lateHistory) = false
  /\ status decimalNumber (gitLog lateHistory) (Some scenarioA) = 0%Z
  /\ totalEarned decimalNumber (gitLog lateHistory) (Some scenarioA) tasks = 31%Z
  /\ claimedTime decimalNumber lateHistory
     = Some (inject_Z 1757969941 * inject_Z 1000)%Q
  /\ (DUE_EPOCH_MS < inject_Z 1757969941 * inject_Z 1000)%Q
  /\ firstStudentLine decimalNumber (map logLine lateHistory)
     = claimedTime decimalNumber lateHistory
  /\ (forall Number history,
        getLatestStudentCommitEpochMs Number (gitLog history) = None).
Proof.
  assert (G : forall Number history,
             getLatestStudentCommitEpochMs Number (gitLog history) = None).
  { intros Number history. unfold getLatestStudentCommitEpochMs.
    rewrite gitLog_recent. reflexivity. }
  split; [reflexivity|]. split; [apply G|].
  split; [vm_compute; reflexivity|]. split; [vm_compute; reflexivity|].
  split; [vm_compute; reflexivity|]. split; [vm_compute; reflexivity|].
  split; [vm_compute; reflexivity|]. split; [vm_compute; reflexivity | exact G].
Qed.

(* ===================================================================== *)
(** * Worked runs *)
(* ===================================================================== *)

(** Scenario A: the first task is fully satisfied and the run is on time. *)
Example scenarioA_run :
  map ok (todo1 (parseCssRules scenarioA)) = [true; true; true; true; true; true]
  /\ status decimalNumber noGit (Some scenarioA) = 0%Z
  /\ totalEarned decimalNumber noGit (Some scenarioA) tasks = 31%Z.
Proof. repeat split; vm_compute; reflexivity. Qed.

(** Scenario B: the rule exists and declares a property, without
    [!important]. *)
Example scenarioB_run :
  map ok (todo5 (parseCssRules scenarioB)) = [true; false; true].
Proof. vm_compute. reflexivity. Qed.

Lemma C1_witness :
  tasks = [task1; task2; task3] ++ task4 :: [task5; task6; task7; task8; task9]
  /\ status decimalNumber noGit (Some halfOfTodo4) <> 2%Z
  /\ earnedTodoMarks decimalNumber noGit (Some halfOfTodo4) tasks
     = Math_round (80 * (12 * (1 # 2)) / inject_Z configuredWeights)%Q
  /\ earnedTodoMarks decimalNumber noGit (Some halfOfTodo4) tasks = 4%Z.
Proof.
  assert (Hst : status decimalNumber noGit (Some halfOfTodo4) <> 2%Z)
    by (vm_compute; discriminate).
  split; [reflexivity|]. split; [exact Hst|]. split; [|vm_compute; reflexivity].
  apply (proj2 (proj2 (proj2
           (C1_todo_bucket_formula decimalNumber noGit (Some halfOfTodo4) tasks)))
           [task1; task2; task3] task4 [task5; task6; task7; task8; task9]).
  - reflexivity.
  - exact Hst.
  - vm_compute. reflexivity.
  - vm_compute. reflexivity.
  - reflexivity.
  - intros u Hu. simpl in Hu.
    repeat (destruct Hu as [<- | Hu]; [vm_compute; reflexivity|]). destruct Hu.
Defined.

Lemma C6_witness :
  status decimalNumber noGit None = 2%Z
  /\ taskResults decimalNumber noGit None tasks = map missingResult tasks
  /\ totalEarned decimalNumber noGit None tasks = 0%Z.
Proof.
  assert (H : status decimalNumber noGit None = 2%Z) by reflexivity.
  destruct (C6_missing_short_circuit decimalNumber noGit None tasks H)
    as (HR & _ & _ & _ & _ & HT).
  split; [exact H|]. split; [exact HR | exact HT].
Defined.

Lemma C7_witness :
  (earnedTodoMarks decimalNumber noGit (Some scenarioA) tasks <= 80)%Z
  /\ (submissionMarks decimalNumber noGit (Some scenarioA) <= 20)%Z
  /\ totalEarned decimalNumber noGit (Some scenarioA) tasks
     = (earnedTodoMarks decimalNumber noGit (Some scenarioA) tasks
        + submissionMarks decimalNumber noGit (Some scenarioA))%Z.
Proof.
  assert (H1 : (earnedTodoMarks decimalNumber noGit (Some scenarioA) tasks <= 80)%Z)
    by (vm_compute; discriminate).
  assert (H2 : (submissionMarks decimalNumber noGit (Some scenarioA) <= 20)%Z)
    by (vm_compute; discriminate).
  split; [exact H1|]. split; [exact H2|].
  exact (proj2 (proj1 (proj2
           (C7_total_clamped decimalNumber noGit (Some scenarioA) tasks)) H1 H2)).
Defined.

(* ===================================================================== *)
(** * More facts about the matcher *)
(* ===================================================================== *)

Lemma greedy_prev (k : option ascii -> text -> option result) (f : ascii -> bool) :
  (forall p1 p2 s, k p1 s = k p2 s) ->
  forall s p1 p2, greedy k f p1 s = greedy k f p2 s.
Proof.
  intros Hk. induction s as [|c t IH]; intros p1 p2; simpl.
  - rewrite (Hk p1 p2). reflexivity.
  - rewrite (Hk p1 p2). reflexivity.
Qed.

Lemma lazy_prev (k : option ascii -> text -> option result) (f : ascii -> bool) :
  (forall p1 p2 s, k p1 s = k p2 s) ->
  forall s p1 p2, lazy k f p1 s = lazy k f p2 s.
Proof.
  intros Hk. induction s as [|c t IH]; intros p1 p2; simpl.
  - rewrite (Hk p1 p2). reflexivity.
  - rewrite (Hk p1 p2). reflexivity.
Qed.

(** Without assertion, an attempt does not look at what is before it. *)
Lemma run_prev (re : regexp) :
  classOnly re = true -> forall p1 p2 s, run re p1 s = run re p2 s.
Proof.
  induction re as [|it re IH]; intros H p1 p2 s; [reflexivity|].
  destruct it as [q f| | |]; try discriminate H.
  simpl in H. specialize (IH H). destruct q; simpl.
  - reflexivity.
  - destruct s as [|c t]; [rewrite (IH p1 p2); reflexivity|].
    rewrite (IH p1 p2). reflexivity.
  - apply greedy_prev. exact IH.
  - reflexivity.
  - apply lazy_prev. exact IH.
Qed.

Lemma exec_prev (re : regexp) :
  classOnly re = true -> forall s p1 p2, exec re p1 s = exec re p2 s.
Proof.
  intros H. induction s as [|c t IH]; intros p1 p2; simpl;
    rewrite (run_prev re H p1 p2); reflexivity.
Qed.

Lemma replaceLoop_prev (re : regexp) (by_ : text) :
  classOnly re = true ->
  forall n s p1 p2, replaceLoop n re by_ p1 s = replaceLoop n re by_ p2 s.
Proof.
  intros H. induction n as [|n IH]; intros s p1 p2; [reflexivity|].
  simpl. rewrite (exec_prev re H s p1 p2).
  destruct (exec re p2 s) as [m|]; [|reflexivity].
  destruct (matched m); destruct (after m); try reflexivity;
    do 2 f_equal; apply IH.
Qed.

Lemma replaceFrom_all (re : regexp) (by_ : text) (prev : option ascii) (s : text) :
  classOnly re = true -> replaceFrom re by_ prev s = replaceAll re by_ s.
Proof. intros H. apply replaceLoop_prev, H. Qed.

Lemma execLoop_prev (re : regexp) :
  classOnly re = true ->
  forall n s p1 p2, execLoop n re p1 s = execLoop n re p2 s.
Proof.
  intros H. induction n as [|n IH]; intros s p1 p2; [reflexivity|].
  simpl. rewrite (exec_prev re H s p1 p2).
  destruct (exec re p2 s) as [m|]; [|reflexivity]. f_equal. apply IH.
Qed.

(** Every match the loop reports is a match somewhere. *)
Lemma execLoop_sound (re : regexp) :
  forall n prev s ps,
    In ps (execLoop n re prev s) ->
    exists prev' mid rest, Matches re prev' mid ps rest.
Proof.
  induction n as [|n IH]; intros prev s ps H; [destruct H|].
  simpl in H. destruct (exec re prev s) as [m|] eqn:E; [|destruct H].
  destruct H as [<- | H].
  - apply exec_inv in E as (mid & _ & Hr). apply run_sound in Hr. eauto.
  - eapply IH, H.
Qed.

(** In a match every piece fits its item. *)
Lemma Matches_nth (re : regexp) :
  forall prev s ps rest i it,
    Matches re prev s ps rest -> nth_error re i = Some it ->
    exists prev' next, fits it prev' (nth i ps []) next.
Proof.
  induction re as [|it0 re IH]; intros prev s ps rest i it H Hi.
  - destruct i; discriminate Hi.
  - destruct ps as [|p ps]; [destruct H|].
    destruct H as (s' & -> & Hfit & H). destruct i as [|i].
    + injection Hi as <-. simpl. eauto.
    + simpl in Hi. simpl. eapply IH; eassumption.
Qed.

(** Where no attempt succeeds, a replacement changes nothing. *)
Lemma replaceFrom_untouched (re : regexp) (by_ : text) :
  forall s,
    (forall a b, s = a ++ b -> forall prev, run re prev b = None) ->
    forall prev, replaceFrom re by_ prev s = s.
Proof.
  induction s as [|c t IH]; intros H prev.
  - apply replaceFrom_nil. apply (H [] [] eq_refl).
  - rewrite (replaceFrom_skip re by_ prev c t (H [] (c :: t) eq_refl prev)).
    f_equal. apply IH. intros a b ->. apply (H (c :: a) b eq_refl).
Qed.

(** ** Literal words *)

Lemma run_word (w : text) (re : regexp) :
  forall prev s',
    run (word w ++ re) prev (w ++ s')
    = match run re (lastOf prev w) s' with
      | Some (ps, rest) => Some (singles w ++ ps, rest)
      | None => None
      end.
Proof.
  induction w as [|c w IH]; intros prev s'.
  - simpl. rewrite lastOf_nil. destruct (run re prev s') as [[ps rest]|]; reflexivity.
  - change (run (word (c :: w) ++ re) prev ((c :: w) ++ s'))
      with (if chr c c then consPiece [c] (run (word w ++ re) (Some c) (w ++ s'))
            else None).
    unfold chr. rewrite eqChar_refl, IH, lastOf_cons.
    destruct (run re (lastOf (Some c) w) s') as [[ps rest]|]; reflexivity.
Qed.

Lemma run_word_inv (w : text) (re : regexp) :
  forall prev s ps rest,
    run (word w ++ re) prev s = Some (ps, rest) ->
    exists s' ps', s = w ++ s' /\ ps = singles w ++ ps'
                   /\ run re (lastOf prev w) s' = Some (ps', rest).
Proof.
  induction w as [|c w IH]; intros prev s ps rest H.
  - exists s, ps. auto.
  - simpl in H. destruct s as [|x t]; [discriminate|].
    destruct (chr c x) eqn:E; [|discriminate]. apply chr_true in E. subst x.
    apply consPiece_some in H as (ps1 & -> & H).
    apply IH in H as (s' & ps' & -> & -> & H).
    exists s', ps'. rewrite lastOf_cons. auto.
Qed.

Lemma run_word_starts (w : text) (re : regexp) (prev : option ascii) (s : text) :
  startsWith w s = false -> run (word w ++ re) prev s = None.
Proof.
  intros H. destruct (run (word w ++ re) prev s) as [[ps rest]|] eqn:R; [|reflexivity].
  apply run_word_inv in R as (s' & _ & -> & _).
  assert (T : startsWith w (w ++ s') = true) by (apply startsWith_spec; eauto).
  congruence.
Qed.

(** ** Texts between two marks *)

Lemma delimRe_mandatory (o c : text) : o <> [] -> existsb mandatory (delimRe o c) = true.
Proof. destruct o; [congruence | reflexivity]. Qed.

Lemma word_classOnly (w : text) : classOnly (word w) = true.
Proof. induction w as [|c w IH]; [reflexivity | exact IH]. Qed.

Lemma delimRe_classOnly (o c : text) : classOnly (delimRe o c) = true.
Proof.
  unfold delimRe, classOnly. rewrite !forallb_app.
  fold (classOnly (word o)). fold (classOnly (word c)).
  rewrite !word_classOnly. reflexivity.
Qed.

(** Every match the loop reports stands in the text. *)
Lemma execLoop_within (re : regexp) :
  forall n prev s ps,
    In ps (execLoop n re prev s) ->
    exists pre rest,
      s = pre ++ concat ps ++ rest
      /\ Matches re (lastOf prev pre) (concat ps ++ rest) ps rest.
Proof.
  induction n as [|n IH]; intros prev s ps H; [destruct H|].
  simpl in H. destruct (exec re prev s) as [m|] eqn:E; [|destruct H].
  apply exec_inv in E as (mid & Hs & Hr). apply run_sound in Hr.
  pose proof (Matches_concat _ _ _ _ _ Hr) as Hmid.
  destruct H as [<- | H].
  - exists (skipped m), (after m). rewrite <- Hmid. auto.
  - apply IH in H as (pre & rest & Ha & Hm).
    exists (skipped m ++ matched m ++ pre), rest. split.
    + rewrite Hs, Hmid, Ha. unfold matched. rewrite <- !app_assoc. reflexivity.
    + rewrite app_assoc, lastOf_app. exact Hm.
Qed.

Lemma skipn_nth {A : Type} (d : A) :
  forall i (l : list A), i < length l -> skipn i l = nth i l d :: skipn (S i) l.
Proof.
  induction i as [|i IH]; intros [|x l] H; simpl in H; try lia; [reflexivity|].
  apply (IH l). lia.
Qed.

Lemma run_delim_inv (o c : text) (prev : option ascii) (s : text)
    (ps : list text) (rest : text) :
  run (delimRe o c) prev s = Some (ps, rest) ->
  exists body, s = o ++ body ++ c ++ rest.
Proof.
  unfold delimRe. intros H.
  apply run_word_inv in H as (s' & ps' & -> & _ & H).
  change (run ([Cls Many0Lazy anyChar] ++ word c) (lastOf prev o) s')
    with (lazy (run (word c)) anyChar (lastOf prev o) s') in H.
  apply lazy_inv in H as (p & s'' & ps'' & _ & -> & _ & H).
  rewrite <- (app_nil_r (word c)) in H.
  apply run_word_inv in H as (s3 & ps3 & -> & _ & H).
  simpl in H. injection H as _ <-. exists p. reflexivity.
Qed.

Lemma run_delim_some (o c : text) (prev : option ascii) (body rest : text) :
  (forall b1 b2, body = b1 ++ b2 -> b2 <> [] ->
                 startsWith c (b2 ++ c ++ rest) = false) ->
  run (delimRe o c) prev (o ++ body ++ c ++ rest)
  = Some (singles o ++ [body] ++ singles c, rest).
Proof.
  intros Hmin. unfold delimRe. rewrite run_word.
  change (run ([Cls Many0Lazy anyChar] ++ word c) (lastOf prev o) (body ++ c ++ rest))
    with (lazy (run (word c)) anyChar (lastOf prev o) (body ++ c ++ rest)).
  rewrite (lazy_shortest (run (word c)) anyChar (lastOf prev o) body (c ++ rest)
             (singles c) rest).
  - reflexivity.
  - apply forallb_forall. reflexivity.
  - intros a b -> Hb. rewrite <- (app_nil_r (word c)).
    apply run_word_starts. apply (Hmin a b eq_refl Hb).
  - rewrite <- (app_nil_r (word c)), run_word. simpl. rewrite app_nil_r. reflexivity.
Qed.

(** The leftmost marked text is removed, and the search resumes after
    it. *)
Lemma replace_delim (o c : text) (a body b : text) :
  o <> [] ->
  (forall a1 a2, a = a1 ++ a2 -> a2 <> [] ->
                 startsWith o (a2 ++ o ++ body ++ c ++ b) = false) ->
  (forall b1 b2, body = b1 ++ b2 -> b2 <> [] ->
                 startsWith c (b2 ++ c ++ b) = false) ->
  replaceAll (delimRe o c) [] (a ++ o ++ body ++ c ++ b)
  = a ++ replaceAll (delimRe o c) [] b.
Proof.
  intros Ho Hpre Hmin. rewrite replaceAll_from. generalize (@None ascii).
  induction a as [|x a IH]; intros prev.
  - simpl. rewrite (replaceFrom_hit _ [] prev _ _ _ (run_delim_some o c prev body b Hmin)).
    + simpl. apply replaceFrom_all, delimRe_classOnly.
    + rewrite concat_app, concat_singles. destruct o; [congruence | discriminate].
  - simpl. rewrite replaceFrom_skip.
    + f_equal. apply IH. intros a1 a2 -> Ha2. apply (Hpre (x :: a1) a2 eq_refl Ha2).
    + apply run_word_starts. apply (Hpre [] (x :: a) eq_refl). discriminate.
Qed.

(** A text without a complete marked text is left as it is. *)
Lemma replace_delim_none (o c : text) (s : text) :
  (forall a body t, s <> a ++ o ++ body ++ c ++ t) ->
  replaceAll (delimRe o c) [] s = s.
Proof.
  intros H. rewrite replaceAll_from. apply replaceFrom_untouched.
  intros a b -> prev.
  destruct (run (delimRe o c) prev b) as [[ps rest]|] eqn:R; [|reflexivity].
  apply run_delim_inv in R as (body & ->). exfalso. exact (H a body rest eq_refl).
Qed.

Lemma includes_app_mid (a w b : text) : includes (a ++ w ++ b) w = true.
Proof. apply includes_spec. exists a, b. reflexivity. Qed.

Lemma css_opener_first (a x : text) :
  includes a (lit "/*") = false ->
  forall a1 a2, a = a1 ++ a2 -> a2 <> [] ->
                startsWith (lit "/*") (a2 ++ lit "/*" ++ x) = false.
Proof.
  intros H a1 a2 -> Hne. destruct a2 as [|y [|z a3]]; [congruence| |].
  - cbn [app startsWith lit list_ascii_of_string]. destruct (eqChar "/" y); reflexivity.
  - cbn [app startsWith lit list_ascii_of_string]. destruct (eqChar "/" y) eqn:Ey; [|reflexivity].
    destruct (eqChar "*" z) eqn:Ez; [|reflexivity].
    apply eqChar_true in Ey, Ez. subst y z.
    pose proof (includes_app_mid a1 (lit "/*") a3) as T.
    cbn [app lit list_ascii_of_string] in T, H. congruence.
Qed.

Lemma css_closer_first (body x : text) :
  includes body (lit "*/") = false ->
  forall b1 b2, body = b1 ++ b2 -> b2 <> [] ->
                startsWith (lit "*/") (b2 ++ lit "*/" ++ x) = false.
Proof.
  intros H b1 b2 -> Hne. destruct b2 as [|y [|z b3]]; [congruence| |].
  - cbn [app startsWith lit list_ascii_of_string]. destruct (eqChar "*" y); reflexivity.
  - cbn [app startsWith lit list_ascii_of_string]. destruct (eqChar "*" y) eqn:Ey; [|reflexivity].
    destruct (eqChar "/" z) eqn:Ez; [|reflexivity].
    apply eqChar_true in Ey, Ez. subst y z.
    pose proof (includes_app_mid b1 (lit "*/") b3) as T.
    cbn [app lit list_ascii_of_string] in T, H. congruence.
Qed.

Lemma html_opener_first (a x : text) :
  includes a (lit "<!--") = false ->
  forall a1 a2, a = a1 ++ a2 -> a2 <> [] ->
                startsWith (lit "<!--") (a2 ++ lit "<!--" ++ x) = false.
Proof.
  intros H a1 a2 -> Hne.
  destruct a2 as [|y1 [|y2 [|y3 [|y4 a3]]]]; [congruence| | | |];
    cbn [app startsWith lit list_ascii_of_string].
  - destruct (eqChar "<" y1); reflexivity.
  - destruct (eqChar "<" y1); [|reflexivity]. destruct (eqChar "!" y2); reflexivity.
  - destruct (eqChar "<" y1); [|reflexivity]. destruct (eqChar "!" y2); [|reflexivity].
    destruct (eqChar "-" y3); reflexivity.
  - destruct (eqChar "<" y1) eqn:E1; [|reflexivity].
    destruct (eqChar "!" y2) eqn:E2; [|reflexivity].
    destruct (eqChar "-" y3) eqn:E3; [|reflexivity].
    destruct (eqChar "-" y4) eqn:E4; [|reflexivity].
    apply eqChar_true in E1, E2, E3, E4. subst.
    pose proof (includes_app_mid a1 (lit "<!--") a3) as T.
    cbn [app lit list_ascii_of_string] in T, H. congruence.
Qed.

Lemma html_closer_first (body x : text) :
  includes body (lit "-->") = false ->
  forall b1 b2, body = b1 ++ b2 -> b2 <> [] ->
                startsWith (lit "-->") (b2 ++ lit "-->" ++ x) = false.
Proof.
  intros H b1 b2 -> Hne.
  destruct b2 as [|y1 [|y2 [|y3 b3]]]; [congruence| | |];
    cbn [app startsWith lit list_ascii_of_string].
  - destruct (eqChar "-" y1); reflexivity.
  - destruct (eqChar "-" y1); [|reflexivity]. destruct (eqChar "-" y2); reflexivity.
  - destruct (eqChar "-" y1) eqn:E1; [|reflexivity].
    destruct (eqChar "-" y2) eqn:E2; [|reflexivity].
    destruct (eqChar ">" y3) eqn:E3; [|reflexivity].
    apply eqChar_true in E1, E2, E3. subst.
    pose proof (includes_app_mid b1 (lit "-->") b3) as T.
    cbn [app lit list_ascii_of_string] in T, H. congruence.
Qed.

(* ===================================================================== *)
(** * Further properties: comments *)
(* ===================================================================== *)

Lemma strip_first_comment (a body b : text) :
  includes a (lit "/*") = false -> includes body (lit "*/") = false ->
  stripCssComments (a ++ lit "/*" ++ body ++ lit "*/" ++ b)
  = a ++ stripCssComments b.
Proof.
  intros Ha Hb.
  apply (replace_delim (lit "/*") (lit "*/") a body b); [discriminate | |].
  - apply css_opener_first, Ha.
  - apply css_closer_first, Hb.
Qed.

(** X1. [stripCssComments] leaves a text without complete comment as it
    is (an unterminated comment stays), and otherwise removes the
    leftmost comment, up to its first closing mark, and carries on with
    what follows. *)
Theorem stripCssComments_equations :
  (forall s, (forall a body t, s <> a ++ lit "/*" ++ body ++ lit "*/" ++ t) ->
             stripCssComments s = s)
  /\ (forall a body b,
        includes a (lit "/*") = false -> includes body (lit "*/") = false ->
        stripCssComments (a ++ lit "/*" ++ body ++ lit "*/" ++ b)
        = a ++ stripCssComments b).
Proof.
  split.
  - intros s H. apply (replace_delim_none (lit "/*") (lit "*/") s H).
  - intros a body b Ha Hb.
    apply (replace_delim (lit "/*") (lit "*/") a body b); [discriminate | |].
    + apply css_opener_first, Ha.
    + apply css_closer_first, Hb.
Qed.

Lemma stripCssComments_equations_witness :
  (forall a body t, lit "a{} /* open" <> a ++ lit "/*" ++ body ++ lit "*/" ++ t)
  /\ stripCssComments (lit "a{} /* open") = lit "a{} /* open"
  /\ stripCssComments (lit "p{}/* x */q{}") = lit "p{}" ++ stripCssComments (lit "q{}").
Proof.
  assert (H : forall a body t,
             lit "a{} /* open" <> a ++ lit "/*" ++ body ++ lit "*/" ++ t).
  { intros a body t E.
    assert (T : includes (lit "a{} /* open") (lit "*/") = true).
    { rewrite E. apply includes_spec. exists (a ++ lit "/*" ++ body), t.
      rewrite <- !app_assoc. reflexivity. }
    vm_compute in T. discriminate T. }
  split; [exact H|]. split.
  - exact (proj1 stripCssComments_equations _ H).
  - exact (proj2 stripCssComments_equations (lit "p{}") (lit " x ") (lit "q{}")
             eq_refl eq_refl).
Defined.

(** X2. [stripHtmlComments] removes the leftmost comment up to its first
    closing mark and carries on after it, so that what a comment holds
    has no influence on the hrefs that [findCssHrefs] reports. *)
Theorem stripHtmlComments_equations :
  (forall s, (forall a body t, s <> a ++ lit "<!--" ++ body ++ lit "-->" ++ t) ->
             stripHtmlComments s = s)
  /\ (forall a body b,
        includes a (lit "<!--") = false -> includes body (lit "-->") = false ->
        stripHtmlComments (a ++ lit "<!--" ++ body ++ lit "-->" ++ b)
        = a ++ stripHtmlComments b)
  /\ (forall a body body' b,
        includes a (lit "<!--") = false ->
        includes body (lit "-->") = false -> includes body' (lit "-->") = false ->
        findCssHrefs (a ++ lit "<!--" ++ body ++ lit "-->" ++ b)
        = findCssHrefs (a ++ lit "<!--" ++ body' ++ lit "-->" ++ b)).
Proof.
  assert (E : forall a body b,
             includes a (lit "<!--") = false -> includes body (lit "-->") = false ->
             stripHtmlComments (a ++ lit "<!--" ++ body ++ lit "-->" ++ b)
             = a ++ stripHtmlComments b).
  { intros a body b Ha Hb.
    apply (replace_delim (lit "<!--") (lit "-->") a body b); [discriminate | |].
    - apply html_opener_first, Ha.
    - apply html_closer_first, Hb. }
  split; [|split; [exact E|]].
  - intros s H. apply (replace_delim_none (lit "<!--") (lit "-->") s H).
  - intros a body body' b Ha Hb Hb'. unfold findCssHrefs.
    rewrite (E a body b Ha Hb), (E a body' b Ha Hb'). reflexivity.
Qed.

Lemma stripHtmlComments_equations_witness :
  stripHtmlComments (lit "<p><!-- <link rel='stylesheet' href='x.css'> --></p>")
  = lit "<p>" ++ stripHtmlComments (lit "</p>")
  /\ findCssHrefs (lit "<p><!-- <link rel='stylesheet' href='x.css'> --></p>")
     = findCssHrefs (lit "<p><!----></p>").
Proof.
  split.
  - exact (proj1 (proj2 stripHtmlComments_equations) (lit "<p>")
             (lit " <link rel='stylesheet' href='x.css'> ") (lit "</p>")
             eq_refl eq_refl).
  - exact (proj2 (proj2 stripHtmlComments_equations) (lit "<p>")
             (lit " <link rel='stylesheet' href='x.css'> ") [] (lit "</p>")
             eq_refl eq_refl eq_refl).
Defined.

(* ===================================================================== *)
(** * Further properties: normal forms and the extracted rules *)
(* ===================================================================== *)

Lemma lowerChar_idem (c : ascii) : lowerChar (lowerChar c) = lowerChar c.
Proof. destruct c as [[] [] [] [] [] [] [] []]; reflexivity. Qed.

Lemma toLowerCase_idem (s : text) : toLowerCase (toLowerCase s) = toLowerCase s.
Proof.
  unfold toLowerCase. rewrite map_map. apply map_ext. exact lowerChar_idem.
Qed.

Lemma toLowerCase_collapse (s : text) :
  toLowerCase (collapseWs s) = collapseWs (toLowerCase s).
Proof.
  unfold collapseWs. induction s as [|c t IH]; [reflexivity|].
  cbn [toLowerCase map replaceRuns]. rewrite isSpace_lowerChar.
  destruct (isSpace c).
  - destruct t as [|c' t']; [reflexivity|].
    cbn [map]. rewrite isSpace_lowerChar. destruct (isSpace c').
    + exact IH.
    + change (toLowerCase (lit " " ++ replaceRuns (lit " ") (c' :: t'))
              = lit " " ++ replaceRuns (lit " ") (toLowerCase (c' :: t'))).
      unfold toLowerCase at 1. rewrite map_app. fold (toLowerCase (replaceRuns (lit " ") (c' :: t'))).
      rewrite IH. reflexivity.
  - cbn [map]. fold (toLowerCase (replaceRuns (lit " ") t)). rewrite IH. reflexivity.
Qed.

Lemma collapseWs_idem (s : text) : collapseWs (collapseWs s) = collapseWs s.
Proof.
  unfold collapseWs. induction s as [|c t IH]; [reflexivity|].
  cbn [replaceRuns]. destruct (isSpace c) eqn:Hc.
  - destruct t as [|c' t']; [reflexivity|].
    destruct (isSpace c') eqn:Hc'; [exact IH|].
    cbn [replaceRuns] in *. rewrite Hc' in *.
    change (lit " " ++ c' :: replaceRuns (lit " ") t')
      with (" "%char :: c' :: replaceRuns (lit " ") t').
    cbn [replaceRuns]. rewrite Hc'.
    change (isSpace " ") with true. cbv iota.
    change (replaceRuns (lit " ") (c' :: replaceRuns (lit " ") t'))
      with (if isSpace c'
            then match replaceRuns (lit " ") t' with
                 | c'' :: _ => if isSpace c''
                               then replaceRuns (lit " ") (replaceRuns (lit " ") t')
                               else lit " " ++ replaceRuns (lit " ") (replaceRuns (lit " ") t')
                 | [] => lit " "
                 end
            else c' :: replaceRuns (lit " ") (replaceRuns (lit " ") t')) in *.
    rewrite Hc' in *. rewrite IH. reflexivity.
  - cbn [replaceRuns]. rewrite Hc, IH. reflexivity.
Qed.

Lemma trimEnd_idem (s : text) : trimEnd (trimEnd s) = trimEnd s.
Proof.
  induction s as [|c t IH]; [reflexivity|].
  rewrite trimEnd_cons. destruct (trimEnd t) as [|x r] eqn:E.
  - destruct (isSpace c) eqn:Hc; [reflexivity|].
    rewrite trimEnd_cons, trimEnd_nil, Hc. reflexivity.
  - rewrite trimEnd_cons, IH. reflexivity.
Qed.

Lemma trimStart_head (s : text) (x : ascii) (r : text) :
  trimStart s = x :: r -> isSpace x = false.
Proof.
  unfold trimStart. induction s as [|c t IH]; [discriminate|].
  simpl. destruct (isSpace c) eqn:Hc; [exact IH|]. intros E. injection E as <- _. exact Hc.
Qed.

Lemma trim_idem (s : text) : trim (trim s) = trim s.
Proof.
  unfold trim. destruct (trimStart s) as [|x r] eqn:E; [reflexivity|].
  pose proof (trimStart_head s x r E) as Hx.
  destruct (trimEnd (x :: r)) as [|y q] eqn:E2; [reflexivity|].
  pose proof (trimEnd_head _ _ _ _ E2) as ->.
  rewrite trimStart_id by exact Hx. rewrite <- E2. apply trimEnd_idem.
Qed.

Lemma specNormalize_idem (s : text) : specNormalize (specNormalize s) = specNormalize s.
Proof.
  unfold specNormalize. set (u := toLowerCase (trim s)).
  assert (Hu1 : trim u = u)
    by (unfold u; rewrite <- toLowerCase_trim, trim_idem; reflexivity).
  assert (Hu2 : toLowerCase u = u) by (unfold u; apply toLowerCase_idem).
  rewrite trim_collapse, Hu1, toLowerCase_collapse, Hu2, collapseWs_idem.
  reflexivity.
Qed.

Lemma specNormalize_lower (s : text) : toLowerCase (specNormalize s) = specNormalize s.
Proof.
  unfold specNormalize. rewrite toLowerCase_collapse, toLowerCase_idem. reflexivity.
Qed.

Lemma specNormalize_trim (s : text) : trim (specNormalize s) = specNormalize s.
Proof.
  unfold specNormalize. rewrite trim_collapse, <- toLowerCase_trim, trim_idem.
  reflexivity.
Qed.

(** ** The characters of a normal form *)

Lemma dropWhile_In (f : ascii -> bool) (s : text) (c : ascii) :
  In c (dropWhile f s) -> In c s.
Proof.
  induction s as [|x t IH]; [auto|]. simpl. destruct (f x); [|auto].
  intros H. right. apply IH, H.
Qed.

Lemma trim_In (s : text) (c : ascii) : In c (trim s) -> In c s.
Proof.
  unfold trim, trimEnd, trimStart. intros H. apply in_rev in H.
  apply dropWhile_In in H. apply in_rev in H. apply dropWhile_In in H. exact H.
Qed.

Lemma replaceRuns_In (by_ s : text) (c : ascii) :
  In c (replaceRuns by_ s) -> In c by_ \/ In c s.
Proof.
  induction s as [|x t IH]; [auto|]. cbn [replaceRuns].
  destruct (isSpace x).
  - destruct t as [|x' t']; [auto|]. destruct (isSpace x').
    + intros H. destruct (IH H) as [H1 | H1]; [auto | right; right; exact H1].
    + intros H. apply in_app_or in H as [H | H]; [auto|].
      destruct (IH H) as [H1 | H1]; [auto | right; right; exact H1].
  - intros [<- | H]; [right; left; reflexivity|].
    destruct (IH H) as [H1 | H1]; [auto | right; right; exact H1].
Qed.

(** A character of a normal form is a space or the lower case of a
    character of the text. *)
Lemma specNormalize_In (s : text) (c : ascii) :
  In c (specNormalize s) -> c = " "%char \/ exists y, In y s /\ c = lowerChar y.
Proof.
  unfold specNormalize, collapseWs. intros H.
  apply replaceRuns_In in H as [[<- | []] | H]; [left; reflexivity|].
  right. unfold toLowerCase in H. apply in_map_iff in H as (y & <- & Hy).
  exists y. split; [apply trim_In, Hy | reflexivity].
Qed.

Lemma lowerChar_comma (y : ascii) : lowerChar y = ","%char -> y = ","%char.
Proof. destruct y as [[] [] [] [] [] [] [] []]; intros H; first [reflexivity | discriminate H]. Qed.

Lemma lowerChar_open (y : ascii) : lowerChar y = "{"%char -> y = "{"%char.
Proof. destruct y as [[] [] [] [] [] [] [] []]; intros H; first [reflexivity | discriminate H]. Qed.

Lemma lowerChar_close (y : ascii) : lowerChar y = "}"%char -> y = "}"%char.
Proof. destruct y as [[] [] [] [] [] [] [] []]; intros H; first [reflexivity | discriminate H]. Qed.

Lemma Spans_wf (s : text) (l : list (text * text)) :
  Spans s l ->
  Forall (fun b => fst b <> [] /\ forallb notBrace (fst b) = true
                   /\ forallb notClose (snd b) = true) l.
Proof.
  induction 1 as [|junk sel decl rest l Hj Hne Hsel Hdecl Hs IH]; constructor; auto.
Qed.

Lemma split_In (sep : ascii) (s : text) (p : text) (c : ascii) :
  In p (split sep s) -> In c p -> In c s.
Proof.
  revert p. induction s as [|x t IH]; intros p Hp Hc.
  - simpl in Hp. destruct Hp as [<- | []]. destruct Hc.
  - simpl in Hp. destruct (eqChar x sep).
    + destruct Hp as [<- | Hp]; [destruct Hc|]. right. eapply IH; eassumption.
    + destruct (split sep t) as [|q qs] eqn:E.
      * destruct Hp as [<- | []]. destruct Hc as [<- | []]. left. reflexivity.
      * destruct Hp as [<- | Hp].
        -- destruct Hc as [<- | Hc]; [left; reflexivity|].
           right. apply (IH q); [left; reflexivity | exact Hc].
        -- right. apply (IH p); [right; exact Hp | exact Hc].
Qed.

Lemma forallb_not_In (f : ascii -> bool) (s : text) (c : ascii) :
  forallb f s = true -> f c = false -> ~ In c s.
Proof.
  intros H Hc Hin. rewrite forallb_forall in H. rewrite (H c Hin) in Hc. discriminate.
Qed.

(** X3. Normalising is idempotent: a selector or declaration text in
    normal form is lower case, has no whitespace at either end, and is
    not changed by normalising again; so a string query finds the same
    rules whether or not it is given in normal form. *)
Theorem normalizeSelector_idempotent (s : text) :
  normalizeSelector (normalizeSelector s) = normalizeSelector s
  /\ normalizeDecls (normalizeDecls s) = normalizeDecls s
  /\ toLowerCase (normalizeSelector s) = normalizeSelector s
  /\ trim (normalizeSelector s) = normalizeSelector s
  /\ (forall rules,
        findMatchingRules rules (MString (normalizeSelector s))
        = findMatchingRules rules (MString s)).
Proof.
  rewrite ?normalizeDecls_spec, ?normalizeSelector_spec.
  repeat split; try apply specNormalize_idem.
  - apply specNormalize_lower.
  - apply specNormalize_trim.
  - intros rules. unfold findMatchingRules.
    rewrite ?normalizeSelector_spec, specNormalize_idem. reflexivity.
Qed.

(** X4. Every extracted rule is in normal form: its selector and its
    declarations are fixed points of the normalisers, the selector holds
    no comma and no brace, and the declarations hold no closing brace. *)
Theorem parseCssRules_normal_forms (cssText : text) :
  Forall (fun r =>
            normalizeSelector (selector r) = selector r
            /\ normalizeDecls (decls r) = decls r
            /\ ~ In ","%char (selector r)
            /\ ~ In "{"%char (selector r) /\ ~ In "}"%char (selector r)
            /\ ~ In "}"%char (decls r))
         (parseCssRules cssText).
Proof.
  rewrite parseCssRules_blocks. apply Forall_forall. intros r Hr.
  apply in_flat_map in Hr as ([sel decl] & Hb & Hr).
  pose proof (Spans_wf _ _ (Spans_blocksOf (stripCssComments cssText))) as W.
  rewrite Forall_forall in W. destruct (W _ Hb) as (_ & Hsel & Hdecl). simpl in Hsel, Hdecl.
  unfold emit in Hr. simpl in Hr. apply in_map_iff in Hr as (p & <- & Hp).
  apply filter_In in Hp as [Hp _]. apply in_map_iff in Hp as (piece & <- & Hpiece).
  simpl. rewrite ?normalizeSelector_spec, ?normalizeDecls_spec, !specNormalize_idem.
  split; [reflexivity | split; [reflexivity|]].
  assert (Hchar : forall c, In c (specNormalize piece) ->
                    c = " "%char \/ exists y, In y sel /\ c = lowerChar y).
  { intros c Hc. apply specNormalize_In in Hc as [Hc | (y & Hy & Hc)]; [auto|].
    right. exists y. split; [eapply split_In; eassumption | exact Hc]. }
  repeat split.
  - intros Hc. apply specNormalize_In in Hc as [Hc | (y & Hy & Hc)]; [discriminate|].
    symmetry in Hc. apply lowerChar_comma in Hc. subst y.
    pose proof (split_no_sep "," sel) as N. rewrite Forall_forall in N.
    specialize (N piece Hpiece). revert Hy. apply forallb_not_In with (f := fun c => negb (eqChar c ",")); [exact N | reflexivity].
  - intros Hc. apply Hchar in Hc as [Hc | (y & Hy & Hc)]; [discriminate|].
    symmetry in Hc. apply lowerChar_open in Hc. subst y.
    revert Hy. apply (forallb_not_In notBrace); [exact Hsel | reflexivity].
  - intros Hc. apply Hchar in Hc as [Hc | (y & Hy & Hc)]; [discriminate|].
    symmetry in Hc. apply lowerChar_close in Hc. subst y.
    revert Hy. apply (forallb_not_In notBrace); [exact Hsel | reflexivity].
  - intros Hc. apply specNormalize_In in Hc as [Hc | (y & Hy & Hc)]; [discriminate|].
    symmetry in Hc. apply lowerChar_close in Hc. subst y.
    revert Hy. apply (forallb_not_In notClose); [exact Hdecl | reflexivity].
Qed.

(* ===================================================================== *)
(** * Further properties: one rule, parsed and looked up *)
(* ===================================================================== *)

Lemma dropWhile_nil (f : ascii -> bool) (s : text) :
  dropWhile f s = [] -> forallb f s = true.
Proof.
  induction s as [|c t IH]; [reflexivity|]. simpl.
  destruct (f c); [exact IH | discriminate].
Qed.

Lemma dropWhile_first (f : ascii -> bool) (s : text) (x : ascii) (r : text) :
  dropWhile f s = x :: r -> f x = false.
Proof.
  induction s as [|c t IH]; [discriminate|]. simpl.
  destruct (f c) eqn:E; [exact IH|]. intros H. injection H as -> _. exact E.
Qed.

Lemma trim_nil (s : text) : trim s = [] -> forallb isSpace s = true.
Proof.
  unfold trim, trimStart. intros H.
  destruct (dropWhile isSpace s) as [|x r] eqn:E; [apply dropWhile_nil, E|].
  apply dropWhile_first in E. rewrite trimEnd_cons, E in H.
  destruct (trimEnd r); discriminate H.
Qed.

Lemma specNormalize_nil (s : text) :
  specNormalize s = [] <-> forallb isSpace s = true.
Proof.
  unfold specNormalize, collapseWs. split.
  - intros H. apply trim_nil.
    destruct (trim s) as [|x r] eqn:E; [reflexivity|]. exfalso.
    revert H. apply replaceRuns_nonempty; discriminate.
  - intros H. rewrite (trim_spaces s H). reflexivity.
Qed.

Lemma strip_no_opener (s : text) :
  includes s (lit "/*") = false -> stripCssComments s = s.
Proof.
  intros H. apply (replace_delim_none (lit "/*") (lit "*/")). intros a body t E.
  rewrite E, includes_app_mid in H. discriminate H.
Qed.

Lemma blocksOf_single (sel decl : text) :
  sel <> [] -> forallb notBrace sel = true -> forallb notClose decl = true ->
  blocksOf (sel ++ "{"%char :: decl ++ ["}"%char]) = [(sel, decl)].
Proof.
  intros Hne Hsel Hdecl. symmetry. apply Spans_unique.
  apply (Spans_block [] sel decl [] [] Junk_nil Hne Hsel Hdecl).
  apply (Spans_end [] [] Junk_nil). apply Tail_text. reflexivity.
Qed.

(** X5. A stylesheet that is one rule, with a selector without comma or
    brace that is not blank and declarations without closing brace, and
    with no comment opener anywhere, parses to exactly one rule, the
    normalised selector with the normalised declarations; looking the
    selector up as written finds that rule. *)
Theorem parse_then_find (sel decl : text) :
  forallb notBrace sel = true ->
  forallb (fun c => negb (eqChar c ",")) sel = true ->
  forallb isSpace sel = false ->
  forallb notClose decl = true ->
  includes (sel ++ "{"%char :: decl ++ ["}"%char]) (lit "/*") = false ->
  parseCssRules (sel ++ "{"%char :: decl ++ ["}"%char])
  = [{| selector := normalizeSelector sel; decls := normalizeDecls decl |}]
  /\ findMatchingRules (parseCssRules (sel ++ "{"%char :: decl ++ ["}"%char]))
       (MString sel)
     = [{| selector := normalizeSelector sel; decls := normalizeDecls decl |}].
Proof.
  intros Hsel Hcomma Hblank Hdecl Hopen.
  assert (Hn : specNormalize sel <> []).
  { intros E. apply specNormalize_nil in E. congruence. }
  assert (Hne : sel <> []) by (intros ->; discriminate Hblank).
  assert (P : parseCssRules (sel ++ "{"%char :: decl ++ ["}"%char])
              = [{| selector := normalizeSelector sel; decls := normalizeDecls decl |}]).
  { rewrite parseCssRules_blocks, (strip_no_opener _ Hopen),
      (blocksOf_single sel decl Hne Hsel Hdecl).
    cbn [flat_map app]. unfold emit. cbn [fst snd].
    rewrite (split_one "," sel Hcomma). cbn [map filter].
    rewrite ?normalizeSelector_spec, ?normalizeDecls_spec.
    destruct (specNormalize sel) as [|x r] eqn:E; [congruence|]. reflexivity. }
  split; [exact P|]. rewrite P. cbn [findMatchingRules filter selector].
  assert (E : eqText (normalizeSelector sel) (normalizeSelector sel) = true)
    by (apply eqText_true; reflexivity).
  rewrite E. reflexivity.
Qed.

Lemma parse_then_find_witness :
  parseCssRules (lit " P.Winner { COLOR : Red }")
  = [{| selector := normalizeSelector (lit " P.Winner ");
        decls := normalizeDecls (lit " COLOR : Red ") |}]
  /\ findMatchingRules (parseCssRules (lit " P.Winner { COLOR : Red }"))
       (MString (lit " P.Winner "))
     = [{| selector := normalizeSelector (lit " P.Winner ");
           decls := normalizeDecls (lit " COLOR : Red ") |}].
Proof.
  exact (parse_then_find (lit " P.Winner ") (lit " COLOR : Red ")
           eq_refl eq_refl eq_refl eq_refl eq_refl).
Defined.

(* ===================================================================== *)
(** * Further properties: the marks as a function of the rules *)
(* ===================================================================== *)

Lemma rules_present (code : text) :
  isEmptyCss code = false -> rules (Some code) = parseCssRules code.
Proof. intros H. unfold rules, cssEmpty, hasCss, cssCode. rewrite H. reflexivity. Qed.

Lemma status_present_neq (Number : text -> option Q)
    (execSync : Command -> option text) (code : text) :
  isEmptyCss code = false -> status Number execSync (Some code) <> 2%Z.
Proof.
  intros H. rewrite (status_present Number execSync code H).
  destruct (wasSubmittedLate Number execSync); discriminate.
Qed.

Lemma specEarned_present (Number : text -> option Q)
    (execSync : Command -> option text) (code : text) (t : Task) :
  isEmptyCss code = false ->
  specEarned (taskResult Number execSync (Some code) t)
  = (inject_Z (weightOf todoWeights (id t))
     * specFraction (requirements t (parseCssRules code)))%Q.
Proof.
  intros H. unfold specEarned.
  rewrite (taskResult_reqs Number execSync (Some code) t
             (status_present_neq Number execSync code H)), (rules_present code H).
  reflexivity.
Qed.

Lemma bucket_present (Number : text -> option Q)
    (execSync : Command -> option text) (code : text) :
  isEmptyCss code = false ->
  earnedTodoMarks Number execSync (Some code) tasks
  = Math_round (80 * earnedOf (parseCssRules code) / 112)%Q.
Proof.
  intros H. rewrite earnedTodoMarks_spec. unfold specBucket, earnedOf, taskResults.
  rewrite map_map.
  rewrite (map_ext _ _ (fun t => specEarned_present Number execSync code t H)).
  reflexivity.
Qed.

Lemma Math_round_mono (x y : Q) : (x <= y)%Q -> (Math_round x <= Math_round y)%Z.
Proof.
  intros H. unfold Math_round. apply Qfloor_resp_le.
  apply Qplus_le_compat; [exact H | apply Qle_refl].
Qed.

(** ** More rules *)

Lemma findMatchingRules_incl (rules rules' : list Rule) (q : Matcher) :
  incl rules rules' ->
  incl (findMatchingRules rules q) (findMatchingRules rules' q).
Proof.
  intros H r Hr. apply findMatchingRules_In in Hr as [Hr Hq].
  apply findMatchingRules_In. split; [apply H, Hr | exact Hq].
Qed.

Lemma hasRule_In (rules : list Rule) (q : Matcher) :
  hasRule rules q = true <-> exists r, In r (findMatchingRules rules q).
Proof.
  unfold hasRule. destruct (findMatchingRules rules q) as [|r l]; simpl.
  - split; [discriminate | intros [r []]].
  - split; [intros _; exists r; left; reflexivity | reflexivity].
Qed.

Lemma hasRule_mono (rules rules' : list Rule) (q : Matcher) :
  incl rules rules' -> hasRule rules q = true -> hasRule rules' q = true.
Proof.
  intros H Hr. apply hasRule_In in Hr as [r Hr]. apply hasRule_In.
  exists r. apply (findMatchingRules_incl _ _ q H), Hr.
Qed.

Lemma existsb_incl {A : Type} (f : A -> bool) (l l' : list A) :
  incl l l' -> existsb f l = true -> existsb f l' = true.
Proof.
  intros H Hl. apply existsb_exists in Hl as (x & Hx & Hf).
  apply existsb_exists. exists x. split; [apply H, Hx | exact Hf].
Qed.

Lemma ruleSatisfies_mono (rules rules' : list Rule) (q : Matcher) (o : Options) :
  incl rules rules' ->
  ruleSatisfies rules q o = true -> ruleSatisfies rules' q o = true.
Proof.
  intros H. rewrite !ruleSatisfies_existsb.
  apply existsb_incl, findMatchingRules_incl, H.
Qed.

Lemma andb_mono (a a' b b' : bool) :
  (a = true -> a' = true) -> (b = true -> b' = true) ->
  a && b = true -> a' && b' = true.
Proof. destruct a, b; simpl; intros Ha Hb H; try discriminate H. rewrite Ha, Hb; reflexivity. Qed.

Lemma orb_mono (a a' b b' : bool) :
  (a = true -> a' = true) -> (b = true -> b' = true) ->
  a || b = true -> a' || b' = true.
Proof.
  destruct a, b; simpl; intros Ha Hb H; try discriminate H;
    try rewrite Ha by reflexivity; try rewrite Hb by reflexivity;
    try reflexivity; apply orb_true_r.
Qed.

Lemma tasks_improve (rules rules' : list Rule) :
  incl rules rules' ->
  Forall (fun t => improves (requirements t rules) (requirements t rules')) tasks.
Proof.
  intros H. unfold tasks.
  repeat (apply Forall_cons;
          [cbn [requirements task1 task2 task3 task4 task5 task6 task7 task8 task9];
           unfold todo1, todo2, todo3, todo4, todo5, todo6, todo7, todo8, todo9;
           repeat match goal with
             | |- improves _ _ => unfold improves
             | |- Forall2 _ (_ :: _) (_ :: _) => constructor
             | |- Forall2 _ [] [] => constructor
             | |- _ /\ _ => split; [reflexivity|]
             | |- ok _ = true -> ok _ = true => cbn [ok req]
             | |- (_ && _) = true -> _ => apply andb_mono
             | |- (_ || _) = true -> _ => apply orb_mono
             | |- hasRule _ _ = true -> hasRule _ _ = true =>
                 apply hasRule_mono; assumption
             | |- ruleSatisfies _ _ _ = true -> ruleSatisfies _ _ _ = true =>
                 apply ruleSatisfies_mono; assumption
             | |- existsb _ _ = true -> existsb _ _ = true =>
                 apply existsb_incl, findMatchingRules_incl; assumption
             end|]).
  apply Forall_nil.
Qed.

Lemma improves_counts (reqs reqs' : list Req) :
  improves reqs reqs' ->
  totalCount reqs = totalCount reqs' /\ satisfiedCount reqs <= satisfiedCount reqs'.
Proof.
  unfold totalCount. induction 1 as [|r r' l l' [_ Hr] _ [IH1 IH2]]; [split; reflexivity|].
  simpl. split; [congruence|].
  destruct (ok r); [rewrite (Hr eq_refl); lia | destruct (ok r'); lia].
Qed.

Lemma ofNat_le (a b : nat) : a <= b -> (ofNat a <= ofNat b)%Q.
Proof. intros H. unfold ofNat. rewrite <- Zle_Qle. lia. Qed.

Lemma ofNat_pos (n : nat) : 0 < n -> (0 < ofNat n)%Q.
Proof. intros H. unfold ofNat. change 0%Q with (inject_Z 0). rewrite <- Zlt_Qlt. lia. Qed.

Lemma specFraction_mono (reqs reqs' : list Req) :
  improves reqs reqs' -> (specFraction reqs <= specFraction reqs')%Q.
Proof.
  intros H. apply improves_counts in H as [Ht Hs]. unfold specFraction.
  rewrite <- Ht. destruct (totalCount reqs) as [|n] eqn:E; [apply Qle_refl|].
  unfold Qdiv. apply Qmult_le_compat_r; [apply ofNat_le, Hs|].
  apply Qinv_le_0_compat, Qlt_le_weak, ofNat_pos. lia.
Qed.

Lemma sumQ_mono {A : Type} (f g : A -> Q) (l : list A) :
  Forall (fun x => f x <= g x)%Q l -> (sumQ (map f l) <= sumQ (map g l))%Q.
Proof.
  induction 1 as [|x l Hx _ IH]; [apply Qle_refl|].
  cbn [map sumQ]. apply Qplus_le_compat; assumption.
Qed.

Lemma inject_weight_nonneg (i : string) : (0 <= inject_Z (weightOf todoWeights i))%Q.
Proof. change 0%Q with (inject_Z 0). rewrite <- Zle_Qle. apply weightOf_nonneg. Qed.

Lemma earnedOf_mono (rules rules' : list Rule) :
  incl rules rules' -> (earnedOf rules <= earnedOf rules')%Q.
Proof.
  intros H. unfold earnedOf. apply sumQ_mono.
  pose proof (tasks_improve rules rules' H) as T.
  rewrite Forall_forall in T. apply Forall_forall. intros t Ht.
  rewrite !(Qmult_comm (inject_Z _)).
  apply Qmult_le_compat_r; [apply specFraction_mono, T, Ht | apply inject_weight_nonneg].
Qed.

Lemma scaled_mono (x y : Q) : (x <= y)%Q -> (80 * x / 112 <= 80 * y / 112)%Q.
Proof.
  intros H. unfold Qdiv. apply Qmult_le_compat_r; [|discriminate].
  rewrite !(Qmult_comm 80). apply Qmult_le_compat_r; [exact H | discriminate].
Qed.

(** X6. More rules never cost marks. A query that finds a rule, or is
    satisfied, in a list of rules is so in every list that contains it;
    hence, of two stylesheets with text, the second parsing to at least
    the rules of the first, the second satisfies every requirement the
    first satisfies and gets at least its bucket and its total. *)
Theorem more_rules_never_cost (Number : text -> option Q)
    (execSync : Command -> option text) (css css' : text) :
  isEmptyCss css = false -> isEmptyCss css' = false ->
  incl (parseCssRules css) (parseCssRules css') ->
  (forall q o, ruleSatisfies (parseCssRules css) q o = true ->
               ruleSatisfies (parseCssRules css') q o = true)
  /\ Forall2 (fun r r' => improves (tr_reqs r) (tr_reqs r'))
       (taskResults Number execSync (Some css) tasks)
       (taskResults Number execSync (Some css') tasks)
  /\ (earnedTodoMarks Number execSync (Some css) tasks
      <= earnedTodoMarks Number execSync (Some css') tasks)%Z
  /\ (totalEarned Number execSync (Some css) tasks
      <= totalEarned Number execSync (Some css') tasks)%Z.
Proof.
  intros He He' Hincl.
  assert (HB : (earnedTodoMarks Number execSync (Some css) tasks
                <= earnedTodoMarks Number execSync (Some css') tasks)%Z).
  { rewrite (bucket_present _ _ css He), (bucket_present _ _ css' He').
    apply Math_round_mono, scaled_mono, earnedOf_mono, Hincl. }
  split; [intros q o; apply ruleSatisfies_mono, Hincl|].
  split; [|split; [exact HB|]].
  - unfold taskResults.
    pose proof (tasks_improve _ _ Hincl) as T. clear HB.
    induction T as [|t l Ht _ IH]; [constructor|].
    cbn [map]. constructor; [|exact IH].
    rewrite (taskResult_reqs Number execSync (Some css) t
               (status_present_neq Number execSync css He)),
      (taskResult_reqs Number execSync (Some css') t
         (status_present_neq Number execSync css' He')),
      (rules_present css He), (rules_present css' He').
    exact Ht.
  - unfold totalEarned, submissionMarks.
    rewrite (status_present Number execSync css He),
      (status_present Number execSync css' He').
    apply Z.min_le_compat_r. lia.
Qed.

Lemma more_rules_never_cost_witness :
  (earnedTodoMarks decimalNumber noGit (Some (lit "p{color:red}")) tasks
   <= earnedTodoMarks decimalNumber noGit
        (Some (lit "p{color:red} span{color:red}")) tasks)%Z.
Proof.
  refine (proj1 (proj2 (proj2 (more_rules_never_cost decimalNumber noGit
            (lit "p{color:red}") (lit "p{color:red} span{color:red}")
            eq_refl eq_refl _)))).
  intros r [<- | []]. left. reflexivity.
Defined.

(** ** The two ends of the bucket *)

Lemma satisfied_all (reqs : list Req) :
  forallb (fun r => ok r) reqs = true -> satisfiedCount reqs = totalCount reqs.
Proof.
  unfold totalCount. induction reqs as [|r l IH]; [reflexivity|]. simpl.
  destruct (ok r); [|discriminate]. intros H. rewrite (IH H). reflexivity.
Qed.

Lemma satisfied_not_all (reqs : list Req) :
  forallb (fun r => ok r) reqs = false -> satisfiedCount reqs < totalCount reqs.
Proof.
  unfold totalCount. induction reqs as [|r l IH]; [discriminate|]. simpl.
  pose proof (satisfiedCount_le l) as L. unfold totalCount in L.
  destruct (ok r); simpl; [intros H; specialize (IH H); lia | lia].
Qed.

Lemma satisfied_none (reqs : list Req) :
  forallb (fun r => negb (ok r)) reqs = true -> satisfiedCount reqs = 0.
Proof.
  induction reqs as [|r l IH]; [reflexivity|]. simpl.
  destruct (ok r); [discriminate | exact IH].
Qed.

Lemma satisfied_some (reqs : list Req) :
  forallb (fun r => negb (ok r)) reqs = false -> 0 < satisfiedCount reqs.
Proof.
  induction reqs as [|r l IH]; [discriminate|]. simpl.
  destruct (ok r); simpl; [lia | exact IH].
Qed.

Lemma specFraction_all (reqs : list Req) :
  0 < totalCount reqs -> forallb (fun r => ok r) reqs = true ->
  (specFraction reqs == 1)%Q.
Proof.
  intros Hn H. unfold specFraction. rewrite (satisfied_all reqs H).
  destruct (totalCount reqs) as [|n]; [lia|].
  apply Qmult_inv_r. intros E. pose proof (ofNat_pos (S n)) as P.
  rewrite E in P. apply (Qlt_irrefl 0), P. lia.
Qed.

(** A task that misses a requirement loses at least 7/5 of weight, and a
    task that meets one earns at least 7/5, when its weight is at least
    7/5 per requirement. *)
Lemma earned_upper (w : Z) (reqs : list Req) :
  (7 * Z.of_nat (totalCount reqs) <= 5 * w)%Z ->
  forallb (fun r => ok r) reqs = false ->
  (inject_Z w * specFraction reqs <= inject_Z w - (7 # 5))%Q.
Proof.
  intros Hw H. apply satisfied_not_all in H. unfold specFraction.
  destruct (totalCount reqs) as [|n] eqn:E; [lia|].
  unfold Qdiv. rewrite Qmult_assoc. apply Qle_shift_div_r; [apply ofNat_pos; lia|].
  unfold ofNat, Qle, Qmult, Qminus, Qplus, Qopp, inject_Z. simpl. nia.
Qed.

Lemma earned_lower (w : Z) (reqs : list Req) :
  (7 * Z.of_nat (totalCount reqs) <= 5 * w)%Z ->
  forallb (fun r => negb (ok r)) reqs = false ->
  (7 # 5 <= inject_Z w * specFraction reqs)%Q.
Proof.
  intros Hw H. apply satisfied_some in H. unfold specFraction.
  pose proof (satisfiedCount_le reqs) as L.
  destruct (totalCount reqs) as [|n] eqn:E; [lia|].
  unfold Qdiv. rewrite Qmult_assoc. apply Qle_shift_div_l; [apply ofNat_pos; lia|].
  unfold ofNat, Qle, Qmult, Qminus, Qplus, Qopp, inject_Z. simpl. nia.
Qed.

Lemma sumQ_upper {A : Type} (g W : A -> Q) (d : Q) (l : list A) (x0 : A) :
  Forall (fun x => g x <= W x)%Q l -> In x0 l -> (g x0 <= W x0 - d)%Q ->
  (sumQ (map g l) <= sumQ (map W l) - d)%Q.
Proof.
  intros H Hin Hd. induction H as [|x l Hx Hl IH]; [destruct Hin|].
  cbn [map sumQ]. destruct Hin as [-> | Hin].
  - pose proof (sumQ_mono g W l Hl) as M. lra.
  - specialize (IH Hin). lra.
Qed.

Lemma sumQ_lower {A : Type} (g : A -> Q) (d : Q) (l : list A) (x0 : A) :
  Forall (fun x => 0 <= g x)%Q l -> In x0 l -> (d <= g x0)%Q ->
  (d <= sumQ (map g l))%Q.
Proof.
  intros H Hin Hd. induction H as [|x l Hx Hl IH]; [destruct Hin|].
  cbn [map sumQ].
  assert (P : (0 <= sumQ (map g l))%Q).
  { clear IH Hin. induction Hl as [|y l Hy _ IH]; cbn [map sumQ]; lra. }
  destruct Hin as [-> | Hin]; [lra | specialize (IH Hin); lra].
Qed.

Lemma sumQ_ext {A : Type} (g h : A -> Q) (l : list A) :
  Forall (fun x => g x == h x)%Q l -> (sumQ (map g l) == sumQ (map h l))%Q.
Proof.
  induction 1 as [|x l Hx _ IH]; [reflexivity|]. cbn [map sumQ].
  rewrite Hx, IH. reflexivity.
Qed.

Lemma tasks_heavy (rules : list Rule) :
  Forall (fun t => 0 < totalCount (requirements t rules)
                   /\ (7 * Z.of_nat (totalCount (requirements t rules))
                       <= 5 * weightOf todoWeights (id t))%Z) tasks.
Proof.
  unfold tasks.
  repeat (apply Forall_cons;
          [cbv [requirements task1 task2 task3 task4 task5 task6 task7 task8 task9
                todo1 todo2 todo3 todo4 todo5 todo6 todo7 todo8 todo9
                totalCount length id];
           split; [lia | vm_compute; discriminate]|]).
  apply Forall_nil.
Qed.

Lemma tasks_weights :
  (sumQ (map (fun t => inject_Z (weightOf todoWeights (id t))) tasks) == 112)%Q.
Proof. vm_compute. reflexivity. Qed.

Lemma earnedOf_range (rules : list Rule) :
  (0 <= earnedOf rules)%Q /\ (earnedOf rules <= 112)%Q.
Proof.
  unfold earnedOf. split.
  - assert (Z0 : (sumQ (map (fun _ : Task => 0%Q) tasks) == 0)%Q)
      by (vm_compute; reflexivity).
    rewrite <- Z0. apply sumQ_mono, Forall_forall. intros t _.
    apply Qmult_le_0_compat; [apply inject_weight_nonneg | apply specFraction_range].
  - rewrite <- tasks_weights. apply sumQ_mono, Forall_forall. intros t _.
    rewrite <- (Qmult_1_r (inject_Z (weightOf todoWeights (id t)))) at 2.
    rewrite !(Qmult_comm (inject_Z _)).
    apply Qmult_le_compat_r; [apply specFraction_range | apply inject_weight_nonneg].
Qed.

Lemma earnedOf_full (rules : list Rule) :
  forallb (fun t => forallb (fun r => ok r) (requirements t rules)) tasks = true ->
  (earnedOf rules == 112)%Q.
Proof.
  intros H. unfold earnedOf. rewrite <- tasks_weights. apply sumQ_ext.
  rewrite forallb_forall in H. pose proof (tasks_heavy rules) as T.
  rewrite Forall_forall in T. apply Forall_forall. intros t Ht.
  rewrite (specFraction_all _ (proj1 (T t Ht)) (H t Ht)). apply Qmult_1_r.
Qed.

Lemma earnedOf_not_full (rules : list Rule) :
  forallb (fun t => forallb (fun r => ok r) (requirements t rules)) tasks = false ->
  (earnedOf rules <= 112 - (7 # 5))%Q.
Proof.
  intros H.
  assert (E : exists t, In t tasks
                        /\ forallb (fun r => ok r) (requirements t rules) = false).
  { induction tasks as [|t l IH]; [discriminate|]. simpl in H.
    apply andb_false_iff in H as [H | H].
    - exists t. split; [left; reflexivity | exact H].
    - destruct (IH H) as (t' & Ht' & H'). exists t'. split; [right; exact Ht' | exact H']. }
  destruct E as (t0 & Hin & H0). unfold earnedOf. rewrite <- tasks_weights.
  pose proof (tasks_heavy rules) as T. rewrite Forall_forall in T.
  apply (sumQ_upper _ _ _ _ t0); [|exact Hin|].
  - apply Forall_forall. intros t _.
    rewrite <- (Qmult_1_r (inject_Z (weightOf todoWeights (id t)))) at 2.
    rewrite !(Qmult_comm (inject_Z _)).
    apply Qmult_le_compat_r; [apply specFraction_range | apply inject_weight_nonneg].
  - apply earned_upper; [apply (T t0 Hin) | exact H0].
Qed.

Lemma earnedOf_empty (rules : list Rule) :
  forallb (fun t => forallb (fun r => negb (ok r)) (requirements t rules)) tasks = true ->
  (earnedOf rules == 0)%Q.
Proof.
  intros H. unfold earnedOf.
  assert (Z0 : (sumQ (map (fun _ : Task => 0%Q) tasks) == 0)%Q)
    by (vm_compute; reflexivity).
  rewrite <- Z0. apply sumQ_ext. rewrite forallb_forall in H.
  apply Forall_forall. intros t Ht.
  rewrite (specFraction_none _ (satisfied_none _ (H t Ht))). apply Qmult_0_r.
Qed.

Lemma earnedOf_not_empty (rules : list Rule) :
  forallb (fun t => forallb (fun r => negb (ok r)) (requirements t rules)) tasks = false ->
  (7 # 5 <= earnedOf rules)%Q.
Proof.
  intros H.
  assert (E : exists t, In t tasks
                        /\ forallb (fun r => negb (ok r)) (requirements t rules) = false).
  { induction tasks as [|t l IH]; [discriminate|]. simpl in H.
    apply andb_false_iff in H as [H | H].
    - exists t. split; [left; reflexivity | exact H].
    - destruct (IH H) as (t' & Ht' & H'). exists t'. split; [right; exact Ht' | exact H']. }
  destruct E as (t0 & Hin & H0). unfold earnedOf.
  pose proof (tasks_heavy rules) as T. rewrite Forall_forall in T.
  apply (sumQ_lower _ _ _ t0); [|exact Hin|].
  - apply Forall_forall. intros t _.
    apply Qmult_le_0_compat; [apply inject_weight_nonneg | apply specFraction_range].
  - apply earned_lower; [apply (T t0 Hin) | exact H0].
Qed.

Lemma results_reqs (Number : text -> option Q) (execSync : Command -> option text)
    (code : text) (P : list Req -> Prop) :
  isEmptyCss code = false ->
  Forall (fun r => P (tr_reqs r)) (taskResults Number execSync (Some code) tasks)
  <-> Forall (fun t => P (requirements t (parseCssRules code))) tasks.
Proof.
  intros H. unfold taskResults. rewrite Forall_map.
  split; apply Forall_impl; intros t;
    rewrite (taskResult_reqs Number execSync (Some code) t
               (status_present_neq Number execSync code H)), (rules_present code H);
    auto.
Qed.

Lemma forallb_ext {A : Type} (f g : A -> bool) :
  (forall x, f x = g x) -> forall l, forallb f l = forallb g l.
Proof.
  intros H l. induction l as [|x l IH]; [reflexivity|]. simpl.
  rewrite H, IH. reflexivity.
Qed.

Lemma forallb_Forall2 {A B : Type} (f : B -> bool) (g : A -> list B) (v : bool)
    (l : list A) :
  forallb (fun t => forallb (fun r => Bool.eqb (f r) v) (g t)) l = true
  <-> Forall (fun t => Forall (fun r => f r = v) (g t)) l.
Proof.
  rewrite forallb_forall, Forall_forall. split; intros H t Ht.
  - apply Forall_forall. intros r Hr. specialize (H t Ht).
    rewrite forallb_forall in H. apply Bool.eqb_prop, H, Hr.
  - apply forallb_forall. intros r Hr. specialize (H t Ht).
    rewrite Forall_forall in H. rewrite (H r Hr). apply Bool.eqb_reflx.
Qed.

(** X7. The two ends of the bucket. For a stylesheet with text, the
    bucket is 80 exactly when every requirement of every task is
    satisfied, 0 exactly when none is, and strictly between otherwise:
    no rounding hides a missed requirement or a satisfied one. *)
Theorem bucket_extremes (Number : text -> option Q)
    (execSync : Command -> option text) (css : text) :
  isEmptyCss css = false ->
  (earnedTodoMarks Number execSync (Some css) tasks = 80%Z
   <-> Forall (fun r => Forall (fun q => ok q = true) (tr_reqs r))
         (taskResults Number execSync (Some css) tasks))
  /\ (earnedTodoMarks Number execSync (Some css) tasks = 0%Z
      <-> Forall (fun r => Forall (fun q => ok q = false) (tr_reqs r))
            (taskResults Number execSync (Some css) tasks))
  /\ (0 <= earnedTodoMarks Number execSync (Some css) tasks <= 80)%Z.
Proof.
  intros He.
  rewrite (results_reqs Number execSync css (Forall (fun q => ok q = true)) He),
    (results_reqs Number execSync css (Forall (fun q => ok q = false)) He),
    (bucket_present Number execSync css He).
  set (R := parseCssRules css).
  rewrite <- (forallb_Forall2 (fun q => ok q) (fun t => requirements t R) true),
    <- (forallb_Forall2 (fun q => ok q) (fun t => requirements t R) false).
  assert (Et : forall l : list Req,
             forallb (fun r => Bool.eqb (ok r) true) l = forallb (fun r => ok r) l).
  { apply forallb_ext. intros r. destruct (ok r); reflexivity. }
  assert (Ef : forall l : list Req,
             forallb (fun r => Bool.eqb (ok r) false) l
             = forallb (fun r => negb (ok r)) l).
  { apply forallb_ext. intros r. destruct (ok r); reflexivity. }
  rewrite (forallb_ext _ _ (fun t => Et (requirements t R)) tasks),
    (forallb_ext _ _ (fun t => Ef (requirements t R)) tasks).
  clear Et Ef.
  pose proof (earnedOf_range R) as [R0 R1].
  split; [|split].
  - destruct (forallb (fun t => forallb (fun r => ok r) (requirements t R)) tasks) eqn:A.
    + split; [reflexivity|]. intros _.
      rewrite (Math_round_comp _ 80%Q); [reflexivity|].
      rewrite (earnedOf_full R A). reflexivity.
    + split; [|discriminate]. intros E. exfalso.
      pose proof (earnedOf_not_full R A) as U.
      assert (L : (Math_round (80 * earnedOf R / 112) <= 79)%Z).
      { apply Math_round_le.
        apply Qle_trans with (80 * (112 - (7 # 5)) / 112)%Q;
          [apply scaled_mono, U | vm_compute; discriminate]. }
      lia.
  - destruct (forallb (fun t => forallb (fun r => negb (ok r)) (requirements t R)) tasks)
      eqn:A.
    + split; [reflexivity|]. intros _.
      rewrite (Math_round_comp _ 0%Q); [reflexivity|].
      rewrite (earnedOf_empty R A). reflexivity.
    + split; [|discriminate]. intros E. exfalso.
      pose proof (earnedOf_not_empty R A) as U.
      assert (L : (1 <= Math_round (80 * earnedOf R / 112))%Z).
      { apply Math_round_ge.
        apply Qle_trans with (80 * (7 # 5) / 112)%Q;
          [vm_compute; discriminate | apply scaled_mono, U]. }
      lia.
  - split.
    + apply Math_round_ge.
      apply Qle_trans with (80 * 0 / 112)%Q;
        [vm_compute; discriminate | apply scaled_mono, R0].
    + apply Math_round_le.
      apply Qle_trans with (80 * 112 / 112)%Q;
        [apply scaled_mono, R1 | vm_compute; discriminate].
Qed.

Lemma bucket_extremes_witness :
  earnedTodoMarks decimalNumber noGit (Some (lit ".nothing { top: 0 }")) tasks = 0%Z
  <-> Forall (fun r => Forall (fun q => ok q = false) (tr_reqs r))
        (taskResults decimalNumber noGit (Some (lit ".nothing { top: 0 }")) tasks).
Proof.
  exact (proj1 (proj2 (bucket_extremes decimalNumber noGit
                         (lit ".nothing { top: 0 }") eq_refl))).
Defined.

(** ** The status component *)

Lemma total_present (Number : text -> option Q) (execSync : Command -> option text)
    (code : text) :
  isEmptyCss code = false ->
  totalEarned Number execSync (Some code) tasks
  = (Math_round (80 * earnedOf (parseCssRules code) / 112)%Q
     + (if wasSubmittedLate Number execSync then 10 else 20))%Z.
Proof.
  intros H. pose proof (tasks_bucket_range Number execSync (Some code)) as B.
  unfold totalEarned, submissionMarks.
  rewrite (status_present Number execSync code H).
  rewrite (bucket_present Number execSync code H) in *. unfold TOTAL_MAX.
  destruct (wasSubmittedLate Number execSync); cbn [Z.eqb Pos.eqb]; lia.
Qed.

Lemma status_missing_b (Number : text -> option Q)
    (execSync : Command -> option text) (linkedCss : option text) :
  (status Number execSync linkedCss =? 2)%Z
  = negb (hasCss linkedCss) || cssEmpty linkedCss.
Proof.
  unfold status. destruct (negb (hasCss linkedCss) || cssEmpty linkedCss);
    [reflexivity|]. destruct (late Number execSync); reflexivity.
Qed.

Lemma taskResult_history (Number Number' : text -> option Q)
    (execSync execSync' : Command -> option text) (linkedCss : option text)
    (t : Task) :
  taskResult Number execSync linkedCss t = taskResult Number' execSync' linkedCss t.
Proof. unfold taskResult. rewrite !status_missing_b. reflexivity. Qed.

(** X8. The commit history bears on the grade only through lateness.
    Whatever the [git] commands answer, a located stylesheet gets the
    same result for every task and the same bucket, and is MISSING or
    not alike; two runs that agree on [wasSubmittedLate] get the same
    status and the same total; and for a stylesheet with text the total
    is the bucket plus 20, or plus 10 when the run is late. *)
Theorem history_counts_only_through_lateness (Number Number' : text -> option Q)
    (execSync execSync' : Command -> option text) (linkedCss : option text) :
  taskResults Number execSync linkedCss tasks
  = taskResults Number' execSync' linkedCss tasks
  /\ earnedTodoMarks Number execSync linkedCss tasks
     = earnedTodoMarks Number' execSync' linkedCss tasks
  /\ (status Number execSync linkedCss = 2%Z
      <-> status Number' execSync' linkedCss = 2%Z)
  /\ (wasSubmittedLate Number execSync = wasSubmittedLate Number' execSync' ->
      status Number execSync linkedCss = status Number' execSync' linkedCss
      /\ totalEarned Number execSync linkedCss tasks
         = totalEarned Number' execSync' linkedCss tasks)
  /\ (forall css,
        linkedCss = Some css -> isEmptyCss css = false ->
        totalEarned Number execSync linkedCss tasks
        = (earnedTodoMarks Number execSync linkedCss tasks
           + (if wasSubmittedLate Number execSync then 10 else 20))%Z).
Proof.
  assert (T : taskResults Number execSync linkedCss tasks
              = taskResults Number' execSync' linkedCss tasks).
  { unfold taskResults. apply map_ext. intros t. apply taskResult_history. }
  assert (B : earnedTodoMarks Number execSync linkedCss tasks
              = earnedTodoMarks Number' execSync' linkedCss tasks).
  { unfold earnedTodoMarks, earnedWeightTotal. rewrite !status_missing_b, T.
    reflexivity. }
  split; [exact T | split; [exact B | split; [|split]]].
  - rewrite <- !Z.eqb_eq, !status_missing_b. reflexivity.
  - intros H.
    assert (S : status Number execSync linkedCss
                = status Number' execSync' linkedCss)
      by (unfold status, late; rewrite H; reflexivity).
    split; [exact S|]. unfold totalEarned, submissionMarks. rewrite S, B.
    reflexivity.
  - intros css -> He.
    rewrite (total_present Number execSync css He),
      (bucket_present Number execSync css He).
    reflexivity.
Qed.

Lemma history_counts_only_through_lateness_witness :
  totalEarned decimalNumber (gitLog lateHistory) (Some scenarioA) tasks
  = totalEarned decimalNumber noGit (Some scenarioA) tasks.
Proof.
  refine (proj2 (proj1 (proj2 (proj2 (proj2
            (history_counts_only_through_lateness decimalNumber decimalNumber
               (gitLog lateHistory) noGit (Some scenarioA))))) _)).
  vm_compute. reflexivity.
Defined.

(** X9. A run scores 0 exactly when it is MISSING: a stylesheet with
    text always gets at least the ten marks of a late submission,
    whatever it holds. *)
Theorem total_zero_iff_missing (Number : text -> option Q)
    (execSync : Command -> option text) (linkedCss : option text) :
  totalEarned Number execSync linkedCss tasks = 0%Z
  <-> status Number execSync linkedCss = 2%Z.
Proof.
  pose proof (tasks_bucket_range Number execSync linkedCss) as B.
  assert (M : status Number execSync linkedCss = 2%Z ->
              earnedTodoMarks Number execSync linkedCss tasks = 0%Z).
  { intros E. unfold earnedTodoMarks. rewrite E. reflexivity. }
  unfold totalEarned, submissionMarks, TOTAL_MAX.
  set (b := earnedTodoMarks Number execSync linkedCss tasks) in *.
  destruct (status_cases Number execSync linkedCss) as [E | [E | E]];
    rewrite E in *; cbn [Z.eqb Pos.eqb]; split; intros H;
    try specialize (M eq_refl); lia.
Qed.

(** ** What the grade reads of the stylesheet *)

Lemma taskResult_strip (Number : text -> option Q) (execSync : Command -> option text)
    (c1 c2 : text) (t : Task) :
  stripCssComments c1 = stripCssComments c2 ->
  taskResult Number execSync (Some c1) t = taskResult Number execSync (Some c2) t.
Proof.
  intros H.
  unfold taskResult, status, rules, cssEmpty, hasCss, cssCode, isEmptyCss, parseCssRules.
  rewrite H. reflexivity.
Qed.

Lemma status_strip (Number : text -> option Q) (execSync : Command -> option text)
    (c1 c2 : text) :
  stripCssComments c1 = stripCssComments c2 ->
  status Number execSync (Some c1) = status Number execSync (Some c2).
Proof.
  intros H. unfold status, cssEmpty, hasCss, cssCode, isEmptyCss.
  rewrite H. reflexivity.
Qed.

Lemma run_strip (Number : text -> option Q) (execSync : Command -> option text)
    (c1 c2 : text) :
  stripCssComments c1 = stripCssComments c2 ->
  status Number execSync (Some c1) = status Number execSync (Some c2)
  /\ taskResults Number execSync (Some c1) tasks
     = taskResults Number execSync (Some c2) tasks
  /\ totalEarned Number execSync (Some c1) tasks
     = totalEarned Number execSync (Some c2) tasks.
Proof.
  intros H. pose proof (status_strip Number execSync c1 c2 H) as S.
  assert (T : taskResults Number execSync (Some c1) tasks
              = taskResults Number execSync (Some c2) tasks).
  { unfold taskResults. apply map_ext. intros t. apply taskResult_strip, H. }
  split; [exact S | split; [exact T|]].
  unfold totalEarned, earnedTodoMarks, earnedWeightTotal, submissionMarks.
  rewrite S, T. reflexivity.
Qed.

(** X10. What a comment holds does not count. Two stylesheets that
    differ only by the text of their first comment get the same status,
    the same result for every task and the same total; in particular
    rules inside a comment earn nothing. *)
Theorem comment_text_does_not_count (Number : text -> option Q)
    (execSync : Command -> option text) (a body body' b : text) :
  includes a (lit "/*") = false ->
  includes body (lit "*/") = false -> includes body' (lit "*/") = false ->
  status Number execSync (Some (a ++ lit "/*" ++ body ++ lit "*/" ++ b))
  = status Number execSync (Some (a ++ lit "/*" ++ body' ++ lit "*/" ++ b))
  /\ taskResults Number execSync (Some (a ++ lit "/*" ++ body ++ lit "*/" ++ b)) tasks
     = taskResults Number execSync (Some (a ++ lit "/*" ++ body' ++ lit "*/" ++ b)) tasks
  /\ totalEarned Number execSync (Some (a ++ lit "/*" ++ body ++ lit "*/" ++ b)) tasks
     = totalEarned Number execSync (Some (a ++ lit "/*" ++ body' ++ lit "*/" ++ b)) tasks.
Proof.
  intros Ha Hb Hb'. apply run_strip.
  rewrite (strip_first_comment a body b Ha Hb),
    (strip_first_comment a body' b Ha Hb').
  reflexivity.
Qed.

Lemma comment_text_does_not_count_witness :
  totalEarned decimalNumber noGit
    (Some (lit ".x { top: 0 } /* p { color: red } */ span { color: blue }")) tasks
  = totalEarned decimalNumber noGit
      (Some (lit ".x { top: 0 } /**/ span { color: blue }")) tasks.
Proof.
  refine (proj2 (proj2 (comment_text_does_not_count decimalNumber noGit
            (lit ".x { top: 0 } ") (lit " p { color: red } ") []
            (lit " span { color: blue }") _ _ _))); vm_compute; reflexivity.
Defined.

(* ===================================================================== *)
(** * Further properties: the student ID *)
(* ===================================================================== *)

Lemma orText_nonempty (a b : text) : b <> [] -> orText a b <> [].
Proof. unfold orText. destruct a; simpl; [auto | discriminate]. Qed.

Lemma orText_left (a b : text) : a <> [] -> orText a b = a.
Proof. unfold orText. destruct a; simpl; [congruence | reflexivity]. Qed.

Lemma orText_nil (b : text) : orText [] b = b.
Proof. reflexivity. Qed.

Lemma split_after (sep : ascii) (a s : text) :
  exists p ps, split sep (a ++ sep :: s) = (p :: ps) ++ split sep s.
Proof.
  induction a as [|x a IH]; cbn [app split].
  - rewrite eqChar_refl. exists [], []. reflexivity.
  - destruct IH as (p & ps & ->). destruct (eqChar x sep).
    + exists [], (p :: ps). reflexivity.
    + exists (x :: p), ps. reflexivity.
Qed.

Lemma last_app_nonempty {A : Type} (l m : list A) (d : A) :
  m <> [] -> last (l ++ m) d = last m d.
Proof.
  intros H. induction l as [|x l IH]; [reflexivity|].
  cbn [app]. destruct (l ++ m) as [|y r] eqn:E; [|exact IH].
  destruct l; [cbn in E; congruence | discriminate E].
Qed.

Lemma last_split_after (sep : ascii) (a s : text) :
  forallb (fun ch => negb (eqChar ch sep)) s = true ->
  last (split sep (a ++ sep :: s)) [] = s.
Proof.
  intros H. destruct (split_after sep a s) as (p & ps & ->).
  rewrite (split_one sep s H). apply (last_app_nonempty (p :: ps) [s]). discriminate.
Qed.

Lemma includes_mid (a : text) (c : ascii) (b : text) : includes (a ++ c :: b) [c] = true.
Proof. apply includes_spec. exists a, b. reflexivity. Qed.

Lemma forallb_app_sep (sep : ascii) (a b : text) :
  forallb (fun ch => negb (eqChar ch sep)) a = true ->
  forallb (fun ch => negb (eqChar ch sep)) b = true ->
  forallb (fun ch => negb (eqChar ch sep)) (a ++ b) = true.
Proof. intros Ha Hb. rewrite forallb_app, Ha, Hb. reflexivity. Qed.

Lemma repoName_of (org name : text) :
  forallb (fun ch => negb (eqChar ch "/")) org = true ->
  forallb (fun ch => negb (eqChar ch "/")) name = true ->
  nth 1 (split "/" (org ++ "/"%char :: name)) [] = name.
Proof.
  intros Ho Hn. rewrite (split_app "/" org name Ho), (split_one "/" name Hn).
  reflexivity.
Qed.

(** X11. The student ID is never empty. A non-empty [STUDENT_USERNAME]
    wins; without it, for a repository [org/prefix-suffix], the ID is
    what follows the last hyphen of the repository name, and when
    nothing follows it and no actor is set, the whole repository name. *)
Theorem getStudentId_cases (env : Env) :
  getStudentId env <> []
  /\ (forall u, STUDENT_USERNAME env = Some u -> u <> [] -> getStudentId env = u)
  /\ (forall org prefix suffix,
        envVar (STUDENT_USERNAME env) = [] ->
        GITHUB_REPOSITORY env = Some (org ++ "/"%char :: prefix ++ "-"%char :: suffix) ->
        forallb (fun ch => negb (eqChar ch "/")) org = true ->
        forallb (fun ch => negb (eqChar ch "/")) (prefix ++ "-"%char :: suffix) = true ->
        forallb (fun ch => negb (eqChar ch "-")) suffix = true ->
        (suffix <> [] -> getStudentId env = suffix)
        /\ (suffix = [] -> envVar (GITHUB_ACTOR env) = [] ->
            getStudentId env = prefix ++ ["-"%char])).
Proof.
  split; [|split].
  - unfold getStudentId. repeat apply orText_nonempty. discriminate.
  - intros u Hu Hne. unfold getStudentId. rewrite Hu. apply orText_left, Hne.
  - intros org prefix suffix Hs Hr Ho Hn Hsuf. unfold getStudentId.
    rewrite Hs, Hr, orText_nil. cbn [envVar].
    assert (Hfull : orText (org ++ "/"%char :: prefix ++ "-"%char :: suffix) []
                    = org ++ "/"%char :: prefix ++ "-"%char :: suffix).
    { apply orText_left. destruct org; discriminate. }
    rewrite Hfull. change (lit "/") with ["/"%char].
    rewrite (includes_mid org "/" (prefix ++ "-"%char :: suffix)).
    rewrite (repoName_of org (prefix ++ "-"%char :: suffix) Ho Hn).
    change (lit "-") with ["-"%char]. rewrite (includes_mid prefix "-" suffix).
    assert (Hne : nonEmpty (prefix ++ "-"%char :: suffix) = true)
      by (destruct prefix; reflexivity).
    rewrite Hne. cbn [andb]. rewrite (last_split_after "-" prefix suffix Hsuf).
    split.
    + intros Hx. apply orText_left, Hx.
    + intros -> Ha. rewrite Ha, !orText_nil. apply orText_left.
      destruct prefix; discriminate.
Qed.

Lemma getStudentId_cases_witness :
  getStudentId {| GITHUB_REPOSITORY := Some (lit "org/3-1-css-basics-zeyd92");
                  STUDENT_USERNAME := None; GITHUB_ACTOR := Some (lit "bot") |}
  = lit "zeyd92".
Proof.
  refine (proj1 (proj2 (proj2 (getStudentId_cases
            {| GITHUB_REPOSITORY := Some (lit "org/3-1-css-basics-zeyd92");
               STUDENT_USERNAME := None; GITHUB_ACTOR := Some (lit "bot") |}))
            (lit "org") (lit "3-1-css-basics") (lit "zeyd92")
            eq_refl eq_refl eq_refl eq_refl eq_refl) _).
  discriminate.
Defined.

(* ===================================================================== *)
(** * Further properties: the stylesheet links *)
(* ===================================================================== *)

Lemma fits_once (f : ascii -> bool) (prev : option ascii) (p next : text) :
  fits (Cls Once f) prev p next -> exists c, p = [c] /\ f c = true.
Proof. intros H. exact H. Qed.

(** X12. Every href that [findCssHrefs] reports is a non-empty text
    without quote character that stands between two quote characters,
    of either kind each, in the page with its comments removed. *)
Theorem findCssHrefs_between_quotes (html : text) :
  Forall (fun href =>
            href <> [] /\ forallb notQuote href = true
            /\ exists pre q1 q2 post,
                 isQuote q1 = true /\ isQuote q2 = true
                 /\ stripHtmlComments html = pre ++ q1 :: href ++ q2 :: post)
         (findCssHrefs html).
Proof.
  apply Forall_forall. intros href H. unfold findCssHrefs in H.
  apply in_map_iff in H as (ps & <- & H). unfold matchAll in H.
  apply execLoop_within in H as (pre & rest & Hs & Hm).
  pose proof (Matches_length _ _ _ _ _ Hm) as Hlen.
  change (length linkRe) with 40 in Hlen.
  destruct (Matches_nth _ _ _ _ _ 35 _ Hm eq_refl) as (p1 & n1 & F1).
  destruct (Matches_nth _ _ _ _ _ 36 _ Hm eq_refl) as (p2 & n2 & F2).
  destruct (Matches_nth _ _ _ _ _ 37 _ Hm eq_refl) as (p3 & n3 & F3).
  apply fits_once in F1 as (q1 & E1 & Q1). apply fits_once in F3 as (q2 & E3 & Q2).
  destruct F2 as [Hne Hall]. split; [exact Hne | split; [exact Hall|]].
  exists (pre ++ concat (firstn 35 ps)), q1, q2, (concat (skipn 38 ps) ++ rest).
  split; [exact Q1 | split; [exact Q2|]].
  unfold text in *. rewrite Hs. rewrite <- (firstn_skipn 35 ps) at 1.
  rewrite (skipn_nth [] 35 ps), (skipn_nth [] 36 ps), (skipn_nth [] 37 ps) by lia.
  rewrite E1, E3, concat_app. cbn [concat app]. rewrite <- !app_assoc.
  cbn [app]. rewrite <- !app_assoc. reflexivity.
Qed.

(** ** Anchored literals *)

Lemma exec_bol (re : regexp) (s : text) (c : ascii) : exec (Bol :: re) (Some c) s = None.
Proof.
  revert c. induction s as [|x t IH]; intros c; [reflexivity|].
  cbn [exec run]. rewrite IH. reflexivity.
Qed.

Lemma lastOf_none (pre : text) : lastOf None pre = None -> pre = [].
Proof.
  unfold lastOf. destruct (rev pre) eqn:E; [|discriminate]. intros _.
  rewrite <- (rev_involutive pre), E. reflexivity.
Qed.

Lemma Matches_bol (re : regexp) (prev : option ascii) (s : text)
    (ps : list text) (rest : text) :
  Matches (Bol :: re) prev s ps rest ->
  prev = None /\ exists ps', ps = [] :: ps' /\ Matches re None s ps' rest.
Proof.
  destruct ps as [|p ps']; [intros []|]. intros (s' & -> & [-> ->] & H).
  split; [reflexivity|]. exists ps'. split; [reflexivity | exact H].
Qed.

Lemma test_bol (re : regexp) (s : text) :
  test (Bol :: re) s = true <-> exists ps rest, Matches re None s ps rest.
Proof.
  rewrite test_spec. split.
  - intros (pre & mid & ps & rest & -> & H).
    apply Matches_bol in H as (Hp & ps' & -> & H).
    apply lastOf_none in Hp. subst pre. eauto.
  - intros (ps & rest & H). exists [], s, ([] :: ps), rest.
    split; [reflexivity|]. exists s. repeat split. exact H.
Qed.

Lemma startsWith_lower (w s : text) :
  startsWith w (toLowerCase s) = true <->
  exists m s', s = m ++ s' /\ toLowerCase m = w.
Proof.
  rewrite startsWith_spec. split.
  - intros (post & H). unfold toLowerCase in H.
    apply map_eq_app in H as (m & s' & -> & H1 & _).
    eauto.
  - intros (m & s' & -> & <-). exists (toLowerCase s').
    unfold toLowerCase. apply map_app.
Qed.

Lemma remote_test (ref : text) :
  test remoteRe ref = true
  <-> startsWith (lit "http://") (toLowerCase ref)
      || startsWith (lit "https://") (toLowerCase ref) = true.
Proof.
  unfold remoteRe. rewrite test_bol, orb_true_iff, !startsWith_lower. split.
  - intros (ps & rest & H).
    apply Matches_wordI_inv in H as (m & ps' & s' & -> & -> & Hm & H).
    destruct ps' as [|p1 ps1]; [destruct H|].
    destruct H as (s1 & -> & Hfit & H).
    rewrite <- (app_nil_r (wordI (lit "://"))) in H.
    apply Matches_wordI_inv in H as (m2 & ps2 & s2 & -> & -> & Hm2 & _).
    unfold sameI in Hm, Hm2. destruct Hfit as [-> | (c & -> & Hc)].
    + left. exists (m ++ m2), s2. rewrite <- app_assoc. split; [reflexivity|].
      unfold toLowerCase in *. rewrite map_app, Hm, Hm2. reflexivity.
    + right. exists (m ++ [c] ++ m2), s2. rewrite <- !app_assoc.
      split; [reflexivity|]. apply eqCharI_true in Hc.
      unfold toLowerCase in *. rewrite !map_app, Hm, Hm2. cbn [map]. rewrite Hc.
      reflexivity.
  - intros [(m & s' & -> & H) | (m & s' & -> & H)].
    + change (lit "http://") with (toLowerCase (lit "http") ++ toLowerCase (lit "://")) in H.
      apply map_eq_app in H as (m1 & m2 & -> & H1 & H2).
      exists (singles m1 ++ [] :: singles m2 ++ []), s'. rewrite <- app_assoc.
      apply Matches_wordI; [exact H1|]. exists (m2 ++ s'). split; [reflexivity|].
      split; [left; reflexivity|]. rewrite <- (app_nil_r (wordI (lit "://"))).
      apply Matches_wordI; [exact H2 | reflexivity].
    + change (lit "https://")
        with (toLowerCase (lit "http") ++ ["s"%char] ++ toLowerCase (lit "://")) in H.
      apply map_eq_app in H as (m1 & m' & -> & H1 & H).
      apply map_eq_app in H as (c1 & m2 & -> & Hc & H2).
      destruct c1 as [|c [|? ?]]; try discriminate Hc. injection Hc as Hc.
      exists (singles m1 ++ [c] :: singles m2 ++ []), s'. rewrite <- !app_assoc.
      apply Matches_wordI; [exact H1|]. exists (m2 ++ s'). split; [reflexivity|].
      split.
      * right. exists c. split; [reflexivity|]. apply eqCharI_true. exact Hc.
      * rewrite <- (app_nil_r (wordI (lit "://"))).
        apply Matches_wordI; [exact H2 | reflexivity].
Qed.

Lemma replaceFirst_slash (ref : text) :
  replaceFirst leadingSlashRe [] ref
  = match ref with
    | c :: r => if eqChar c "/" then r else ref
    | [] => []
    end.
Proof.
  unfold replaceFirst, leadingSlashRe. destruct ref as [|c r]; [reflexivity|].
  cbn [exec run]. unfold chr. destruct (eqChar c "/"); cbn [consPiece].
  - reflexivity.
  - rewrite exec_bol. reflexivity.
Qed.

(** X13. [resolveFromIndex] gives no path exactly for a reference that
    starts, in any case, with [http://] or [https://]; otherwise it
    joins the directory of the page with the reference, less one leading
    slash. *)
Theorem resolveFromIndex_cases (dirname : text -> text)
    (joinNormalize : text -> text -> text) (ref indexPath : text) :
  (resolveFromIndex dirname joinNormalize ref indexPath = None
   <-> startsWith (lit "http://") (toLowerCase ref)
       || startsWith (lit "https://") (toLowerCase ref) = true)
  /\ (forall r, ref = "/"%char :: r ->
        resolveFromIndex dirname joinNormalize ref indexPath
        = Some (joinNormalize (dirname indexPath) r))
  /\ (startsWith (lit "/") ref = false ->
      resolveFromIndex dirname joinNormalize ref indexPath <> None ->
      resolveFromIndex dirname joinNormalize ref indexPath
      = Some (joinNormalize (dirname indexPath) ref)).
Proof.
  unfold resolveFromIndex. rewrite replaceFirst_slash. split; [|split].
  - rewrite <- remote_test. destruct (test remoteRe ref); split; congruence.
  - intros r ->.
    assert (T : test remoteRe ("/"%char :: r) = false).
    { destruct (test remoteRe ("/"%char :: r)) eqn:E; [|reflexivity].
      apply remote_test in E. cbn in E. discriminate E. }
    rewrite T. reflexivity.
  - intros Hs Hn. destruct (test remoteRe ref); [congruence|].
    destruct ref as [|c r]; [reflexivity|].
    cbn [startsWith lit list_ascii_of_string] in Hs. rewrite andb_true_r in Hs.
    assert (E : eqChar c "/" = false).
    { destruct (eqChar c "/") eqn:E; [|reflexivity].
      apply eqChar_true in E. subst c. discriminate Hs. }
    rewrite E. reflexivity.
Qed.

(* ===================================================================== *)
(** * Further properties: locating the stylesheet *)
(* ===================================================================== *)

Lemma firstLinked_some (dirname : text -> text) (joinNormalize : text -> text -> text)
    (fs : FS) (hrefs : list text) (p : text) :
  firstLinked dirname joinNormalize fs hrefs = Some p
  <-> exists pre href post,
        hrefs = pre ++ href :: post
        /\ resolveFromIndex dirname joinNormalize href indexPath = Some p
        /\ p <> [] /\ isFileSync fs p = true
        /\ Forall (fun h => forall q,
                     resolveFromIndex dirname joinNormalize h indexPath = Some q ->
                     q = [] \/ isFileSync fs q = false) pre.
Proof.
  assert (F : forall q, isFileSync fs q = true -> existsSync fs q = true).
  { intros q. unfold isFileSync, existsSync. destruct (node fs q) as [[]|]; congruence. }
  induction hrefs as [|h l IH]; cbn [firstLinked].
  - split; [discriminate | intros ([|] & ? & ? & H & _); discriminate H].
  - destruct (resolveFromIndex dirname joinNormalize h indexPath) as [r|] eqn:R.
    + destruct (nonEmpty r && existsSync fs r && isFileSync fs r) eqn:E.
      * apply andb_true_iff in E as [E E3]. apply andb_true_iff in E as [E1 E2].
        split.
        -- intros H. injection H as <-. exists [], h, l. repeat split; auto.
           destruct r; [discriminate E1 | discriminate].
        -- intros (pre & href & post & Hl & Hr & Hne & Hf & Hpre).
           destruct pre as [|h' pre]; cbn [app] in Hl; injection Hl as -> ->.
           ++ congruence.
           ++ apply Forall_inv in Hpre. destruct (Hpre r R) as [-> | H']; [discriminate E1 | congruence].
      * rewrite IH. split.
        -- intros (pre & href & post & -> & Hr & Hne & Hf & Hpre).
           exists (h :: pre), href, post. repeat split; auto.
           constructor; [|exact Hpre]. intros q Hq. rewrite R in Hq. injection Hq as <-.
           destruct r as [|x r]; [left; reflexivity|]. right.
           destruct (isFileSync fs (x :: r)) eqn:E3; [|reflexivity].
           rewrite (F _ E3) in E. discriminate E.
        -- intros (pre & href & post & Hl & Hr & Hne & Hf & Hpre).
           destruct pre as [|h' pre]; cbn [app] in Hl; injection Hl as -> ->.
           ++ rewrite R in Hr. injection Hr as ->. rewrite Hf, (F _ Hf) in E.
              destruct p; [congruence | discriminate E].
           ++ exists pre, href, post. repeat split; auto.
              apply Forall_inv_tail in Hpre. exact Hpre.
    + rewrite IH. split.
      * intros (pre & href & post & -> & Hr & Hne & Hf & Hpre).
        exists (h :: pre), href, post. repeat split; auto.
        constructor; [|exact Hpre]. intros q Hq. congruence.
      * intros (pre & href & post & Hl & Hr & Hne & Hf & Hpre).
        destruct pre as [|h' pre]; cbn [app] in Hl; injection Hl as -> ->.
        -- congruence.
        -- exists pre, href, post. repeat split; auto.
           apply Forall_inv_tail in Hpre. exact Hpre.
Qed.

Lemma isEmptyCss_nil : isEmptyCss [] = true.
Proof. reflexivity. Qed.

(** X14. Where the graded text comes from. A stylesheet linked from the
    page is the first href that resolves to a regular file, and it is
    graded whatever else exists. Without one, [styles.css] is taken as
    soon as that path exists: when it is a directory the graded text is
    empty and the run is MISSING, whatever other stylesheet the
    repository holds. When nothing is located, none of the five usual
    names is a regular file. *)
Theorem locatedCss_cases (dirname : text -> text)
    (joinNormalize : text -> text -> text) (fs : FS) :
  (forall p, linkedFromIndex dirname joinNormalize fs = Some p ->
     isFileSync fs p = true
     /\ locatedCss dirname joinNormalize fs = Some (readTextSafe fs p)
     /\ exists pre href post,
          findCssHrefs (indexHtml fs) = pre ++ href :: post
          /\ resolveFromIndex dirname joinNormalize href indexPath = Some p
          /\ Forall (fun h => forall q,
                       resolveFromIndex dirname joinNormalize h indexPath = Some q ->
                       q = [] \/ isFileSync fs q = false) pre)
  /\ (linkedFromIndex dirname joinNormalize fs = None ->
      existsSync fs CSS_FILE_DEFAULT = true ->
      locatedCss dirname joinNormalize fs = Some (readTextSafe fs CSS_FILE_DEFAULT))
  /\ (linkedFromIndex dirname joinNormalize fs = None ->
      node fs CSS_FILE_DEFAULT = Some Dir ->
      forall Number execSync,
        status Number execSync (locatedCss dirname joinNormalize fs) = 2%Z)
  /\ (locatedCss dirname joinNormalize fs = None ->
      forall c, In c cssCandidates -> isFileSync fs c = false).
Proof.
  assert (F : forall q, isFileSync fs q = true -> existsSync fs q = true).
  { intros q. unfold isFileSync, existsSync. destruct (node fs q) as [[]|]; congruence. }
  assert (D : linkedFromIndex dirname joinNormalize fs = None ->
              existsSync fs CSS_FILE_DEFAULT = true ->
              locatedCss dirname joinNormalize fs
              = Some (readTextSafe fs CSS_FILE_DEFAULT)).
  { intros Hl He. unfold locatedCss, linkedCssPath. rewrite Hl, He.
    change (nonEmpty CSS_FILE_DEFAULT) with true. rewrite He. reflexivity. }
  split; [|split; [exact D | split]].
  - intros p Hp. unfold locatedCss, linkedCssPath. rewrite Hp.
    unfold linkedFromIndex in Hp. destruct (hasIndex fs); [|discriminate Hp].
    apply firstLinked_some in Hp as (pre & href & post & Hl & Hr & Hne & Hf & Hpre).
    split; [exact Hf|]. split.
    + rewrite (F _ Hf). destruct p; [congruence | reflexivity].
    + exists pre, href, post. auto.
  - intros Hl Hd Number execSync.
    assert (He : existsSync fs CSS_FILE_DEFAULT = true)
      by (unfold existsSync; rewrite Hd; reflexivity).
    rewrite (D Hl He). apply status_missing_iff. right.
    exists (readTextSafe fs CSS_FILE_DEFAULT). split; [reflexivity|].
    unfold readTextSafe. rewrite Hd. reflexivity.
  - intros Hn c Hc. destruct (isFileSync fs c) eqn:E; [|reflexivity]. exfalso.
    unfold locatedCss, linkedCssPath in Hn.
    destruct (linkedFromIndex dirname joinNormalize fs) as [p|] eqn:Hl.
    + unfold linkedFromIndex in Hl. destruct (hasIndex fs); [|discriminate Hl].
      apply firstLinked_some in Hl as (_ & _ & _ & _ & _ & Hne & Hf & _).
      rewrite (F _ Hf) in Hn. destruct p; [congruence | discriminate Hn].
    + destruct (existsSync fs CSS_FILE_DEFAULT) eqn:He.
      * change (nonEmpty CSS_FILE_DEFAULT) with true in Hn. rewrite He in Hn.
        discriminate Hn.
      * unfold guessCssFileFromRepo in Hn.
        destruct (find (fun c => existsSync fs c && isFileSync fs c) cssCandidates)
          as [c'|] eqn:Ef.
        -- apply find_some in Ef as [Hin Hc']. apply andb_true_iff in Hc' as [Hc' _].
           rewrite Hc' in Hn.
           assert (Hne : nonEmpty c' = true).
           { unfold cssCandidates in Hin. cbn [In] in Hin.
             repeat (destruct Hin as [<- | Hin]; [reflexivity|]). destruct Hin. }
           rewrite Hne in Hn. discriminate Hn.
        -- pose proof (find_none _ _ Ef c Hc) as N. cbn beta in N.
           rewrite E, (F _ E) in N. discriminate N.
Qed.

Lemma locatedCss_cases_witness :
  status decimalNumber noGit
    (locatedCss (fun _ => lit ".") (fun _ b => b)
       {| node := fun p => if eqText p (lit "styles.css") then Some Dir
                           else if eqText p (lit "style.css")
                                then Some (File (Some scenarioA)) else None;
          readdir := [{| d_name := lit "styles.css"; d_isFile := false |};
                      {| d_name := lit "style.css"; d_isFile := true |}] |})
  = 2%Z.
Proof.
  apply (proj1 (proj2 (proj2 (locatedCss_cases (fun _ => lit ".") (fun _ b => b) _))));
    reflexivity.
Defined.

(* ===================================================================== *)
(** * Further properties: the CSV record *)
(* ===================================================================== *)

Lemma string_of_uint_plain (f : ascii -> bool) (d : Decimal.uint) :
  (forall c, In c (lit "0123456789") -> f c = true) ->
  forallb f (list_ascii_of_string (DecimalString.NilEmpty.string_of_uint d)) = true.
Proof.
  intros H. induction d; cbn [DecimalString.NilEmpty.string_of_uint
                              list_ascii_of_string forallb];
    try reflexivity; rewrite IHd, andb_true_r; apply H; cbn; tauto.
Qed.

Lemma showZ_plain (f : ascii -> bool) (z : Z) :
  (forall c, In c (lit "-0123456789") -> f c = true) ->
  forallb f (showZ z) = true.
Proof.
  intros H.
  assert (H' : forall c, In c (lit "0123456789") -> f c = true)
    by (intros c Hc; apply H; right; exact Hc).
  assert (U : forall d,
             forallb f (list_ascii_of_string (DecimalString.NilZero.string_of_uint d))
             = true).
  { intros d. pose proof (string_of_uint_plain f d H') as P.
    destruct d; try exact P. cbn. rewrite H'; [reflexivity | cbn; tauto]. }
  unfold showZ, DecimalString.NilZero.string_of_int.
  destruct (Z.to_int z) as [d | d]; [apply U|].
  cbn [list_ascii_of_string forallb]. rewrite U, andb_true_r. apply H. left. reflexivity.
Qed.

Lemma showZ_no (sep : ascii) (z : Z) :
  ~ In sep (lit "-0123456789") ->
  forallb (fun ch => negb (eqChar ch sep)) (showZ z) = true.
Proof.
  intros H. apply showZ_plain. intros c Hc.
  destruct (eqChar c sep) eqn:E; [|reflexivity].
  apply eqChar_true in E. subst c. contradiction.
Qed.

Lemma split_two (sep : ascii) (a b : text) (l : list text) :
  forallb (fun ch => negb (eqChar ch sep)) a = true ->
  split sep b = l -> split sep (a ++ sep :: b) = a :: l.
Proof. intros Ha <-. apply split_app, Ha. Qed.

(** X15. The CSV written by a run is the header line and one record
    line, each closed by a newline; when the student ID holds no comma
    and no newline, the record reads back as exactly four fields: the
    ID, the total, 100 and the status. Nothing is quoted or escaped. *)
Theorem gradeCsv_fields (env : Env) (Number : text -> option Q)
    (execSync : Command -> option text) (css : option text) :
  forallb (fun ch => negb (eqChar ch ",")) (getStudentId env) = true ->
  forallb (fun ch => negb (eqChar ch newline)) (getStudentId env) = true ->
  exists record,
    split newline (gradeCsv env Number execSync css)
    = [lit "student_username,obtained_marks,total_marks,status"; record; []]
    /\ split "," record
       = [getStudentId env; showZ (totalEarned Number execSync css tasks);
          lit "100"; showZ (status Number execSync css)].
Proof.
  intros Hc Hn.
  set (total := totalEarned Number execSync css tasks).
  set (st := status Number execSync css).
  exists (getStudentId env ++ lit "," ++ showZ total ++ lit ",100," ++ showZ st).
  assert (Nt : forall z, forallb (fun ch => negb (eqChar ch newline)) (showZ z) = true).
  { intros z. apply showZ_no. cbn. intros H.
    repeat (destruct H as [H | H]; [discriminate H|]). exact H. }
  assert (Ct : forall z, forallb (fun ch => negb (eqChar ch ",")) (showZ z) = true).
  { intros z. apply showZ_no. cbn. intros H.
    repeat (destruct H as [H | H]; [discriminate H|]). exact H. }
  split.
  - unfold gradeCsv, csvText. fold total. fold st.
    apply split_two; [reflexivity|].
    rewrite !app_assoc. apply split_two; [|reflexivity].
    rewrite !forallb_app, Hn, !Nt. reflexivity.
  - change (lit ",") with [","%char].
    change (lit ",100,") with (","%char :: lit "100" ++ [","%char]).
    cbn [app]. apply split_two; [exact Hc|].
    apply split_two; [apply Ct|]. rewrite <- app_assoc. cbn [app].
    apply split_two; [reflexivity|]. apply split_one, Ct.
Qed.

Lemma gradeCsv_fields_witness :
  exists record,
    split newline
      (gradeCsv {| GITHUB_REPOSITORY := Some (lit "org/3-1-css-basics-zeyd92");
                   STUDENT_USERNAME := None; GITHUB_ACTOR := None |}
                decimalNumber noGit (Some scenarioA))
    = [lit "student_username,obtained_marks,total_marks,status"; record; []]
    /\ split "," record
       = [getStudentId {| GITHUB_REPOSITORY := Some (lit "org/3-1-css-basics-zeyd92");
                          STUDENT_USERNAME := None; GITHUB_ACTOR := None |};
          showZ (totalEarned decimalNumber noGit (Some scenarioA) tasks);
          lit "100"; showZ (status decimalNumber noGit (Some scenarioA))].
Proof.
  apply (gradeCsv_fields
           {| GITHUB_REPOSITORY := Some (lit "org/3-1-css-basics-zeyd92");
              STUDENT_USERNAME := None; GITHUB_ACTOR := None |}
           decimalNumber noGit (Some scenarioA)); vm_compute; reflexivity.
Defined.

(* ===================================================================== *)
(** * Further properties: the selector queries of the tasks *)
(* ===================================================================== *)

Lemma replaceRuns_delete (s : text) :
  replaceRuns [] s = filter (fun c => negb (isSpace c)) s.
Proof.
  induction s as [|c t IH]; [reflexivity|]. cbn [replaceRuns filter].
  destruct (isSpace c); cbn [negb].
  - destruct t as [|c' t']; [reflexivity|]. cbn [app].
    destruct (isSpace c'); exact IH.
  - rewrite IH. reflexivity.
Qed.

Lemma checks_anyOf (d : text) (p : text) :
  checks (anyOf [p]) d = hasProperty d p.
Proof.
  unfold checks, anyOf, declsHasAnyProperty. cbn [allProps anyProps mustInclude
    length Nat.eqb negb existsb andb]. rewrite orb_false_r, andb_true_r. reflexivity.
Qed.

(** X16. The fourth requirement of TODO 4 looks for a selector that
    reads [p.winner] once its whitespace is deleted: besides [p.winner]
    itself, the descendant selector [p .winner] and every other spacing
    of these characters earn the requirement, given a colour. *)
Theorem isPWinner_spacing (sel : text) :
  isPWinner sel = eqText (filter (fun c => negb (isSpace c)) sel) (lit "p.winner")
  /\ (forall rules r,
        In r rules -> selector r = sel ->
        filter (fun c => negb (isSpace c)) sel = lit "p.winner" ->
        hasProperty (decls r) (lit "color") = true ->
        ok (nth 3 (todo4 rules) placeholder) = true).
Proof.
  assert (E : isPWinner sel
              = eqText (filter (fun c => negb (isSpace c)) sel) (lit "p.winner")).
  { unfold isPWinner. rewrite replaceAll_spaces, replaceRuns_delete. reflexivity. }
  split; [exact E|]. intros rules r Hr Hs Hf Hc.
  cbn [todo4 nth ok req]. rewrite ruleSatisfies_existsb. apply existsb_exists.
  exists r. split.
  - apply findMatchingRules_In. split; [exact Hr|]. cbn [selectorMatches].
    rewrite Hs, E, Hf. reflexivity.
  - unfold RELATED.color. rewrite checks_anyOf. exact Hc.
Qed.

Lemma isPWinner_spacing_witness :
  ok (nth 3 (todo4 (parseCssRules (lit "p .winner { color: gold }"))) placeholder) = true.
Proof.
  refine (proj2 (isPWinner_spacing (lit "p .winner"))
            (parseCssRules (lit "p .winner { color: gold }"))
            {| selector := lit "p .winner"; decls := lit "color: gold" |} _ _ _ _);
    vm_compute; auto.
Defined.

(** ** Descendant selectors *)

Lemma parsed_normal (css : text) (r : Rule) :
  In r (parseCssRules css) ->
  specNormalize (selector r) = selector r /\ specNormalize (decls r) = decls r.
Proof.
  rewrite parseCssRules_blocks. intros Hr.
  apply in_flat_map in Hr as ([sel decl] & _ & Hr).
  unfold emit in Hr. apply in_map_iff in Hr as (p & <- & Hp).
  apply filter_In in Hp as [Hp _]. apply in_map_iff in Hp as (piece & <- & _).
  cbn [selector decls fst snd]. rewrite !specNormalize_idem. split; reflexivity.
Qed.

Lemma replaceRuns_word (by_ w t : text) :
  forallb (fun c => negb (isSpace c)) w = true ->
  replaceRuns by_ (w ++ t) = w ++ replaceRuns by_ t.
Proof.
  induction w as [|c w IH]; [reflexivity|]. cbn [forallb app replaceRuns].
  intros H. apply andb_true_iff in H as [Hc Hw].
  destruct (isSpace c); [discriminate Hc|]. rewrite (IH Hw). reflexivity.
Qed.

Lemma replaceRuns_gap (by_ ws : text) (c : ascii) (t : text) :
  ws <> [] -> forallb isSpace ws = true -> isSpace c = false ->
  replaceRuns by_ (ws ++ c :: t) = by_ ++ c :: replaceRuns by_ t.
Proof.
  intros Hne Hws Hc. induction ws as [|x ws IH]; [congruence|].
  cbn [forallb] in Hws. apply andb_true_iff in Hws as [Hx Hws].
  change ((x :: ws) ++ c :: t) with (x :: ws ++ c :: t).
  cbn [replaceRuns]. rewrite Hx. destruct ws as [|y ws].
  - cbn [app]. rewrite Hc. cbn [replaceRuns]. rewrite Hc. reflexivity.
  - cbn [app]. cbn [forallb] in Hws. apply andb_true_iff in Hws as [Hy Hws'].
    rewrite Hy. apply IH; [discriminate|]. cbn [forallb]. rewrite Hy, Hws'. reflexivity.
Qed.

Lemma sameI_lower (m p : text) :
  sameI m p -> toLowerCase p = p -> toLowerCase m = m -> m = p.
Proof. unfold sameI. congruence. Qed.

Lemma app_lower_parts (a b : text) :
  toLowerCase (a ++ b) = a ++ b -> toLowerCase a = a /\ toLowerCase b = b.
Proof.
  unfold toLowerCase. induction a as [|x a IH]; cbn [app map]; [auto|].
  intros H. injection H as Hx H. destruct (IH H) as [Ha Hb].
  rewrite Hx, Ha. auto.
Qed.

Lemma Matches_eol (prev : option ascii) (s : text) (ps : list text) (rest : text) :
  Matches [Eol] prev s ps rest -> s = [] /\ rest = [].
Proof.
  destruct ps as [|p [|? ?]].
  - intros [].
  - intros (s' & -> & [-> ->] & H). cbn in H. subst rest. split; reflexivity.
  - intros (s' & _ & _ & []).
Qed.

(** On a selector in normal form, an anchored query for two words
    separated by whitespace is a comparison with the two words separated
    by one space. *)
Lemma descendant_test (a b sel : text) :
  toLowerCase a = a -> toLowerCase b = b ->
  forallb (fun c => negb (isSpace c)) a = true ->
  (exists c t, b = c :: t /\ isSpace c = false) ->
  forallb (fun c => negb (isSpace c)) b = true ->
  specNormalize sel = sel ->
  test (Bol :: wordI a ++ Cls Many1 isSpace :: wordI b ++ [Eol]) sel
  = eqText sel (a ++ " "%char :: b).
Proof.
  intros Ha Hb Sa (c & t & Eb & Hc) Sb Hn.
  destruct (eqText sel (a ++ " "%char :: b)) eqn:E.
  - apply eqText_true in E. subst sel. apply test_bol.
    exists (singles a ++ [" "%char] :: singles b ++ [[]]), [].
    apply Matches_wordI; [reflexivity|].
    exists (b ++ []). split; [rewrite app_nil_r; reflexivity|].
    split; [split; [discriminate | reflexivity]|].
    apply Matches_wordI; [reflexivity|].
    exists []. repeat split.
  - destruct (test (Bol :: wordI a ++ Cls Many1 isSpace :: wordI b ++ [Eol]) sel) eqn:T;
      [|reflexivity].
    exfalso. apply test_bol in T as (ps & rest & H).
    apply Matches_wordI_inv in H as (m1 & ps1 & s1 & -> & -> & H1 & H).
    destruct ps1 as [|ws ps2]; [destruct H|].
    destruct H as (s2 & -> & [Hne Hws] & H).
    apply Matches_wordI_inv in H as (m2 & ps3 & s3 & -> & -> & H2 & H).
    apply Matches_eol in H as [-> ->]. rewrite app_nil_r in *.
    assert (L : toLowerCase (m1 ++ ws ++ m2) = m1 ++ ws ++ m2)
      by (rewrite <- Hn; apply specNormalize_lower).
    apply app_lower_parts in L as [L1 L]. apply app_lower_parts in L as [_ L2].
    apply (sameI_lower m1 a H1 Ha) in L1. apply (sameI_lower m2 b H2 Hb) in L2.
    subst m1 m2.
    assert (C : collapseWs (a ++ ws ++ b) = a ++ ws ++ b).
    { rewrite <- Hn at 1. unfold specNormalize. rewrite collapseWs_idem.
      exact Hn. }
    unfold collapseWs in C. rewrite (replaceRuns_word _ a _ Sa) in C.
    rewrite Eb in C. rewrite (replaceRuns_gap _ ws c t Hne Hws Hc) in C.
    assert (Sb' : forallb (fun c => negb (isSpace c)) t = true).
    { rewrite Eb in Sb. cbn [forallb] in Sb. apply andb_true_iff in Sb. apply Sb. }
    rewrite <- (app_nil_r t) in C at 1.
    rewrite (replaceRuns_word _ t [] Sb'), app_nil_r, <- Eb in C.
    apply app_inv_head in C. cbn [lit list_ascii_of_string app] in C.
    rewrite <- C in E.
    assert (X : eqText (a ++ " "%char :: b) (a ++ " "%char :: b) = true)
      by (apply eqText_true; reflexivity).
    congruence.
Qed.

Lemma filter_agree {A : Type} (f g : A -> bool) (l : list A) :
  (forall x, In x l -> f x = g x) -> filter f l = filter g l.
Proof.
  induction l as [|x l IH]; [reflexivity|]. intros H. cbn [filter].
  rewrite (H x (or_introl eq_refl)), IH; [reflexivity|].
  intros y Hy. apply H. right. exact Hy.
Qed.

(** X17. On the rules of a parsed stylesheet, the two regular
    expressions of TODO 6 find exactly the rules whose selector is
    [.chat-container .message], respectively
    [.chat-container .message-time]: parsing has already lowercased the
    selector and reduced its whitespace to one space. *)
Theorem descendant_queries (css : text) :
  findMatchingRules (parseCssRules css) (MRegExp msgSelRe)
  = findMatchingRules (parseCssRules css) (MString (lit ".chat-container .message"))
  /\ findMatchingRules (parseCssRules css) (MRegExp timeSelRe)
     = findMatchingRules (parseCssRules css)
         (MString (lit ".chat-container .message-time")).
Proof.
  split; cbn [findMatchingRules]; apply filter_agree; intros r Hr;
    apply parsed_normal in Hr as [Hn _].
  - apply (descendant_test (lit ".chat-container") (lit ".message") (selector r));
      try reflexivity; [|exact Hn].
    exists "."%char, (lit "message"). split; reflexivity.
  - apply (descendant_test (lit ".chat-container") (lit ".message-time") (selector r));
      try reflexivity; [|exact Hn].
    exists "."%char, (lit "message-time"). split; reflexivity.
Qed.

(** ** A declared property *)

Lemma declared_test (d : text) :
  test declaredRe d = true
  <-> exists pre c post, d = pre ++ ":"%char :: c :: post /\ c <> ";"%char.
Proof.
  rewrite test_spec. unfold declaredRe. split.
  - intros (pre & mid & ps & rest & -> & H).
    destruct ps as [|p1 [|p2 [|p3 [|p4 [|? ?]]]]]; cbn [Matches] in H;
      try contradiction;
      try (destruct H as (? & _ & _ & H); try contradiction;
           destruct H as (? & _ & _ & H); try contradiction;
           destruct H as (? & _ & _ & H); try contradiction;
           destruct H as (? & _ & _ & H); contradiction).
    destruct H as (s1 & -> & (c0 & -> & Hc0) & s2 & -> & Hws & s3 & -> & [Hne Hp3] & _).
    apply chr_true in Hc0. subst c0. destruct p2 as [|w p2].
    + destruct p3 as [|c p3]; [congruence|]. exists pre, c, (p3 ++ s3). split.
      * reflexivity.
      * cbn [forallb] in Hp3. apply andb_true_iff in Hp3 as [Hc _].
        intros ->. discriminate Hc.
    + exists pre, w, (p2 ++ p3 ++ s3). split.
      * reflexivity.
      * cbn [forallb] in Hws. apply andb_true_iff in Hws as [Hw _].
        intros ->. discriminate Hw.
  - intros (pre & c & post & -> & Hc).
    exists pre, (":"%char :: c :: post), [[":"%char]; []; [c]; []], post.
    split; [reflexivity|]. cbn [Matches].
    exists (c :: post). split; [reflexivity|]. split.
    { exists ":"%char. split; [reflexivity | apply chr_true; reflexivity]. }
    exists (c :: post). split; [reflexivity|]. split; [reflexivity|].
    exists post. split; [reflexivity|]. split.
    { split; [discriminate|]. cbn [forallb]. rewrite andb_true_r. unfold notSemi.
      apply negb_true_iff, eqChar_false, Hc. }
    exists post. split; [reflexivity|]. split; [left; reflexivity | reflexivity].
Qed.

(** X18. The third requirement of TODO 5, "at least one declared
    property", holds exactly when some [.important-test] rule has a
    colon directly followed by a character other than a semicolon:
    [color:] at the end of the block or [color:;] do not count, while
    [color: ;] does, the space being what follows the colon. *)
Theorem declared_property (rules : list Rule) :
  ok (nth 2 (todo5 rules) placeholder) = true
  <-> exists r pre c post,
        In r rules /\ selector r = lit ".important-test"
        /\ decls r = pre ++ ":"%char :: c :: post /\ c <> ";"%char.
Proof.
  cbn [todo5 nth ok req]. rewrite existsb_exists. split.
  - intros (r & Hr & Ht). apply findMatchingRules_In in Hr as [Hr Hs].
    apply declared_test in Ht as (pre & c & post & Hd & Hc).
    exists r, pre, c, post. auto.
  - intros (r & pre & c & post & Hr & Hs & Hd & Hc). exists r. split.
    + apply findMatchingRules_In. split; [exact Hr | exact Hs].
    + apply declared_test. exists pre, c, post. auto.
Qed.

(* ===================================================================== *)
(** * Further properties: letter case *)
(* ===================================================================== *)

Section MapMatch.
Variable f : ascii -> ascii.

Lemma consPiece_map (p : text) (r : option result) :
  consPiece (map f p) (option_map (mapResult f) r)
  = option_map (mapResult f) (consPiece p r).
Proof. destruct r as [[ps rest]|]; reflexivity. Qed.

Lemma growPiece_map (c : ascii) (r : option result) :
  growPiece (f c) (option_map (mapResult f) r)
  = option_map (mapResult f) (growPiece c r).
Proof. destruct r as [[[|p ps] rest]|]; reflexivity. Qed.

Lemma greedy_map (k k' : option ascii -> text -> option result) (cls : ascii -> bool) :
  (forall s prev prev', k' prev' (map f s) = option_map (mapResult f) (k prev s)) ->
  (forall x, cls (f x) = cls x) ->
  forall s prev prev',
    greedy k' cls prev' (map f s) = option_map (mapResult f) (greedy k cls prev s).
Proof.
  intros Hk Hc. induction s as [|c t IH]; intros prev prev'.
  - pose proof (Hk [] prev prev') as E0. cbn [map] in E0.
    cbn [map greedy]. rewrite E0. apply (consPiece_map []).
  - cbn [map greedy]. rewrite Hc.
    assert (E : consPiece [] (k' prev' (f c :: map f t))
                = option_map (mapResult f) (consPiece [] (k prev (c :: t)))).
    { rewrite <- (consPiece_map []). f_equal. apply (Hk (c :: t)). }
    destruct (cls c); [|exact E].
    rewrite (IH (Some c) (Some (f c))), growPiece_map.
    destruct (growPiece c (greedy k cls (Some c) t)); [reflexivity | exact E].
Qed.

Lemma lazy_map (k k' : option ascii -> text -> option result) (cls : ascii -> bool) :
  (forall s prev prev', k' prev' (map f s) = option_map (mapResult f) (k prev s)) ->
  (forall x, cls (f x) = cls x) ->
  forall s prev prev',
    lazy k' cls prev' (map f s) = option_map (mapResult f) (lazy k cls prev s).
Proof.
  intros Hk Hc. induction s as [|c t IH]; intros prev prev'.
  - pose proof (Hk [] prev prev') as E0. cbn [map] in E0.
    cbn [map lazy]. rewrite E0, (consPiece_map []).
    destruct (consPiece [] (k prev [])); reflexivity.
  - cbn [map lazy]. change (f c :: map f t) with (map f (c :: t)).
    rewrite (Hk (c :: t) prev prev'), (consPiece_map []).
    destruct (consPiece [] (k prev (c :: t))); [reflexivity|].
    cbn [option_map]. rewrite Hc. destruct (cls c); [|reflexivity].
    rewrite (IH (Some c) (Some (f c))). apply growPiece_map.
Qed.

Lemma run_map (re : regexp) :
  respects f re ->
  forall s prev prev',
    run re prev' (map f s) = option_map (mapResult f) (run re prev s).
Proof.
  induction 1 as [|it re Hit _ IH]; intros s prev prev'; [reflexivity|].
  destruct it as [q cls| | |]; try contradiction.
  destruct q; cbn [run].
  - destruct s as [|c t]; [reflexivity|]. cbn [map]. rewrite Hit.
    destruct (cls c); [|reflexivity].
    rewrite (IH t (Some c) (Some (f c))). apply (consPiece_map [c]).
  - assert (E : consPiece [] (run re prev' (map f s))
                = option_map (mapResult f) (consPiece [] (run re prev s))).
    { rewrite <- (consPiece_map []). f_equal. apply IH. }
    destruct s as [|c t]; [exact E|]. cbn [map] in *. rewrite Hit.
    destruct (cls c); [|exact E].
    rewrite (IH t (Some c) (Some (f c))), (consPiece_map [c]).
    destruct (consPiece [c] (run re (Some c) t)); [reflexivity | exact E].
  - apply greedy_map; [exact IH | exact Hit].
  - destruct s as [|c t]; [reflexivity|]. cbn [map]. rewrite Hit.
    destruct (cls c); [|reflexivity].
    rewrite (greedy_map (run re) (run re) cls IH Hit t (Some c) (Some (f c))).
    apply growPiece_map.
  - apply lazy_map; [exact IH | exact Hit].
Qed.

Lemma skipOne_map (c : ascii) (m : option found) :
  skipOne (f c) (option_map (mapFound f) m) = option_map (mapFound f) (skipOne c m).
Proof. destruct m; reflexivity. Qed.

Lemma exec_map (re : regexp) :
  respects f re ->
  forall s prev prev',
    exec re prev' (map f s) = option_map (mapFound f) (exec re prev s).
Proof.
  intros H. induction s as [|c t IH]; intros prev prev'.
  - pose proof (run_map re H [] prev prev') as E0. cbn [map] in E0.
    cbn [map exec]. rewrite E0.
    destruct (run re prev []) as [[ps rest]|]; reflexivity.
  - cbn [map exec]. change (f c :: map f t) with (map f (c :: t)).
    rewrite (run_map re H (c :: t) prev prev').
    destruct (run re prev (c :: t)) as [[ps rest]|]; [reflexivity|].
    cbn [option_map map]. rewrite (IH (Some c) (Some (f c))). apply skipOne_map.
Qed.

Lemma matched_map (m : found) : matched (mapFound f m) = map f (matched m).
Proof. unfold matched, mapFound. cbn [pieces]. symmetry. apply concat_map. Qed.

Lemma execLoop_map (re : regexp) :
  respects f re ->
  forall n s prev prev',
    execLoop n re prev' (map f s) = map (map (map f)) (execLoop n re prev s).
Proof.
  intros H. induction n as [|n IH]; intros s prev prev'; [reflexivity|].
  cbn [execLoop]. rewrite (exec_map re H s prev prev').
  destruct (exec re prev s) as [m|]; [|reflexivity].
  cbn [option_map map]. f_equal. apply IH.
Qed.

Lemma replaceLoop_map (re : regexp) (by_ : text) :
  respects f re ->
  forall n s prev prev',
    replaceLoop n re (map f by_) prev' (map f s)
    = map f (replaceLoop n re by_ prev s).
Proof.
  intros H. induction n as [|n IH]; intros s prev prev'; [reflexivity|].
  cbn [replaceLoop]. rewrite (exec_map re H s prev prev').
  destruct (exec re prev s) as [m|]; [|reflexivity].
  cbn [option_map]. rewrite matched_map.
  change (after (mapFound f m)) with (map f (after m)).
  change (skipped (mapFound f m)) with (map f (skipped m)).
  destruct (matched m) as [|x xs]; cbn [map].
  - destruct (after m) as [|c t]; cbn [map].
    + rewrite map_app. reflexivity.
    + rewrite !map_app. cbn [map]. rewrite (IH t (Some c) (Some (f c))). reflexivity.
  - rewrite !map_app.
    rewrite (IH (after m) (lastOf prev (skipped m ++ x :: xs))
               (lastOf prev' (map f (skipped m) ++ f x :: map f xs))).
    reflexivity.
Qed.

Lemma matchAll_map (re : regexp) (s : text) :
  respects f re -> matchAll re (map f s) = map (map (map f)) (matchAll re s).
Proof.
  intros H. unfold matchAll. rewrite length_map. apply execLoop_map, H.
Qed.

Lemma replaceAll_map (re : regexp) (by_ s : text) :
  respects f re -> replaceAll re (map f by_) (map f s) = map f (replaceAll re by_ s).
Proof.
  intros H. unfold replaceAll. rewrite length_map. apply replaceLoop_map, H.
Qed.

Lemma split_map (sep : ascii) (s : text) :
  (forall x, eqChar (f x) sep = eqChar x sep) ->
  split sep (map f s) = map (map f) (split sep s).
Proof.
  intros H. induction s as [|c t IH]; [reflexivity|]. cbn [map split].
  rewrite H, IH. destruct (eqChar c sep); [reflexivity|].
  destruct (split sep t); reflexivity.
Qed.
End MapMatch.

Lemma lower_keeps (c x : ascii) :
  In c (lit "/*{},") -> eqChar (lowerChar x) c = eqChar x c.
Proof.
  intros H. cbn in H.
  repeat (destruct H as [<- | H];
          [destruct x as [[] [] [] [] [] [] [] []]; reflexivity|]).
  destruct H.
Qed.

Lemma commentRe_lower : respects lowerChar commentRe.
Proof.
  unfold commentRe. repeat constructor; intros x; unfold chr;
    try (apply lower_keeps; cbn; tauto).
Qed.

Lemma ruleRe_lower : respects lowerChar ruleRe.
Proof.
  unfold ruleRe. repeat constructor; intros x; unfold chr, notBrace, notClose;
    rewrite ?lower_keeps by (cbn; tauto); reflexivity.
Qed.

Lemma strip_lower (s : text) :
  stripCssComments (toLowerCase s) = toLowerCase (stripCssComments s).
Proof. apply (replaceAll_map lowerChar commentRe [] s commentRe_lower). Qed.

Lemma compactWs_lower (s : text) : compactWs (toLowerCase s) = toLowerCase (compactWs s).
Proof.
  rewrite !compactWs_spec, <- toLowerCase_trim, <- toLowerCase_collapse. reflexivity.
Qed.

Lemma isEmptyCss_lower (s : text) : isEmptyCss (toLowerCase s) = isEmptyCss s.
Proof.
  unfold isEmptyCss. rewrite strip_lower, compactWs_lower. unfold toLowerCase.
  rewrite length_map. reflexivity.
Qed.

Lemma specNormalize_of_lower (s : text) : specNormalize (toLowerCase s) = specNormalize s.
Proof.
  unfold specNormalize. rewrite <- toLowerCase_trim, toLowerCase_idem. reflexivity.
Qed.

Lemma rulesOfMatch_lower (m : list text) :
  rulesOfMatch (map (map lowerChar) m) = rulesOfMatch m.
Proof.
  unfold rulesOfMatch.
  change (@nil ascii) with (map lowerChar []).
  rewrite !map_nth. cbn [map].
  rewrite ?normalizeDecls_spec.
  rewrite split_map by (intros x; apply lower_keeps; cbn; tauto).
  rewrite map_map.
  rewrite (map_ext (fun x => normalizeSelector (map lowerChar x)) normalizeSelector).
  - fold (toLowerCase (nth 2 m [])). rewrite specNormalize_of_lower. reflexivity.
  - intros x. rewrite !normalizeSelector_spec. apply specNormalize_of_lower.
Qed.

Lemma parse_lower (s : text) : parseCssRules (toLowerCase s) = parseCssRules s.
Proof.
  unfold parseCssRules. rewrite strip_lower. unfold toLowerCase.
  rewrite (matchAll_map lowerChar ruleRe _ ruleRe_lower).
  induction (matchAll ruleRe (stripCssComments s)) as [|m l IH]; [reflexivity|].
  cbn [map flat_map]. rewrite rulesOfMatch_lower, IH. reflexivity.
Qed.

Lemma run_same (Number : text -> option Q) (execSync : Command -> option text)
    (c1 c2 : text) :
  isEmptyCss c1 = isEmptyCss c2 -> parseCssRules c1 = parseCssRules c2 ->
  status Number execSync (Some c1) = status Number execSync (Some c2)
  /\ taskResults Number execSync (Some c1) tasks
     = taskResults Number execSync (Some c2) tasks
  /\ totalEarned Number execSync (Some c1) tasks
     = totalEarned Number execSync (Some c2) tasks.
Proof.
  intros He Hp.
  assert (S : status Number execSync (Some c1) = status Number execSync (Some c2)).
  { unfold status, cssEmpty, hasCss, cssCode. rewrite He. reflexivity. }
  assert (T : taskResults Number execSync (Some c1) tasks
              = taskResults Number execSync (Some c2) tasks).
  { unfold taskResults. apply map_ext. intros t. unfold taskResult. rewrite S.
    unfold rules, cssEmpty, hasCss, cssCode. rewrite He, Hp. reflexivity. }
  split; [exact S | split; [exact T|]].
  unfold totalEarned, earnedTodoMarks, earnedWeightTotal, submissionMarks.
  rewrite S, T. reflexivity.
Qed.

(** X19. The grade does not look at letter case. Two stylesheets that
    are equal up to the case of their letters, selectors, property names
    and values alike, get the same status, the same result for every
    task and the same total. *)
Theorem grade_ignores_case (Number : text -> option Q)
    (execSync : Command -> option text) (c1 c2 : text) :
  toLowerCase c1 = toLowerCase c2 ->
  parseCssRules c1 = parseCssRules c2
  /\ status Number execSync (Some c1) = status Number execSync (Some c2)
  /\ taskResults Number execSync (Some c1) tasks
     = taskResults Number execSync (Some c2) tasks
  /\ totalEarned Number execSync (Some c1) tasks
     = totalEarned Number execSync (Some c2) tasks.
Proof.
  intros H.
  assert (Hp : parseCssRules c1 = parseCssRules c2)
    by (rewrite <- (parse_lower c1), <- (parse_lower c2), H; reflexivity).
  assert (He : isEmptyCss c1 = isEmptyCss c2)
    by (rewrite <- (isEmptyCss_lower c1), <- (isEmptyCss_lower c2), H; reflexivity).
  split; [exact Hp | apply run_same; assumption].
Qed.

Lemma grade_ignores_case_witness :
  totalEarned decimalNumber noGit (Some (lit "P { COLOR: Red; Font-Size: 14PX }")) tasks
  = totalEarned decimalNumber noGit (Some (lit "p { color: red; font-size: 14px }")) tasks.
Proof.
  refine (proj2 (proj2 (proj2 (grade_ignores_case decimalNumber noGit
            (lit "P { COLOR: Red; Font-Size: 14PX }")
            (lit "p { color: red; font-size: 14px }") _)))).
  vm_compute. reflexivity.
Defined.

(* ===================================================================== *)
(** * Further properties: guessing the stylesheet, reading the log *)
(* ===================================================================== *)

Lemma endsWith_spec (s suffix : text) :
  endsWith s suffix = true <-> exists stem, s = stem ++ suffix.
Proof.
  unfold endsWith. rewrite startsWith_spec. split.
  - intros (post & H). exists (rev post).
    rewrite <- (rev_involutive s), H, rev_app_distr, rev_involutive. reflexivity.
  - intros (stem & ->). exists (rev stem). apply rev_app_distr.
Qed.

(** X20. [guessCssFileFromRepo] answers with one of the five usual
    names that is a regular file whenever there is one, whatever the
    directory lists; otherwise with the first listed regular file whose
    name ends in [.css], in any case, and mentions neither
    [node_modules] nor [artifacts]; and with nothing when there is no
    such entry either. *)
Theorem guessCssFileFromRepo_cases (fs : FS) :
  (forall c, In c cssCandidates -> isFileSync fs c = true ->
     exists c', guessCssFileFromRepo fs = Some c'
                /\ In c' cssCandidates /\ isFileSync fs c' = true)
  /\ ((forall c, In c cssCandidates -> isFileSync fs c = false) ->
      forall pre e post,
        readdir fs = pre ++ e :: post ->
        Forall (fun x => looksLikeCss x = false) pre -> looksLikeCss e = true ->
        guessCssFileFromRepo fs = Some (d_name e))
  /\ (forall e, looksLikeCss e = true
                <-> d_isFile e = true
                    /\ (exists stem, toLowerCase (d_name e) = stem ++ lit ".css")
                    /\ ~ Includes (toLowerCase (d_name e)) (lit "node_modules")
                    /\ ~ Includes (toLowerCase (d_name e)) (lit "artifacts"))
  /\ (guessCssFileFromRepo fs = None
      <-> (forall c, In c cssCandidates -> isFileSync fs c = false)
          /\ Forall (fun x => looksLikeCss x = false) (readdir fs)).
Proof.
  assert (F : forall q, isFileSync fs q = true -> existsSync fs q = true).
  { intros q. unfold isFileSync, existsSync. destruct (node fs q) as [[]|]; congruence. }
  assert (N : (forall c, In c cssCandidates -> isFileSync fs c = false) ->
              find (fun c => existsSync fs c && isFileSync fs c) cssCandidates = None).
  { intros H. destruct (find _ cssCandidates) as [c|] eqn:E; [|reflexivity].
    apply find_some in E as [Hin Hc]. apply andb_true_iff in Hc as [_ Hc].
    rewrite (H c Hin) in Hc. discriminate Hc. }
  split; [|split; [|split]].
  - intros c Hc Hf. unfold guessCssFileFromRepo.
    destruct (find (fun c => existsSync fs c && isFileSync fs c) cssCandidates)
      as [c'|] eqn:E.
    + apply find_some in E as [Hin Hc']. apply andb_true_iff in Hc' as [_ Hc'].
      exists c'. auto.
    + pose proof (find_none _ _ E c Hc) as X. cbn beta in X.
      rewrite Hf, (F _ Hf) in X. discriminate X.
  - intros Hnone pre e post Hr Hpre He. unfold guessCssFileFromRepo.
    rewrite (N Hnone), Hr. clear Hr.
    induction Hpre as [|x pre Hx _ IH]; cbn [app find].
    + rewrite He. reflexivity.
    + rewrite Hx. exact IH.
  - intros e. unfold looksLikeCss.
    rewrite !andb_true_iff, !negb_true_iff, endsWith_spec, <- !includes_spec.
    split.
    + intros [[[H1 H2] H3] H4]. repeat split; auto; congruence.
    + intros (H1 & H2 & H3 & H4). repeat split; auto;
        [destruct (includes (toLowerCase (d_name e)) (lit "node_modules"))
        |destruct (includes (toLowerCase (d_name e)) (lit "artifacts"))];
        congruence.
  - unfold guessCssFileFromRepo. split.
    + intros H.
      destruct (find (fun c => existsSync fs c && isFileSync fs c) cssCandidates)
        as [c'|] eqn:E; [discriminate H|].
      split.
      * intros c Hc. pose proof (find_none _ _ E c Hc) as X. cbn beta in X.
        destruct (isFileSync fs c) eqn:Hf; [|reflexivity].
        rewrite (F _ Hf) in X. discriminate X.
      * destruct (find looksLikeCss (readdir fs)) as [e|] eqn:E2; [discriminate H|].
        apply Forall_forall. intros x Hx. apply (find_none _ _ E2 x Hx).
    + intros [H1 H2]. rewrite (N H1).
      destruct (find looksLikeCss (readdir fs)) as [e|] eqn:E2; [|reflexivity].
      apply find_some in E2 as [Hin He]. rewrite Forall_forall in H2.
      rewrite (H2 e Hin) in He. discriminate He.
Qed.

Lemma guessCssFileFromRepo_cases_witness :
  guessCssFileFromRepo
    {| node := fun _ => None;
       readdir := [{| d_name := lit "README.md"; d_isFile := true |};
                   {| d_name := lit "css"; d_isFile := false |};
                   {| d_name := lit "Chat.CSS"; d_isFile := true |}] |}
  = Some (lit "Chat.CSS").
Proof.
  apply (proj1 (proj2 (guessCssFileFromRepo_cases
           {| node := fun _ => None;
              readdir := [{| d_name := lit "README.md"; d_isFile := true |};
                          {| d_name := lit "css"; d_isFile := false |};
                          {| d_name := lit "Chat.CSS"; d_isFile := true |}] |})))
    with (pre := [{| d_name := lit "README.md"; d_isFile := true |};
                  {| d_name := lit "css"; d_isFile := false |}])
         (e := {| d_name := lit "Chat.CSS"; d_isFile := true |})
         (post := []).
  - intros c _. reflexivity.
  - reflexivity.
  - repeat constructor.
  - reflexivity.
Defined.

(** X21. A line of the log reads back. For a commit whose time, names
    and e-mail addresses hold no bar, the first field is the time and
    the haystack is the lowercased names, addresses and subject, bars of
    the subject included; the time is never searched for markers. *)
Theorem logLine_reads_back (c : Commit) :
  forallb (fun ch => negb (eqChar ch "|")) (c_time c) = true ->
  forallb (fun ch => negb (eqChar ch "|")) (c_an c) = true ->
  forallb (fun ch => negb (eqChar ch "|")) (c_ae c) = true ->
  forallb (fun ch => negb (eqChar ch "|")) (c_cn c) = true ->
  forallb (fun ch => negb (eqChar ch "|")) (c_ce c) = true ->
  ctOf (logLine c) = c_time c
  /\ hayOf (logLine c)
     = toLowerCase (c_an c ++ lit " " ++ c_ae c ++ lit " " ++ c_cn c ++ lit " "
                    ++ c_ce c ++ lit " " ++ c_subject c)
  /\ (forall t, forallb (fun ch => negb (eqChar ch "|")) t = true ->
        isBot (logLine {| c_time := t; c_an := c_an c; c_ae := c_ae c;
                          c_cn := c_cn c; c_ce := c_ce c;
                          c_subject := c_subject c |})
        = isBot (logLine c)).
Proof.
  intros Ht Han Hae Hcn Hce.
  assert (S : forall t, forallb (fun ch => negb (eqChar ch "|")) t = true ->
              split "|" (t ++ lit "|" ++ c_an c ++ lit "|" ++ c_ae c ++ lit "|"
                         ++ c_cn c ++ lit "|" ++ c_ce c ++ lit "|" ++ c_subject c)
              = t :: c_an c :: c_ae c :: c_cn c :: c_ce c :: split "|" (c_subject c)).
  { intros t Ht'. change (lit "|") with ["|"%char]. cbn [app].
    rewrite (split_app "|" t _ Ht'), (split_app "|" _ _ Han),
      (split_app "|" _ _ Hae), (split_app "|" _ _ Hcn), (split_app "|" _ _ Hce).
    reflexivity. }
  assert (Hay : forall t, forallb (fun ch => negb (eqChar ch "|")) t = true ->
              hayOf (t ++ lit "|" ++ c_an c ++ lit "|" ++ c_ae c ++ lit "|"
                     ++ c_cn c ++ lit "|" ++ c_ce c ++ lit "|" ++ c_subject c)
              = toLowerCase (c_an c ++ lit " " ++ c_ae c ++ lit " " ++ c_cn c
                             ++ lit " " ++ c_ce c ++ lit " " ++ c_subject c)).
  { intros t Ht'. unfold hayOf. rewrite (S t Ht'). unfold part. cbn [nth skipn].
    change (lit "|") with ["|"%char]. rewrite split_join. reflexivity. }
  split; [|split].
  - unfold ctOf, logLine. rewrite (S _ Ht). reflexivity.
  - apply (Hay _ Ht).
  - intros t Ht'. unfold isBot, logLine. cbn [c_time c_an c_ae c_cn c_ce c_subject].
    rewrite (Hay t Ht'), (Hay _ Ht). reflexivity.
Qed.

Lemma logLine_reads_back_witness :
  ctOf (logLine studentCommit) = lit "1757969941"
  /\ hayOf (logLine studentCommit)
     = lit "student student@example.org student student@example.org finish todo 9 | done".
Proof.
  pose proof (logLine_reads_back studentCommit eq_refl eq_refl eq_refl eq_refl eq_refl)
    as (H1 & H2 & _).
  split; [exact H1 | exact H2].
Defined.

(* ===================================================================== *)
(** * Further properties: unreadable times, nested blocks *)
(* ===================================================================== *)




Lemma includes_tail (a b w : text) :
  includes (a ++ b) w = false -> includes b w = false.
Proof.
  intros H. destruct (includes b w) eqn:E; [|reflexivity].
  apply includes_spec in E as (pre & post & ->).
  assert (T : includes (a ++ pre ++ w ++ post) w = true).
  { apply includes_spec. exists (a ++ pre), post. rewrite <- app_assoc. reflexivity. }
  congruence.
Qed.

Lemma blocksOf_first (sel body rest : text) :
  sel <> [] -> forallb notBrace sel = true -> forallb notClose body = true ->
  blocksOf (sel ++ "{"%char :: body ++ "}"%char :: rest)
  = (sel, body) :: blocksOf rest.
Proof.
  intros Hne Hsel Hbody. symmetry. apply Spans_unique.
  apply (Spans_block [] sel body rest (blocksOf rest) Junk_nil Hne Hsel Hbody).
  apply Spans_blocksOf.
Qed.

Lemma notBrace_text (l : text) :
  forallb notBrace l = true -> forallb notClose l = true.
Proof.
  induction l as [|x l IH]; [reflexivity|]. cbn [forallb].
  rewrite !andb_true_iff. intros [Hx Hl].
  split; [apply notBrace_notClose, Hx | exact (IH Hl)].
Qed.

(** X23. Blocks are not nested. Where a block opens inside a block, as
    a rule does inside an at-rule, the outer selector gets everything up
    to the first closing brace as its declarations, the inner selector
    and its opening brace included, and the parse resumes right after
    that brace: the first inner selector is not extracted, and whatever
    follows, later inner rules included, is read as if it stood at the
    top level. *)
Theorem nested_blocks_are_read_flat (outer inner decl rest : text) :
  forallb notBrace outer = true ->
  forallb (fun c => negb (eqChar c ",")) outer = true ->
  forallb isSpace outer = false ->
  forallb notBrace inner = true -> forallb notClose decl = true ->
  includes (outer ++ "{"%char :: inner ++ "{"%char :: decl ++ "}"%char :: rest)
           (lit "/*") = false ->
  parseCssRules (outer ++ "{"%char :: inner ++ "{"%char :: decl ++ "}"%char :: rest)
  = {| selector := normalizeSelector outer;
       decls := normalizeDecls (inner ++ "{"%char :: decl) |}
    :: parseCssRules rest.
Proof.
  intros Ho Hcomma Hblank Hi Hd Hopen.
  assert (Hn : specNormalize outer <> []).
  { intros E. apply specNormalize_nil in E. congruence. }
  assert (Hne : outer <> []) by (intros ->; discriminate Hblank).
  assert (Hbody : forallb notClose (inner ++ "{"%char :: decl) = true).
  { rewrite forallb_app. cbn [forallb]. rewrite (notBrace_text inner Hi), Hd.
    reflexivity. }
  assert (Hrest : includes rest (lit "/*") = false).
  { apply (includes_tail (outer ++ "{"%char :: inner ++ "{"%char :: decl ++ ["}"%char])).
    replace ((outer ++ "{"%char :: inner ++ "{"%char :: decl ++ ["}"%char]) ++ rest)
      with (outer ++ "{"%char :: inner ++ "{"%char :: decl ++ "}"%char :: rest);
      [exact Hopen|].
    rewrite <- !app_assoc. cbn [app]. rewrite <- !app_assoc. cbn [app].
    rewrite <- !app_assoc. reflexivity. }
  assert (E : outer ++ "{"%char :: inner ++ "{"%char :: decl ++ "}"%char :: rest
              = outer ++ "{"%char :: (inner ++ "{"%char :: decl) ++ "}"%char :: rest)
    by (rewrite <- app_assoc; reflexivity).
  rewrite !parseCssRules_blocks, (strip_no_opener _ Hopen), (strip_no_opener _ Hrest),
    E, (blocksOf_first outer (inner ++ "{"%char :: decl) rest Hne Ho Hbody).
  cbn [flat_map]. unfold emit at 1. cbn [fst snd].
  rewrite (split_one "," outer Hcomma). cbn [map filter].
  rewrite ?normalizeSelector_spec, ?normalizeDecls_spec.
  destruct (specNormalize outer) as [|x r] eqn:En; [congruence|]. reflexivity.
Qed.

Lemma nested_blocks_are_read_flat_witness :
  parseCssRules (lit "@media print { p { color: red } span { color: blue } }")
  = [{| selector := lit "@media print"; decls := lit "p { color: red" |};
     {| selector := lit "span"; decls := lit "color: blue" |}].
Proof.
  refine (eq_trans
            (nested_blocks_are_read_flat (lit "@media print ") (lit " p ")
               (lit " color: red ") (lit " span { color: blue } }")
               eq_refl eq_refl eq_refl eq_refl eq_refl eq_refl) _).
  vm_compute. reflexivity.
Defined.
